(** * Wallet resource pool and safety control: a verification development

    Shallow embedding of the circuit breaker
    (src/market/MarketDataProvider.js, class CircuitBreaker), the burner
    wallet manager (src/wallet/BurnerWalletManager.js), the wallet manager
    (funding of wallets and relayers, selection of the active batch) and
    the wallet rebalancer (src/wallet/WalletManager.js), and the batch the
    main loop trades with (src/VolumeBoosterBot.js).

    Conventions.  Lamport amounts (BigInt, BN) and the integer counters kept
    in JS numbers are [Z].  A JS [Map] or [Set] keyed by public key is a
    [gmap string _] or [gset string], except where the insertion order is
    observable, where it is an association list.  An awaited call of the
    connection is an input of the model: its result, or the fact that it
    threw.  [Math.random] is an input as well.  The stop-loss comparison is
    computed on IEEE doubles ([number]); the other comparisons and
    roundings made on JS floating point numbers are inputs, named after the
    expression they stand for. *)

From Stdlib Require Import ZArith Bool.
From Stdlib Require SpecFloat.
From stdpp Require Import gmap strings list fin_maps.

Local Open Scope Z_scope.

(* set_solver clears hypotheses by name and warns when one is already gone *)
#[local] Set Warnings "-clear-no-such-hyp".

(** Result of an awaited call: the value it resolved to, or a rejection. *)
Inductive outcome (A : Type) : Type :=
  | Returned (a : A)
  | Thrown.
Arguments Returned {A} a.
Arguments Thrown {A}.

(** A JS number: an IEEE 754 binary64 value, under the Standard Library's
    specification of the format (53 bits of precision, exponents below
    1024, rounding to nearest with ties to even). *)
Definition number : Type := SpecFloat.spec_float.

(** [Number(n)] for a BigInt [n], and an integer literal: the nearest double. *)
Definition Number (n : Z) : number := SpecFloat.binary_normalize 53 1024 n 0 false.

(** [x / y] on JS numbers *)
Definition numberDiv (x y : number) : number := SpecFloat.SFdiv 53 1024 x y.

(** [x > y] on JS numbers *)
Definition numberGt (x y : number) : bool := SpecFloat.SFltb y x.

(** Whether [n.toNumber()] throws for a BN [n]: bn.js asserts that the value
    has at most 53 bits ('Number can only safely store up to 53 bits'). *)
Definition toNumberThrows (n : Z) : bool := 2 ^ 53 <=? Z.abs n.

(** ** Circuit breaker *)

Module CircuitBreaker.

(** constants.js *)
Definition SINK_BALANCE_CHECK_INTERVAL : Z := 5.

(** The part of ConfigManager the breaker reads.  [maxFailureRate] is a JS
    number that the breaker only ever compares with a quotient of two
    counts: [failureRateAbove f n] is [f / n > config.maxFailureRate].
    [emergencyStopLoss] is the JS number the configuration holds. *)
Record Config := {
  enableCircuitBreaker : bool;
  maxConsecutiveFailures : Z;
  failureRateWindow : Z;
  failureRateAbove : Z -> Z -> bool;
  emergencyStopLoss : number
}.

(** ConfigManager.validatePercentage: [return pct / 100], [pct] being the
    number read from the environment. *)
Definition validatePercentage (pct : number) : number := numberDiv pct (Number 100).

(** [const lossDecimal = Number(lossPercent) / 10000] and the test
    [lossDecimal > this.config.emergencyStopLoss], both on JS numbers. *)
Definition lossAbove (cfg : Config) (lossPercent : Z) : bool :=
  let lossDecimal := numberDiv (Number lossPercent) (Number 10000) in
  numberGt lossDecimal (emergencyStopLoss cfg).
Arguments lossAbove : simpl never.

Record State := {
  consecutiveFailures : Z;
  recentTrades : list bool;
  initialSinkBalance : Z;
  checkCounter : Z
}.

(** The text of [reason], kept as the data it is printed from. *)
Inductive Reason :=
  | NoReason
  | ConsecutiveFailuresReason (n : Z)
  | FailureRateReason (failures len window : Z)
  | StopLossReason (basisPoints : Z).

Record CheckResult := { tripped : bool; reason : Reason }.

Definition notTripped : CheckResult := {| tripped := false; reason := NoReason |}.

(** [constructor] *)
Definition constructor : State :=
  {| consecutiveFailures := 0; recentTrades := []; initialSinkBalance := 0;
     checkCounter := 0 |}.

(** VolumeBoosterBot.init: the one assignment of the baseline. *)
Definition lockInitialSinkBalance (balance : Z) (s : State) : State :=
  {| consecutiveFailures := consecutiveFailures s;
     recentTrades := recentTrades s;
     initialSinkBalance := balance;
     checkCounter := checkCounter s |}.

Definition len {A} (l : list A) : Z := Z.of_nat (length l).

(** [Array.prototype.shift] *)
Definition shift {A} (l : list A) : list A := tail l.

Definition recordTradeResult (cfg : Config) (success : bool) (s : State) : State :=
  if negb (enableCircuitBreaker cfg) then s
  else
    let pushed := recentTrades s ++ [success] in
    let trades :=
      if failureRateWindow cfg <? len pushed then shift pushed else pushed in
    {| consecutiveFailures :=
         if success then 0 else consecutiveFailures s + 1;
       recentTrades := trades;
       initialSinkBalance := initialSinkBalance s;
       checkCounter := checkCounter s |}.

Definition checkConsecutiveFailures (cfg : Config) (s : State) : CheckResult :=
  if maxConsecutiveFailures cfg <=? consecutiveFailures s
  then {| tripped := true;
          reason := ConsecutiveFailuresReason (consecutiveFailures s) |}
  else notTripped.

Definition failureCount (trades : list bool) : Z :=
  len (filter (fun r => negb r = true) trades).

Definition checkFailureRate (cfg : Config) (s : State) : CheckResult :=
  if failureRateWindow cfg <=? len (recentTrades s) then
    let failures := failureCount (recentTrades s) in
    if failureRateAbove cfg failures (len (recentTrades s))
    then {| tripped := true;
            reason := FailureRateReason failures (len (recentTrades s))
                        (failureRateWindow cfg) |}
    else notTripped
  else notTripped.

Definition bumpCounter (s : State) : State :=
  {| consecutiveFailures := consecutiveFailures s;
     recentTrades := recentTrades s;
     initialSinkBalance := initialSinkBalance s;
     checkCounter := checkCounter s + 1 |}.

(** Basis points lost against the baseline; BigInt division truncates. *)
Definition lossBasisPoints (initial current : Z) : Z :=
  Z.quot ((initial - current) * 10000) initial.

(** [getBalance] is the answer the connection gives if it is asked;
    [sinkKeypair] tells whether a sink key pair was passed. *)
Definition checkEmergencyStopLoss (cfg : Config) (getBalance : outcome Z)
    (sinkKeypair : bool) (s : State) : State * outcome CheckResult :=
  let s1 := bumpCounter s in
  if sinkKeypair && (0 <? initialSinkBalance s1)
     && (Z.rem (checkCounter s1) SINK_BALANCE_CHECK_INTERVAL =? 0)
  then
    match getBalance with
    | Thrown => (s1, Thrown)
    | Returned currentBalance =>
        if initialSinkBalance s1 <=? 0 then (s1, Returned notTripped)
        else
          let lossPercent := lossBasisPoints (initialSinkBalance s1) currentBalance in
          if lossAbove cfg lossPercent
          then (s1, Returned {| tripped := true; reason := StopLossReason lossPercent |})
          else (s1, Returned notTripped)
    end
  else (s1, Returned notTripped).

Definition Check : Type := State -> State * outcome CheckResult.

Definition pureCheck (f : State -> CheckResult) : Check :=
  fun s => (s, Returned (f s)).

(** The [for (const check of checks)] loop. *)
Fixpoint runChecks (checks : list Check) (s : State) : State * outcome CheckResult :=
  match checks with
  | [] => (s, Returned notTripped)
  | check :: rest =>
      match check s with
      | (s', Thrown) => (s', Thrown)
      | (s', Returned result) =>
          if tripped result then (s', Returned result) else runChecks rest s'
      end
  end.

Definition checkCircuitBreakers (cfg : Config) (getBalance : outcome Z)
    (sinkKeypair : bool) (s : State) : State * outcome CheckResult :=
  if negb (enableCircuitBreaker cfg) then (s, Returned notTripped)
  else
    runChecks
      [ pureCheck (checkConsecutiveFailures cfg);
        pureCheck (checkFailureRate cfg);
        checkEmergencyStopLoss cfg getBalance sinkKeypair ] s.

(** The three conditions, as the specification words them. *)
Definition consecutiveCondition (cfg : Config) (s : State) : Prop :=
  maxConsecutiveFailures cfg <= consecutiveFailures s.

Definition failureRateCondition (cfg : Config) (s : State) : Prop :=
  failureRateWindow cfg <= len (recentTrades s) /\
  failureRateAbove cfg (failureCount (recentTrades s)) (len (recentTrades s)) = true.

(** The drawdown condition at the check that makes the counter [checkCounter s + 1]. *)
Definition drawdownCondition (cfg : Config) (sinkKeypair : bool)
    (current : Z) (s : State) : Prop :=
  sinkKeypair = true /\ 0 < initialSinkBalance s /\
  Z.rem (checkCounter s + 1) SINK_BALANCE_CHECK_INTERVAL = 0 /\
  lossAbove cfg (lossBasisPoints (initialSinkBalance s) current) = true.

(** Recording a list of outcomes, oldest first. *)
Definition recordAll (cfg : Config) (outcomes : list bool) (s : State) : State :=
  foldl (fun st success => recordTradeResult cfg success st) s outcomes.

(** Whether a check made right after the first [n] outcomes trips. *)
Definition tripsAfter (cfg : Config) (getBalance : outcome Z) (sinkKeypair : bool)
    (outcomes : list bool) (n : nat) : bool :=
  match snd (checkCircuitBreakers cfg getBalance sinkKeypair
               (recordAll cfg (take n outcomes) constructor)) with
  | Returned r => tripped r
  | Thrown => false
  end.

(** The scenario of the specification: a cap of three consecutive
    failures, a window of ten outcomes of which more than half must fail,
    a stop loss of thirty percent; three failures, a success, three failures. *)
Definition scenarioConfig : Config :=
  {| enableCircuitBreaker := true;
     maxConsecutiveFailures := 3;
     failureRateWindow := 10;
     failureRateAbove := fun failures n => n <? 2 * failures;
     emergencyStopLoss := validatePercentage (Number 30) |}.

(** The same breaker with EMERGENCY_STOP_LOSS_PCT set to [pct]. *)
Definition withStopLossPct (pct : number) : Config :=
  {| enableCircuitBreaker := true;
     maxConsecutiveFailures := 3;
     failureRateWindow := 10;
     failureRateAbove := fun failures n => n <? 2 * failures;
     emergencyStopLoss := validatePercentage pct |}.

(** What [parseFloat('2.8')] returns: the double nearest to 2.8, which is
    also the correctly rounded quotient of 28 by 10. *)
Definition twoPointEight : number := numberDiv (Number 28) (Number 10).

Definition scenarioOutcomes : list bool :=
  [false; false; false; true; false; false; false].

(** [n] calls of [checkEmergencyStopLoss] in a row, the connection
    answering [getBalance k] to the call number [k] (from 0). *)
Fixpoint stopLossChecks (cfg : Config) (getBalance : nat -> outcome Z)
    (sinkKeypair : bool) (n : nat) (s : State) : State :=
  match n with
  | O => s
  | S n' =>
      fst (checkEmergencyStopLoss cfg (getBalance n') sinkKeypair
             (stopLossChecks cfg getBalance sinkKeypair n' s))
  end.

End CircuitBreaker.

(** ** Burner wallet manager *)

Module BurnerWalletManager.

(** constants.js: BWC_MODES *)
Inductive BwcMode := ModeDisabled | ModeHybrid | ModeBurnerOnly.

(** The part of ConfigManager the manager reads.  The two ratios are JS
    numbers between 0 and 1 and only occur in [Math.ceil(count * ratio)]:
    [burnerRatioCeil count] is [Math.ceil(count * config.bwcBurnerRatio)],
    [emergencyRatioCeil count] the same with [bwcEmergencyBurnerRatio]. *)
Record Config := {
  bwcEnabled : bool;
  bwcMode : BwcMode;
  bwcBurnerLifetimeTxs : Z;
  enableBurnerSeasoning : bool;
  burnerSeasoningMinTxs : Z;
  burnerRatioCeil : Z -> Z;
  emergencyRatioCeil : Z -> Z
}.

(** A value of [burnerWallets]; the key pair is known by its public key. *)
Record WalletData := { name : string; created : Z }.

(** [this.stats], without [averageLifetime] (a JS number that nothing reads
    but the log) and [activeBurners] (never written). *)
Record Stats := {
  statCreated : Z;
  statDisposed : Z;
  totalTransactions : Z;
  seasonedBurners : Z
}.

(** [burnerWallets] is iterated to build the answer of [getAvailableBurners],
    so it keeps the insertion order of the JS Map.  [disposalTimers] lists
    the public keys for which [setTimeout(disposeBurnerWallet)] was armed. *)
Record State := {
  burnerWallets : list (string * WalletData);
  burnerCooldowns : gmap string Z;
  burnerTradeCount : gmap string Z;
  burnerSeasoningCount : gmap string Z;
  pendingDisposal : gset string;
  disposalTimers : list string;
  stats : Stats
}.

Definition constructor : State :=
  {| burnerWallets := []; burnerCooldowns := ∅; burnerTradeCount := ∅;
     burnerSeasoningCount := ∅; pendingDisposal := ∅; disposalTimers := [];
     stats := {| statCreated := 0; statDisposed := 0; totalTransactions := 0;
                 seasonedBurners := 0 |} |}.

(** JS Map operations on the ordered map. *)
Definition mapHas {V} (pubkey : string) (m : list (string * V)) : bool :=
  bool_decide (pubkey ∈ m.*1).

Fixpoint mapSet {V} (pubkey : string) (v : V) (m : list (string * V)) : list (string * V) :=
  match m with
  | [] => [(pubkey, v)]
  | (k, x) :: rest =>
      if String.eqb k pubkey then (k, v) :: rest else (k, x) :: mapSet pubkey v rest
  end.

Definition mapDelete {V} (pubkey : string) (m : list (string * V)) : list (string * V) :=
  filter (fun kv => kv.1 ≠ pubkey) m.

(** [map.get(pubkey) || 0] *)
Definition getOr0 (m : gmap string Z) (pubkey : string) : Z := default 0 (m !! pubkey).

(** Removal of a public key from the five tracking structures. *)
Definition forget (pubkey : string) (s : State) : State :=
  {| burnerWallets := mapDelete pubkey (burnerWallets s);
     burnerCooldowns := delete pubkey (burnerCooldowns s);
     burnerTradeCount := delete pubkey (burnerTradeCount s);
     burnerSeasoningCount := delete pubkey (burnerSeasoningCount s);
     pendingDisposal := pendingDisposal s ∖ {[pubkey]};
     disposalTimers := disposalTimers s;
     stats := stats s |}.

Definition EXPIRY_TIME : Z := 24 * 60 * 60 * 1000.

Definition capAt (limit : Z) (count : Z) : Z := if limit <? count then limit else count.

Definition cleanupBurners (now : Z) (s : State) : State :=
  (* expired entries *)
  let s1 :=
    foldl (fun st entry =>
             if EXPIRY_TIME <? now - created entry.2 then forget entry.1 st else st)
          s (burnerWallets s) in
  (* old cooldowns, then the caps on both counters *)
  {| burnerWallets := burnerWallets s1;
     burnerCooldowns :=
       filter (fun kv : string * Z => ¬ (3600000 < now - kv.2)) (burnerCooldowns s1);
     burnerTradeCount := capAt 100 <$> burnerTradeCount s1;
     burnerSeasoningCount := capAt 20 <$> burnerSeasoningCount s1;
     pendingDisposal := pendingDisposal s1;
     disposalTimers := disposalTimers s1;
     stats := stats s1 |}.

(** [performMemoryCleanup]: only the two caps change the state. *)
Definition performMemoryCleanup (s : State) : State :=
  {| burnerWallets := burnerWallets s;
     burnerCooldowns := burnerCooldowns s;
     burnerTradeCount := capAt 100 <$> burnerTradeCount s;
     burnerSeasoningCount := capAt 20 <$> burnerSeasoningCount s;
     pendingDisposal := pendingDisposal s;
     disposalTimers := disposalTimers s;
     stats := stats s |}.

(** An element of the array [getAvailableBurners] returns. *)
Record Burner := {
  b_pubkey : string;
  b_data : WalletData;
  b_txCount : Z;
  b_seasoningCount : Z;
  b_isSeasoned : bool
}.

(** The body of the [for ... of this.burnerWallets.entries()] loop.
    [getBurnerCooldown pubkey txCount] is the value the random
    [getBurnerCooldown(txCount)] takes when this wallet is examined. *)
Definition examine (cfg : Config) (getBurnerCooldown : string -> Z -> Z) (now : Z)
    (s : State) (entry : string * WalletData) : option Burner :=
  let pubkey := entry.1 in
  if bool_decide (pubkey ∈ pendingDisposal s) then None
  else
    let lastUsed := getOr0 (burnerCooldowns s) pubkey in
    let txCount := getOr0 (burnerTradeCount s) pubkey in
    let cooldown := getBurnerCooldown pubkey txCount in
    let cooldownPassed := cooldown <=? now - lastUsed in
    let withinLifetime := txCount <? bwcBurnerLifetimeTxs cfg in
    let seasoningCount := getOr0 (burnerSeasoningCount s) pubkey in
    let isSeasoned :=
      negb (enableBurnerSeasoning cfg) || (burnerSeasoningMinTxs cfg <=? seasoningCount) in
    if cooldownPassed && withinLifetime && isSeasoned
    then Some {| b_pubkey := pubkey; b_data := entry.2; b_txCount := txCount;
                 b_seasoningCount := seasoningCount; b_isSeasoned := isSeasoned |}
    else None.

(** [[a[i], a[j]] = [a[j], a[i]]] *)
Definition swap {A} (l : list A) (i j : nat) : list A :=
  match l !! i, l !! j with
  | Some x, Some y => <[i:=y]> (<[j:=x]> l)
  | _, _ => l
  end.

(** The Fisher-Yates loop, [i] running down to 1.  [draw i] stands for
    [Math.floor(Math.random() * (i + 1))], an index from 0 to [i]. *)
Fixpoint shuffleLoop {A} (draw : nat -> nat) (i : nat) (shuffled : list A) : list A :=
  match i with
  | O => shuffled
  | S i' => shuffleLoop draw i' (swap shuffled i (draw i mod (i + 1))%nat)
  end.

(** [shuffleArray] copies its argument and returns the shuffled copy. *)
Definition shuffleArray {A} (draw : nat -> nat) (array : list A) : list A :=
  let shuffled := array in
  shuffleLoop draw (length array - 1)%nat shuffled.

(** [array.slice(0, end)] *)
Definition slice0 {A} (array : list A) (e : Z) : list A :=
  if e <? 0 then take (Z.to_nat (Z.max (Z.of_nat (length array) + e) 0)) array
  else take (Z.to_nat e) array.

Definition getAvailableBurners (cfg : Config) (getBurnerCooldown : string -> Z -> Z)
    (draw : nat -> nat) (now : Z) (count : Z) (emergencyMode : bool) (s : State)
    : State * list Burner :=
  if negb (bwcEnabled cfg) || match bwcMode cfg with ModeDisabled => true | _ => false end
  then (s, [])
  else
    let s1 := cleanupBurners now s in
    let available := omap (examine cfg getBurnerCooldown now s1) (burnerWallets s1) in
    (* this.shuffleArray(available); the copy it returns is dropped *)
    let _ := shuffleArray draw available in
    let targetCount :=
      if emergencyMode then emergencyRatioCeil cfg count else burnerRatioCeil cfg count in
    (s1, slice0 available (Z.min targetCount count)).

Definition setStats (f : Stats -> Stats) (s : State) : State :=
  {| burnerWallets := burnerWallets s;
     burnerCooldowns := burnerCooldowns s;
     burnerTradeCount := burnerTradeCount s;
     burnerSeasoningCount := burnerSeasoningCount s;
     pendingDisposal := pendingDisposal s;
     disposalTimers := disposalTimers s;
     stats := f (stats s) |}.

Definition countSeasoned (cfg : Config) (s : State) : Z :=
  Z.of_nat (length (filter
    (fun entry : string * WalletData =>
       (entry.1 ∉ pendingDisposal s) /\
       (burnerSeasoningMinTxs cfg <= getOr0 (burnerSeasoningCount s) entry.1))
    (burnerWallets s))).

Definition updateSeasonedBurnerCount (cfg : Config) (s : State) : State :=
  setStats (fun st => {| statCreated := statCreated st; statDisposed := statDisposed st;
                         totalTransactions := totalTransactions st;
                         seasonedBurners := countSeasoned cfg s |}) s.

Definition markBurnerSeasoningProgress (cfg : Config) (pubkey : string) (txCount : Z)
    (s : State) : State :=
  if negb (enableBurnerSeasoning cfg) then s
  else
    let currentSeasoning := getOr0 (burnerSeasoningCount s) pubkey in
    let newSeasoningCount := currentSeasoning + txCount in
    updateSeasonedBurnerCount cfg
      {| burnerWallets := burnerWallets s;
         burnerCooldowns := burnerCooldowns s;
         burnerTradeCount := burnerTradeCount s;
         burnerSeasoningCount := <[pubkey := newSeasoningCount]> (burnerSeasoningCount s);
         pendingDisposal := pendingDisposal s;
         disposalTimers := disposalTimers s;
         stats := stats s |}.

Definition scheduleBurnerDisposal (pubkey : string) (s : State) : State :=
  if negb (mapHas pubkey (burnerWallets s)) || bool_decide (pubkey ∈ pendingDisposal s)
  then s
  else
    {| burnerWallets := burnerWallets s;
       burnerCooldowns := burnerCooldowns s;
       burnerTradeCount := burnerTradeCount s;
       burnerSeasoningCount := burnerSeasoningCount s;
       pendingDisposal := pendingDisposal s ∪ {[pubkey]};
       disposalTimers := disposalTimers s ++ [pubkey];
       stats := stats s |}.

Definition markBurnerUsed (cfg : Config) (pubkey : string) (txCount : Z) (now : Z)
    (s : State) : State :=
  if negb (mapHas pubkey (burnerWallets s)) then s
  else
    let currentCount := getOr0 (burnerTradeCount s) pubkey in
    let newCount := currentCount + txCount in
    let s1 :=
      {| burnerWallets := burnerWallets s;
         burnerCooldowns := <[pubkey := now]> (burnerCooldowns s);
         burnerTradeCount := <[pubkey := newCount]> (burnerTradeCount s);
         burnerSeasoningCount := burnerSeasoningCount s;
         pendingDisposal := pendingDisposal s;
         disposalTimers := disposalTimers s;
         stats := {| statCreated := statCreated (stats s);
                     statDisposed := statDisposed (stats s);
                     totalTransactions := totalTransactions (stats s) + txCount;
                     seasonedBurners := seasonedBurners (stats s) |} |} in
    let s2 :=
      if enableBurnerSeasoning cfg then markBurnerSeasoningProgress cfg pubkey txCount s1
      else s1 in
    if bwcBurnerLifetimeTxs cfg <=? newCount then scheduleBurnerDisposal pubkey s2 else s2.

(** [disposeBurnerWallet] after [await this.withdrawBurnerFunds]: the
    removal from the five structures and the statistics.  The withdrawal
    catches its own errors and touches no tracking structure. *)
Definition disposeBurnerWalletEnd (cfg : Config) (pubkey : string) (s : State) : State :=
  let s1 := forget pubkey s in
  updateSeasonedBurnerCount cfg
    (setStats (fun st => {| statCreated := statCreated st;
                            statDisposed := statDisposed st + 1;
                            totalTransactions := totalTransactions st;
                            seasonedBurners := seasonedBurners st |}) s1).

(** [disposeBurnerWallet] when nothing runs during the withdrawal. *)
Definition disposeBurnerWallet (cfg : Config) (pubkey : string) (s : State) : State :=
  if negb (mapHas pubkey (burnerWallets s)) then s
  else disposeBurnerWalletEnd cfg pubkey s.

(** [createBurnerWallet] up to its [await this.fundBurnerWallet]. *)
Definition createBurnerWalletBegin (pubkey : string) (walletData : WalletData)
    (s : State) : State :=
  {| burnerWallets := mapSet pubkey walletData (burnerWallets s);
     burnerCooldowns := <[pubkey := 0]> (burnerCooldowns s);
     burnerTradeCount := <[pubkey := 0]> (burnerTradeCount s);
     burnerSeasoningCount := burnerSeasoningCount s;
     pendingDisposal := pendingDisposal s;
     disposalTimers := disposalTimers s;
     stats := {| statCreated := statCreated (stats s) + 1;
                 statDisposed := statDisposed (stats s);
                 totalTransactions := totalTransactions (stats s);
                 seasonedBurners := seasonedBurners (stats s) |} |}.

(** [createBurnerWallet] after the funding came back: nothing more on
    success, the removal of the new wallet on failure. *)
Definition createBurnerWalletEnd (pubkey : string) (fundingSuccess : bool)
    (s : State) : State :=
  if fundingSuccess then s
  else
    {| burnerWallets := mapDelete pubkey (burnerWallets s);
       burnerCooldowns := delete pubkey (burnerCooldowns s);
       burnerTradeCount := delete pubkey (burnerTradeCount s);
       burnerSeasoningCount := burnerSeasoningCount s;
       pendingDisposal := pendingDisposal s;
       disposalTimers := disposalTimers s;
       stats := {| statCreated := statCreated (stats s) - 1;
                   statDisposed := statDisposed (stats s);
                   totalTransactions := totalTransactions (stats s);
                   seasonedBurners := seasonedBurners (stats s) |} |}.

(** [emergencyDisposeAll] after [await Promise.allSettled]: the five
    [clear()]. *)
Definition emergencyClear (s : State) : State :=
  {| burnerWallets := [];
     burnerCooldowns := ∅;
     burnerTradeCount := ∅;
     burnerSeasoningCount := ∅;
     pendingDisposal := ∅;
     disposalTimers := disposalTimers s;
     stats := stats s |}.

(** [emergencyDisposeAll] when nothing runs during the disposals: every
    tracked burner is disposed of, then the structures are cleared. *)
Definition emergencyDisposeAll (cfg : Config) (s : State) : State :=
  emergencyClear
    (foldl (fun st pubkey => disposeBurnerWallet cfg pubkey st) s (burnerWallets s).*1).

(** The calls the orchestrator, the trading engine and the timers make.
    The methods that await are also present in two parts, so that other
    calls can run in between. *)
Inductive Op :=
  | OpCreateBegin (pubkey : string) (walletData : WalletData)
  | OpCreateEnd (pubkey : string) (fundingSuccess : bool)
  | OpMarkUsed (pubkey : string) (txCount : Z) (now : Z)
  | OpSchedule (pubkey : string)
  | OpDispose (pubkey : string)
  | OpDisposeEnd (pubkey : string)
  | OpMemoryCleanup
  | OpEmergencyDisposeAll
  | OpEmergencyClear
  | OpGetAvailable (getBurnerCooldown : string -> Z -> Z) (draw : nat -> nat)
      (now : Z) (count : Z) (emergencyMode : bool).

Definition exec (cfg : Config) (op : Op) (s : State) : State * list Burner :=
  match op with
  | OpCreateBegin pubkey walletData => (createBurnerWalletBegin pubkey walletData s, [])
  | OpCreateEnd pubkey ok => (createBurnerWalletEnd pubkey ok s, [])
  | OpMarkUsed pubkey txCount now => (markBurnerUsed cfg pubkey txCount now s, [])
  | OpSchedule pubkey => (scheduleBurnerDisposal pubkey s, [])
  | OpDispose pubkey => (disposeBurnerWallet cfg pubkey s, [])
  | OpDisposeEnd pubkey => (disposeBurnerWalletEnd cfg pubkey s, [])
  | OpMemoryCleanup => (performMemoryCleanup s, [])
  | OpEmergencyDisposeAll => (emergencyDisposeAll cfg s, [])
  | OpEmergencyClear => (emergencyClear s, [])
  | OpGetAvailable cooldown draw now count emergencyMode =>
      getAvailableBurners cfg cooldown draw now count emergencyMode s
  end.

(** Runs the calls in order; the second component collects what every
    [getAvailableBurners] among them returned. *)
Fixpoint run (cfg : Config) (ops : list Op) (s : State) : State * list (list Burner) :=
  match ops with
  | [] => (s, [])
  | op :: rest =>
      let '(s1, answer) := exec cfg op s in
      let '(s2, answers) := run cfg rest s1 in
      (s2, match op with OpGetAvailable _ _ _ _ _ => answer :: answers | _ => answers end)
  end.

Definition tracked (pubkey : string) (s : State) : Prop := pubkey ∈ (burnerWallets s).*1.

(** A tracked burner at or past the lifetime cap is pending disposal. *)
Definition capInvariant (cfg : Config) (s : State) : Prop :=
  forall pubkey, tracked pubkey s ->
    bwcBurnerLifetimeTxs cfg <= getOr0 (burnerTradeCount s) pubkey ->
    pubkey ∈ pendingDisposal s.

(** A manager in hybrid mode with a lifetime of five transactions and the
    default ratios 0.3 and 0.7, two burners created one after the other,
    and a query one hundred seconds later: the cooldown drawn is forty
    seconds scaled by the usage, and every draw of the shuffle is 0. *)
Definition hybridConfig : Config :=
  {| bwcEnabled := true;
     bwcMode := ModeHybrid;
     bwcBurnerLifetimeTxs := 5;
     enableBurnerSeasoning := false;
     burnerSeasoningMinTxs := 1;
     burnerRatioCeil := fun count => (count * 3 + 9) / 10;
     emergencyRatioCeil := fun count => (count * 7 + 9) / 10 |}.

Definition twoBurners : State :=
  createBurnerWalletBegin "BurnerB" {| name := "Burner-BurnerB"; created := 2000 |}
    (createBurnerWalletBegin "BurnerA" {| name := "Burner-BurnerA"; created := 1000 |}
       constructor).

Definition fortySeconds : string -> Z -> Z :=
  fun _ txCount => 40000 + 4000 * txCount.

Definition drawZero : nat -> nat := fun _ => 0%nat.

Definition useThenQuery : list Op :=
  [ OpMarkUsed "BurnerA" 3 50000;
    OpMarkUsed "BurnerA" 2 60000;
    OpGetAvailable fortySeconds drawZero 100000 4 false ].

(** For every burner pending disposal the disposal timer was armed. *)
Definition timerInvariant (s : State) : Prop :=
  forall pubkey, pubkey ∈ pendingDisposal s -> pubkey ∈ disposalTimers s.

(** Whether a call creates the burner [pubkey]. *)
Definition creates (pubkey : string) (op : Op) : bool :=
  match op with
  | OpCreateBegin k _ => String.eqb k pubkey
  | _ => false
  end.

(** A public key no query can return: pending disposal, or not tracked. *)
Definition excluded (pubkey : string) (s : State) : Prop :=
  pubkey ∈ pendingDisposal s \/ ~ tracked pubkey s.

End BurnerWalletManager.

(** ** Funding of a burner wallet *)

Module BurnerFunding.

(** constants.js *)
Definition PRIORITY_FEE_MICRO_LAMPORTS : Z := 10000.

(** [Math.floor(PRIORITY_FEE_MICRO_LAMPORTS * 25000 / 1000000)] *)
Definition estimatedFee : Z := (PRIORITY_FEE_MICRO_LAMPORTS * 25000) / 1000000.

(** What the connection answers during one [fundBurnerWallet]:
    [candidateBalances] has one [getBalance] per relayer, in the order of
    [relayerKeypairs]; [firstRelayerBalance] is the second query of the
    first relayer; [confirmation] is the whole inner [try] block
    ([getLatestBlockhash], [getBlockHeight], [confirmTransaction]). *)
Record Connection := {
  candidateBalances : list (outcome Z);
  firstRelayerBalance : outcome Z;
  sendTransaction : outcome string;
  confirmation : outcome unit
}.

(** The [for (const candidate of relayerKeypairs)] loop: index and balance
    of the first relayer that can pay, a failed query being skipped. *)
Fixpoint findRelayer (totalRequired : Z) (index : nat) (balances : list (outcome Z))
    : option (nat * Z) :=
  match balances with
  | [] => None
  | Returned candidateBalance :: rest =>
      if totalRequired <=? candidateBalance then Some (index, candidateBalance)
      else findRelayer totalRequired (S index) rest
  | Thrown :: rest => findRelayer totalRequired (S index) rest
  end.

Record Funding := {
  success : bool;
  (** relayer index and lamports of the transfer handed to [sendTransaction] *)
  submitted : option (nat * Z)
}.

Definition failed : Funding := {| success := false; submitted := None |}.

(** From [const requiredAmount = ...] after the relayer is chosen.  The
    transaction is built with [lamports: fundAmountLamports.toNumber()] and
    the log before the send prints [fundAmountLamports.toNumber()] and
    [relayerBalanceBN.toNumber()]; a throw of either is caught by the outer
    [catch], which returns false. *)
Definition transferFrom (bwcBurnerFundAmount : Z) (conn : Connection)
    (relayer : nat) (relayerBalance : Z) : Funding :=
  let requiredAmount := bwcBurnerFundAmount in
  let totalRequired := requiredAmount + estimatedFee in
  let fundAmountLamports :=
    if relayerBalance <? totalRequired then relayerBalance - estimatedFee
    else requiredAmount in
  if (relayerBalance <? totalRequired) && (fundAmountLamports <=? 0) then failed
  else if toNumberThrows fundAmountLamports || toNumberThrows relayerBalance then failed
  else
    match sendTransaction conn with
    | Thrown => {| success := false; submitted := Some (relayer, fundAmountLamports) |}
    | Returned sig =>
        (* try { await confirmTransaction(...) } catch (confirmError) { log } *)
        match confirmation conn with
        | Returned _ => {| success := true; submitted := Some (relayer, fundAmountLamports) |}
        | Thrown => {| success := true; submitted := Some (relayer, fundAmountLamports) |}
        end
    end.

Definition fundBurnerWallet (bwcBurnerFundAmount : Z) (conn : Connection) : Funding :=
  match candidateBalances conn with
  | [] => failed
  | _ :: _ =>
      let totalRequired := bwcBurnerFundAmount + estimatedFee in
      match findRelayer totalRequired 0%nat (candidateBalances conn) with
      | Some (relayer, relayerBalance) =>
          transferFrom bwcBurnerFundAmount conn relayer relayerBalance
      | None =>
          match firstRelayerBalance conn with
          | Thrown => failed
          | Returned relayerBalance =>
              if relayerBalance <? totalRequired then
                (* the warning prints relayerBalanceBN.toNumber() and
                   totalRequired.toNumber() *)
                if toNumberThrows relayerBalance || toNumberThrows totalRequired
                then failed
                else if relayerBalance <=? 0 then failed
                else if relayerBalance <? 10000000 then failed
                else transferFrom bwcBurnerFundAmount conn 0%nat relayerBalance
              else transferFrom bwcBurnerFundAmount conn 0%nat relayerBalance
          end
      end
  end.

Definition withConfirmation (c : outcome unit) (conn : Connection) : Connection :=
  {| candidateBalances := candidateBalances conn;
     firstRelayerBalance := firstRelayerBalance conn;
     sendTransaction := sendTransaction conn;
     confirmation := c |}.

(** One relayer holding 1 SOL; the transfer is accepted by the node and its
    confirmation times out. *)
Definition timeoutConnection : Connection :=
  {| candidateBalances := [Returned 1000000000];
     firstRelayerBalance := Returned 1000000000;
     sendTransaction := Returned "5sig";
     confirmation := Thrown |}.

End BurnerFunding.

(** ** Wallet manager: funding of one wallet *)

Module WalletManager.

(** constants.js *)
Definition MIN_SOL_BUFFER_LAMPORTS : Z := 5000.

Definition maxRetries : nat := 2.

Record Wallet := {
  pubkey : string;
  name : string;
  (** whether [Keypair.fromSecretKey] accepts the stored private key *)
  privateKeyValid : bool
}.

(** The two sets of the manager that [fundSingleWallet] reads and writes. *)
Record Shared := { funded : gset string; fundingLocks : gset string }.

Definition lockKey (wallet : Wallet) : string := "funding_" +:+ pubkey wallet.

Definition addLock (wallet : Wallet) (sh : Shared) : Shared :=
  {| funded := funded sh; fundingLocks := fundingLocks sh ∪ {[lockKey wallet]} |}.

(** The [finally] block. *)
Definition deleteLock (wallet : Wallet) (sh : Shared) : Shared :=
  {| funded := funded sh; fundingLocks := fundingLocks sh ∖ {[lockKey wallet]} |}.

Definition addFunded (wallet : Wallet) (sh : Shared) : Shared :=
  {| funded := funded sh ∪ {[pubkey wallet]}; fundingLocks := fundingLocks sh |}.

Inductive ConfirmationStatus := Processed | Confirmed | Finalized.

(** [statusResponse.value] of [getSignatureStatus] *)
Record SignatureStatus := {
  confirmationStatus : option ConfirmationStatus;
  errIsNull : bool
}.

Inductive Verification := VerifiedSuccess | VerifiedFailed | VerifiedUnknown.

(** [status] and [currentBalance] are the answers to the two queries
    [verifyTransaction] makes; the second is only read when the first does
    not decide. *)
Definition verifyTransaction (status : outcome (option SignatureStatus))
    (currentBalance : outcome Z) (expectedIncrease priorBalance : Z) : Verification :=
  match status with
  | Thrown => VerifiedUnknown
  | Returned statusResponse =>
      let settled :=
        match statusResponse with
        | Some v =>
            match confirmationStatus v with
            | Some Confirmed | Some Finalized => Some (errIsNull v)
            | _ => None
            end
        | None => None
        end in
      match settled with
      | Some true => VerifiedSuccess
      | Some false => VerifiedFailed
      | None =>
          match currentBalance with
          | Thrown => VerifiedUnknown
          | Returned current =>
              let increase := current - priorBalance in
              let lowerBound := Z.quot (expectedIncrease * 99) 100 in
              let upperBound := Z.quot (expectedIncrease * 101) 100 in
              if (lowerBound <=? increase) && (increase <=? upperBound)
              then VerifiedSuccess else VerifiedUnknown
          end
      end
  end.

(** [factor] is [Math.floor((0.6 + Math.random() * 0.8) * 1000)]. *)
Definition calculateFundingPart (remaining : Z) (remainingParts : Z) (factor : Z) : Z :=
  let basePart := Z.quot (Z.quot (remaining * factor) 1000) remainingParts in
  let partNum := Z.max basePart MIN_SOL_BUFFER_LAMPORTS in
  Z.min partNum remaining.

(** How [confirmTransaction] ended: resolved, rejected with a message that
    contains 'not confirmed', or rejected otherwise. *)
Inductive Confirmation := ConfirmOk | ConfirmNotConfirmed | ConfirmOtherError.

(** What the outside answers when a suspended call is resumed: the awaited
    result, and the random draws the code makes before it suspends again.
    [partsDraw] is [Math.floor(Math.random() * 4)], a number from 0 to 3. *)
Record Response := {
  r_balance : outcome Z;
  r_partsDraw : nat;
  r_factor : Z;
  r_relayer : nat;
  r_send : outcome string;
  r_confirm : Confirmation;
  r_status : outcome (option SignatureStatus);
  r_verifyBalance : outcome Z
}.

(** The local variables of a call once it is inside the tranche loop. *)
Record Frame := {
  f_wallet : Wallet;
  f_balance : Z;
  f_remaining : Z;
  f_parts : nat;
  f_p : nat;
  f_cappedPart : Z;
  f_relayer : nat;
  f_retry : nat
}.

(** A call of [fundSingleWallet] between two suspension points. *)
Inductive Task :=
  | Called (wallet : Wallet)
  | AwaitBalance (wallet : Wallet)
  | AwaitSend (f : Frame)
  | AwaitConfirm (f : Frame) (sig : string)
  | AwaitVerify (f : Frame) (sig : string)
  | AwaitDelay (f : Frame)
  | AwaitBackoff (f : Frame)
  | Settled.

Inductive Basis := ByConfirmation | ByVerification.

Inductive Event :=
  | Sent (recipient : string) (relayer : nat) (lamports : Z)
  | Delivered (recipient : string) (lamports : Z) (basis : Basis)
  | MarkedFunded (recipient : string).

Definition setRetry (retry : nat) (f : Frame) : Frame :=
  {| f_wallet := f_wallet f; f_balance := f_balance f; f_remaining := f_remaining f;
     f_parts := f_parts f; f_p := f_p f; f_cappedPart := f_cappedPart f;
     f_relayer := f_relayer f; f_retry := retry |}.

Definition sendEvent (f : Frame) : Event :=
  Sent (pubkey (f_wallet f)) (f_relayer f) (f_cappedPart f).

(** The head of the tranche loop with [p], [remaining] as in the arguments:
    either the first attempt of the next tranche is sent, or the loop is
    over, the wallet is marked funded and the lock released.  The only
    caller, [fundWalletsInParallel], returns early without relayers, so the
    relayer picked is always defined. *)
Definition loopHead (r : Response) (wallet : Wallet) (balance remaining : Z)
    (parts p : nat) (sh : Shared) : Task * Shared * list Event :=
  if (p <? parts)%nat && (MIN_SOL_BUFFER_LAMPORTS <? remaining) then
    let cappedPart :=
      calculateFundingPart remaining (Z.of_nat (parts - p)) (r_factor r) in
    let f := {| f_wallet := wallet; f_balance := balance; f_remaining := remaining;
                f_parts := parts; f_p := p; f_cappedPart := cappedPart;
                f_relayer := r_relayer r; f_retry := 0 |} in
    (AwaitSend f, sh, [sendEvent f])
  else
    (Settled, deleteLock wallet (addFunded wallet sh), [MarkedFunded (pubkey wallet)]).

(** The end of one turn of the retry loop: [retry++], then its condition. *)
Definition nextRetry (r : Response) (f : Frame) (txSuccess : bool) (sh : Shared)
    : Task * Shared * list Event :=
  let retry := S (f_retry f) in
  if (retry <=? maxRetries)%nat && negb txSuccess then
    (AwaitSend (setRetry retry f), sh, [sendEvent f])
  else
    loopHead r (f_wallet f) (f_balance f) (f_remaining f) (f_parts f) (S (f_p f)) sh.

(** [catch (txError)] and the branch of a failed verification: back off
    when a retry is left. *)
Definition backoffOrNext (r : Response) (f : Frame) (sh : Shared)
    : Task * Shared * list Event :=
  if (f_retry f <? maxRetries)%nat then (AwaitBackoff f, sh, [])
  else nextRetry r f false sh.

(** [txSuccess = true], then [remaining = remaining.sub(cappedPart)]. *)
Definition delivered (f : Frame) (basis : Basis) (sh : Shared)
    : Task * Shared * list Event :=
  (AwaitDelay
     {| f_wallet := f_wallet f; f_balance := f_balance f;
        f_remaining := f_remaining f - f_cappedPart f;
        f_parts := f_parts f; f_p := f_p f; f_cappedPart := f_cappedPart f;
        f_relayer := f_relayer f; f_retry := f_retry f |},
   sh, [Delivered (pubkey (f_wallet f)) (f_cappedPart f) basis]).

(** One run of the call from a suspension point to the next (or to its
    return), [fundAmount] being [config.fundAmount] in lamports. *)
Definition resume (fundAmount : Z) (r : Response) (task : Task) (sh : Shared)
    : Task * Shared * list Event :=
  match task with
  | Called wallet =>
      if bool_decide (pubkey wallet ∈ funded sh)
         || bool_decide (lockKey wallet ∈ fundingLocks sh)
      then (Settled, sh, [])
      else
        let sh1 := addLock wallet sh in
        if privateKeyValid wallet then (AwaitBalance wallet, sh1, [])
        else (Settled, deleteLock wallet sh1, [])
  | AwaitBalance wallet =>
      match r_balance r with
      | Thrown => (Settled, deleteLock wallet sh, [])
      | Returned balance =>
          let threshold := Z.quot (fundAmount * 8) 10 in
          if threshold <=? balance then
            (Settled, deleteLock wallet (addFunded wallet sh),
             [MarkedFunded (pubkey wallet)])
          else
            let remaining := fundAmount - balance in
            let parts := (r_partsDraw r mod 4 + 1)%nat in
            loopHead r wallet balance remaining parts 0%nat sh
      end
  | AwaitSend f =>
      match r_send r with
      | Thrown => backoffOrNext r f sh
      | Returned sig => (AwaitConfirm f sig, sh, [])
      end
  | AwaitConfirm f sig =>
      match r_confirm r with
      | ConfirmOk => delivered f ByConfirmation sh
      | ConfirmNotConfirmed => (AwaitVerify f sig, sh, [])
      | ConfirmOtherError => backoffOrNext r f sh
      end
  | AwaitVerify f sig =>
      let priorBalance := f_balance f + fundAmount - f_remaining f in
      match verifyTransaction (r_status r) (r_verifyBalance r)
              (f_cappedPart f) priorBalance with
      | VerifiedSuccess => delivered f ByVerification sh
      | VerifiedFailed => backoffOrNext r f sh
      | VerifiedUnknown => backoffOrNext r f sh
      end
  | AwaitDelay f => nextRetry r f true sh
  | AwaitBackoff f => nextRetry r f false sh
  | Settled => (Settled, sh, [])
  end.

(** The wallet a pending call works for. *)
Definition walletOf (task : Task) : option Wallet :=
  match task with
  | Called w | AwaitBalance w => Some w
  | AwaitSend f | AwaitConfirm f _ | AwaitVerify f _ | AwaitDelay f | AwaitBackoff f =>
      Some (f_wallet f)
  | Settled => None
  end.

(** A call is in flight from the moment it took the lock to its return. *)
Definition inFlight (task : Task) : option Wallet :=
  match task with
  | Called _ | Settled => None
  | _ => walletOf task
  end.

(** One call run alone: resumed [fuel] times with the answers [answers]. *)
Fixpoint drive (fundAmount : Z) (answers : nat -> Response) (fuel : nat)
    (task : Task) (sh : Shared) : Task * Shared * list Event :=
  match fuel with
  | O => (task, sh, [])
  | S fuel' =>
      let '(task1, sh1, evs1) := resume fundAmount (answers O) task sh in
      let '(task2, sh2, evs2) :=
        drive fundAmount (fun n => answers (S n)) fuel' task1 sh1 in
      (task2, sh2, evs1 ++ evs2)
  end.

(** Calls running concurrently on one event loop: the calls, the sets they
    share and the events so far, each with the index of the call it is from. *)
Record System := {
  tasks : list Task;
  shared : Shared;
  events : list (nat * Event)
}.

(** The event loop resumes call [i] with the answer [r]. *)
Definition schedule (fundAmount : Z) (i : nat) (r : Response) (sys : System) : System :=
  match tasks sys !! i with
  | None => sys
  | Some task =>
      let '(task', sh', evs) := resume fundAmount r task (shared sys) in
      {| tasks := <[i := task']> (tasks sys);
         shared := sh';
         events := events sys ++ map (pair i) evs |}
  end.

Definition runSchedule (fundAmount : Z) (steps : list (nat * Response)) (sys : System)
    : System :=
  foldl (fun st step => schedule fundAmount step.1 step.2 st) sys steps.

(** [batch.map(wallet => this.fundSingleWallet(wallet))] on a manager whose
    funded set is [alreadyFunded] and which holds no lock. *)
Definition initial (alreadyFunded : gset string) (batch : list Wallet) : System :=
  {| tasks := map Called batch;
     shared := {| funded := alreadyFunded; fundingLocks := ∅ |};
     events := [] |}.

(** Upper bound on the suspensions left in a call. *)
Definition frameWeight (f : Frame) (phase : nat) : nat :=
  ((f_parts f - f_p f) * 20 + (3 - f_retry f) * 5 + phase)%nat.

Definition weight (task : Task) : nat :=
  match task with
  | Called _ => 102
  | AwaitBalance _ => 101
  | AwaitSend f => frameWeight f 4
  | AwaitConfirm f _ => frameWeight f 3
  | AwaitVerify f _ => frameWeight f 2
  | AwaitDelay f => frameWeight f 1
  | AwaitBackoff f => frameWeight f 1
  | Settled => 0
  end.

(** Two calls for one wallet, as in a batch that lists it twice. *)
Definition walletA : Wallet :=
  {| pubkey := "WalletA"; name := "Wallet1"; privateKeyValid := true |}.

Definition quietResponse : Response :=
  {| r_balance := Returned 0;
     r_partsDraw := 0;
     r_factor := 1000;
     r_relayer := 0;
     r_send := Returned "5sig";
     r_confirm := ConfirmOk;
     r_status := Returned None;
     r_verifyBalance := Returned 0 |}.

(** A wallet holding 0.01 SOL, one tranche of the whole deficit, and a
    node that accepts every transfer while no confirmation arrives in time:
    the status is not known and the balance read is the old one. *)
Definition timeoutResponse : Response :=
  {| r_balance := Returned 10000000;
     r_partsDraw := 0;
     r_factor := 1000;
     r_relayer := 0;
     r_send := Returned "5sig";
     r_confirm := ConfirmNotConfirmed;
     r_status := Returned None;
     r_verifyBalance := Returned 10000000 |}.

(** What holds of calls that share a manager: a call in flight holds the
    lock of its wallet, and two calls in flight are for different wallets. *)
Definition lockDiscipline (sys : System) : Prop :=
  (forall i t w, tasks sys !! i = Some t -> inFlight t = Some w ->
     lockKey w ∈ fundingLocks (shared sys)) /\
  (forall i j ti tj wi wj,
     tasks sys !! i = Some ti -> tasks sys !! j = Some tj ->
     inFlight ti = Some wi -> inFlight tj = Some wj ->
     pubkey wi = pubkey wj -> i = j).

(** No entry of [fundingLocks] is stale: each is the key of a call that is
    in flight. *)
Definition locksOwned (sys : System) : Prop :=
  forall key, key ∈ fundingLocks (shared sys) ->
    exists i t w, tasks sys !! i = Some t /\ inFlight t = Some w /\ lockKey w = key.

End WalletManager.

(** ** Wallet rebalancer *)

Module WalletRebalancer.

(** The constructor stores the three thresholds in lamports. *)
Record Config := {
  enableRebalancing : bool;
  relayerCount : nat;
  sinkKeypair : bool;
  minWalletBalanceLamports : Z;
  targetWalletBalanceLamports : Z;
  dustThresholdLamports : Z
}.

(** [walletBalances] is an array of objects [{ wallet, balance }] that the
    two filtered arrays share; an object is named by its index in
    [walletBalances], and [balances] holds the [balance] fields. *)
Definition balanceOf (balances : list Z) (i : nat) : Z := default 0 (balances !! i).

Definition pubkeyOf (wallets : list string) (i : nat) : string := default "" (wallets !! i).

(** [Array.prototype.sort] is stable; [before a b] says the comparator puts
    [a] no later than [b]. *)
Fixpoint insertSorted {A} (before : A -> A -> bool) (x : A) (l : list A) : list A :=
  match l with
  | [] => [x]
  | y :: rest => if before x y then x :: y :: rest else y :: insertSorted before x rest
  end.

Fixpoint stableSort {A} (before : A -> A -> bool) (l : list A) : list A :=
  match l with
  | [] => []
  | x :: rest => insertSorted before x (stableSort before rest)
  end.

(** [targetWalletBalanceLamports.mul(new BN('3')).div(new BN('2'))] *)
Definition surplusLine (cfg : Config) : Z := Z.quot (targetWalletBalanceLamports cfg * 3) 2.

(** [targetWalletBalanceLamports.mul(new BN('11')).div(new BN('10'))] *)
Definition consolidationLine (cfg : Config) : Z :=
  Z.quot (targetWalletBalanceLamports cfg * 11) 10.

Definition needsFundingOf (cfg : Config) (balances : list Z) : list nat :=
  stableSort (fun a b => balanceOf balances a <=? balanceOf balances b)
    (filter (fun i => balanceOf balances i < minWalletBalanceLamports cfg)
       (seq 0 (length balances))).

Definition hasSurplusOf (cfg : Config) (balances : list Z) : list nat :=
  stableSort (fun a b => balanceOf balances b <=? balanceOf balances a)
    (filter (fun i => surplusLine cfg < balanceOf balances i)
       (seq 0 (length balances))).

(** One pairing of the P2P loop, with the balances it found.  [p_sent] is
    the amount of the transfer handed to [sendTransaction], if one was;
    [p_confirmed] tells whether it went through; the two indices are
    [surplusIndex] before and after. *)
Record Pairing := {
  p_needy : nat;
  p_donor : nat;
  p_needyBalance : Z;
  p_donorBalance : Z;
  p_sent : option Z;
  p_confirmed : bool;
  p_indexBefore : nat;
  p_indexAfter : nat;
  p_donorBalanceAfter : Z
}.

Record LoopState := {
  balances : list Z;
  surplusIndex : nat;
  pairings : list Pairing
}.

Definition addTo (i : nat) (delta : Z) (bs : list Z) : list Z :=
  <[i := balanceOf bs i + delta]> bs.

(** The body of [for (const needy of needsFunding)].  [p2pSucceeds d n] tells
    whether sending from [d] to [n] and confirming it goes through. *)
Definition pairStep (cfg : Config) (wallets : list string) (hasSurplus : list nat)
    (p2pSucceeds : nat -> nat -> bool) (st : LoopState) (needy : nat) : LoopState :=
  match hasSurplus !! surplusIndex st with
  | None => st                                              (* break *)
  | Some surplusProvider =>
      let neededAmount := targetWalletBalanceLamports cfg - balanceOf (balances st) needy in
      if String.eqb (pubkeyOf wallets surplusProvider) (pubkeyOf wallets needy)
      then st                                               (* continue *)
      else
        let availableSurplus :=
          balanceOf (balances st) surplusProvider - targetWalletBalanceLamports cfg in
        let attempted := neededAmount <? availableSurplus in
        let confirmed := attempted && p2pSucceeds surplusProvider needy in
        let balances1 :=
          if confirmed
          then addTo needy neededAmount
                 (addTo surplusProvider (- neededAmount) (balances st))
          else balances st in
        let advance :=
          balanceOf balances1 surplusProvider - targetWalletBalanceLamports cfg
            <? dustThresholdLamports cfg in
        let index1 := if advance then S (surplusIndex st) else surplusIndex st in
        {| balances := balances1;
           surplusIndex := index1;
           pairings := pairings st ++
             [{| p_needy := needy; p_donor := surplusProvider;
                 p_needyBalance := balanceOf (balances st) needy;
                 p_donorBalance := balanceOf (balances st) surplusProvider;
                 p_sent := if attempted then Some neededAmount else None;
                 p_confirmed := confirmed;
                 p_indexBefore := surplusIndex st;
                 p_indexAfter := index1;
                 p_donorBalanceAfter := balanceOf balances1 surplusProvider |}] |}
  end.

(** A transfer to the sink that [consolidateSurplusToSink] submits. *)
Record Consolidation := {
  c_wallet : nat;
  c_balance : Z;
  c_percent : Z;
  c_amount : Z;
  c_confirmed : bool
}.

(** The body of the loop of [consolidateSurplusToSink] for one wallet.
    [percent i] is [Math.floor(randomPct * 100)] for it, where
    [randomPct = 0.90 + Math.random() * 0.08]. *)
Definition consolidateOne (cfg : Config) (percent : nat -> Z) (sinkSucceeds : nat -> bool)
    (balances : list Z) (i : nat) : option Consolidation :=
  let balance := balanceOf balances i in
  let surplus := balance - targetWalletBalanceLamports cfg in
  if dustThresholdLamports cfg <? surplus then
    let transferAmount := Z.quot (surplus * percent i) 100 in
    if transferAmount <? dustThresholdLamports cfg then None
    else Some {| c_wallet := i; c_balance := balance; c_percent := percent i;
                 c_amount := transferAmount; c_confirmed := sinkSucceeds i |}
  else None.

Definition consolidateSurplusToSink (cfg : Config) (percent : nat -> Z)
    (sinkSucceeds : nat -> bool) (balances : list Z) (surplusWallets : list nat)
    : list Consolidation :=
  omap (consolidateOne cfg percent sinkSucceeds balances) surplusWallets.

Inductive Result :=
  | Skipped
  | Rejected
  | Completed (pairings : list Pairing) (consolidations : list Consolidation)
      (finalBalances : list Z).

(** The [for (const wallet of walletsToCheck)] loop over the answers to the
    balance queries: the balances, unless a query throws. *)
Fixpoint snapshot (answers : list (outcome Z)) : option (list Z) :=
  match answers with
  | [] => Some []
  | Thrown :: _ => None
  | Returned b :: rest =>
      match snapshot rest with
      | Some bs => Some (b :: bs)
      | None => None
      end
  end.

Definition p2pLoop (cfg : Config) (wallets : list string) (snapshotBalances : list Z)
    (p2pSucceeds : nat -> nat -> bool) : LoopState :=
  let needsFunding := needsFundingOf cfg snapshotBalances in
  let hasSurplus := hasSurplusOf cfg snapshotBalances in
  let start := {| balances := snapshotBalances; surplusIndex := 0; pairings := [] |} in
  if (0 <? length needsFunding)%nat && (0 <? length hasSurplus)%nat
  then foldl (pairStep cfg wallets hasSurplus p2pSucceeds) start needsFunding
  else start.

Definition remainingSurplusOf (cfg : Config) (snapshotBalances finalBalances : list Z)
    : list nat :=
  filter (fun i => consolidationLine cfg < balanceOf finalBalances i)
    (hasSurplusOf cfg snapshotBalances).

(** [totalBalance] as the loop over [walletsToCheck] accumulates it. *)
Definition totalBalanceOf (snapshotBalances : list Z) : Z :=
  foldl Z.add 0 snapshotBalances.

(** [totalBalance.div(new BN(walletsToCheck.length.toString()))]; the
    average is only logged, through [avgBalance.toNumber()]. *)
Definition avgBalanceOf (snapshotBalances : list Z) : Z :=
  Z.quot (totalBalanceOf snapshotBalances) (Z.of_nat (length snapshotBalances)).

(** [activeWallets] are the public keys of the active batch and
    [getBalance i] the answer to the balance query made for the wallet at
    index [i].  The call rejects when a balance query does, and when the
    log of the average balance throws, which no [try] surrounds. *)
Definition rebalanceWallets (cfg : Config) (activeWallets : list string)
    (getBalance : nat -> outcome Z) (p2pSucceeds : nat -> nat -> bool)
    (percent : nat -> Z) (sinkSucceeds : nat -> bool) : Result :=
  if negb (enableRebalancing cfg) || (relayerCount cfg =? 0)%nat then Skipped
  else if (length activeWallets <? 2)%nat then Skipped
  else
    match snapshot (map getBalance (seq 0 (length activeWallets))) with
    | None => Rejected
    | Some snapshotBalances =>
        if toNumberThrows (avgBalanceOf snapshotBalances) then Rejected
        else
          let st := p2pLoop cfg activeWallets snapshotBalances p2pSucceeds in
          let remainingSurplus :=
            remainingSurplusOf cfg snapshotBalances (balances st) in
          let consolidations :=
            if negb (length remainingSurplus =? 0)%nat && sinkKeypair cfg
            then consolidateSurplusToSink cfg percent sinkSucceeds (balances st)
                   remainingSurplus
            else [] in
          Completed (pairings st) consolidations (balances st)
    end.

(** What holds of a pairing the P2P loop made. *)
Definition pairingSound (cfg : Config) (wallets : list string) (hasSurplus : list nat)
    (p : Pairing) : Prop :=
  let target := targetWalletBalanceLamports cfg in
  hasSurplus !! p_indexBefore p = Some (p_donor p) /\
  pubkeyOf wallets (p_donor p) <> pubkeyOf wallets (p_needy p) /\
  match p_sent p with
  | Some amount =>
      amount = target - p_needyBalance p /\
      amount < p_donorBalance p - target /\
      amount = Z.min (target - p_needyBalance p) (p_donorBalance p - target)
  | None =>
      p_donorBalance p - target <= target - p_needyBalance p /\ p_confirmed p = false
  end /\
  p_donorBalanceAfter p =
    (if p_confirmed p then p_donorBalance p - (target - p_needyBalance p)
     else p_donorBalance p) /\
  p_indexAfter p =
    (if p_donorBalanceAfter p - target <? dustThresholdLamports cfg
     then S (p_indexBefore p) else p_indexBefore p).

(** A target of 0.05 SOL, a floor of 0.02 SOL and a dust threshold of
    0.001 SOL, with a sink. *)
Definition bandConfig : Config :=
  {| enableRebalancing := true;
     relayerCount := 1;
     sinkKeypair := true;
     minWalletBalanceLamports := 20000000;
     targetWalletBalanceLamports := 50000000;
     dustThresholdLamports := 1000000 |}.

Definition twoWallets : list string := ["WalletA"; "WalletB"].

Definition balancesOf (values : list Z) : nat -> outcome Z :=
  fun i => Returned (balanceOf values i).

End WalletRebalancer.

(** ** Measures used to state what the components keep *)

Module Measures.

(** The failures at the head of a list of outcomes. *)
Fixpoint leadingFailures (outcomes : list bool) : Z :=
  match outcomes with
  | false :: rest => 1 + leadingFailures rest
  | _ => 0
  end.

(** The failures recorded since the last success (or since the start). *)
Definition trailingFailures (outcomes : list bool) : Z :=
  leadingFailures (reverse outcomes).

(** The lamports of the tranches counted as delivered in a list of events. *)
Fixpoint deliveredTotal (evs : list WalletManager.Event) : Z :=
  match evs with
  | [] => 0
  | WalletManager.Delivered _ lamports _ :: rest => lamports + deliveredTotal rest
  | _ :: rest => deliveredTotal rest
  end.

(** The lamports of the transfers handed to [sendTransaction]. *)
Fixpoint sentTotal (evs : list WalletManager.Event) : Z :=
  match evs with
  | [] => 0
  | WalletManager.Sent _ _ lamports :: rest => lamports + sentTotal rest
  | _ :: rest => sentTotal rest
  end.

(** The number of transfers handed to [sendTransaction]. *)
Fixpoint sentCount (evs : list WalletManager.Event) : nat :=
  match evs with
  | [] => 0
  | WalletManager.Sent _ _ _ :: rest => S (sentCount rest)
  | _ :: rest => sentCount rest
  end.

(** The transfers a call inside the tranche loop may still submit: the
    retries left for the tranche in hand, and three attempts for each
    tranche after it. *)
Definition sendsLeft (task : WalletManager.Task) : nat :=
  match task with
  | WalletManager.AwaitSend f | WalletManager.AwaitConfirm f _
  | WalletManager.AwaitVerify f _ | WalletManager.AwaitBackoff f =>
      (WalletManager.maxRetries - WalletManager.f_retry f)
      + 3 * (WalletManager.f_parts f - S (WalletManager.f_p f))
  | WalletManager.AwaitDelay f =>
      3 * (WalletManager.f_parts f - S (WalletManager.f_p f))
  | _ => 0
  end.

(** The wallet of a call that is inside the tranche loop. *)
Definition inLoop (task : WalletManager.Task) : option WalletManager.Wallet :=
  match task with
  | WalletManager.AwaitBalance _ => None
  | _ => WalletManager.inFlight task
  end.

(** The deficit a call inside the tranche loop still has to deliver. *)
Definition outstanding (task : WalletManager.Task) : Z :=
  match task with
  | WalletManager.AwaitSend f | WalletManager.AwaitConfirm f _
  | WalletManager.AwaitVerify f _ | WalletManager.AwaitDelay f
  | WalletManager.AwaitBackoff f => WalletManager.f_remaining f
  | _ => 0
  end.

(** Between the choice of a tranche and its delivery the tranche is at
    least the minimum transfer and at most the deficit; after the
    delivery the deficit is not negative. *)
Definition trancheInBounds (task : WalletManager.Task) : Prop :=
  match task with
  | WalletManager.AwaitSend f | WalletManager.AwaitConfirm f _
  | WalletManager.AwaitVerify f _ | WalletManager.AwaitBackoff f =>
      WalletManager.MIN_SOL_BUFFER_LAMPORTS <= WalletManager.f_cappedPart f
      /\ WalletManager.f_cappedPart f <= WalletManager.f_remaining f
  | WalletManager.AwaitDelay f => 0 <= WalletManager.f_remaining f
  | _ => True
  end.

(** An event of a call that funds [wallet], whose deficit when the loop
    began was [deficit]. *)
Definition trancheEvent (wallet : WalletManager.Wallet) (deficit : Z)
    (ev : WalletManager.Event) : Prop :=
  match ev with
  | WalletManager.Sent recipient _ lamports
  | WalletManager.Delivered recipient lamports _ =>
      recipient = WalletManager.pubkey wallet /\
      WalletManager.MIN_SOL_BUFFER_LAMPORTS <= lamports <= deficit
  | WalletManager.MarkedFunded recipient => recipient = WalletManager.pubkey wallet
  end.

(** A run of a call inside the loop stays inside [budget]: what it counts
    as delivered plus what it still has to deliver. *)
Definition withinBudget (wallet : WalletManager.Wallet) (deficit budget : Z)
    (res : WalletManager.Task * WalletManager.Shared * list WalletManager.Event) : Prop :=
  (res.1.1 = WalletManager.Settled \/
   (inLoop res.1.1 = Some wallet /\ trancheInBounds res.1.1 /\
    outstanding res.1.1 <= deficit)) /\
  deliveredTotal res.2 + outstanding res.1.1 <= budget /\
  Forall (trancheEvent wallet deficit) res.2.

(** The sum of a list of balances. *)
Definition total (balances : list Z) : Z := foldr Z.add 0 balances.

(** What the P2P pairings may have done to the balances read at the
    start: the sum is kept; a wallet below the minimum is as it was or
    exactly at the target; a wallet between the minimum and the surplus
    line is as it was; a wallet above the surplus line has given, and is
    still above the target. *)
Definition movedTowardsTarget (cfg : WalletRebalancer.Config)
    (snapshotBalances balances : list Z) : Prop :=
  length balances = length snapshotBalances /\
  total balances = total snapshotBalances /\
  forall i,
    let before := WalletRebalancer.balanceOf snapshotBalances i in
    let after := WalletRebalancer.balanceOf balances i in
    (before < WalletRebalancer.minWalletBalanceLamports cfg ->
     after = before \/ after = WalletRebalancer.targetWalletBalanceLamports cfg) /\
    (WalletRebalancer.minWalletBalanceLamports cfg <= before
       <= WalletRebalancer.surplusLine cfg -> after = before) /\
    (WalletRebalancer.surplusLine cfg < before ->
     WalletRebalancer.targetWalletBalanceLamports cfg < after <= before).

End Measures.

(** ** Wallet manager: selection of the active batch *)

Module Selection.

(** constants.js *)
Definition MAX_COOLDOWN_AGE_MS : Z := 24 * 60 * 60 * 1000.

Record Config := {
  enableSeasoning : bool;
  shuffleWallets : bool;
  batchSize : Z
}.

(** An entry of [walletData]. *)
Record WalletRecord := {
  pubkey : string;
  name : string;
  isSeasoned : bool;
  (** whether [Keypair.fromSecretKey] accepts the stored private key *)
  privateKeyValid : bool
}.

(** An entry of [activeWallets]; the key pair is known by its public key. *)
Record ActiveWallet := { a_name : string; a_pubkey : string }.

Record State := {
  walletData : list WalletRecord;
  walletCooldowns : gmap string Z;
  walletTradeCount : gmap string Z;
  activeWallets : list ActiveWallet
}.

Definition getOr0 (m : gmap string Z) (key : string) : Z := default 0 (m !! key).

Definition capAt (limit : Z) (count : Z) : Z := if limit <? count then limit else count.

Definition deleteAll (keys : list string) (m : gmap string Z) : gmap string Z :=
  foldl (fun acc key => delete key acc) m keys.

(** [countCleanup] is [Math.random() < WALLET_CLEANUP_CHANCE] and
    [deepCleanup] is [Math.random() < 0.001]. *)
Definition cleanupOldCooldowns (countCleanup deepCleanup : bool) (now : Z) (s : State)
    : State :=
  let entriesToDelete :=
    (filter (fun kv : string * Z => MAX_COOLDOWN_AGE_MS < now - kv.2)
       (map_to_list (walletCooldowns s))).*1 in
  let cooldowns1 := deleteAll entriesToDelete (walletCooldowns s) in
  let counts1 :=
    if countCleanup then capAt 1000 <$> walletTradeCount s else walletTradeCount s in
  let inactiveThreshold := 7 * 24 * 60 * 60 * 1000 in
  let inactiveWallets :=
    (filter (fun kv : string * Z => inactiveThreshold < now - kv.2)
       (map_to_list cooldowns1)).*1 in
  if deepCleanup && (100 <? length inactiveWallets)%nat then
    {| walletData := walletData s;
       walletCooldowns := deleteAll inactiveWallets cooldowns1;
       walletTradeCount := deleteAll inactiveWallets counts1;
       activeWallets := activeWallets s |}
  else
    {| walletData := walletData s;
       walletCooldowns := cooldowns1;
       walletTradeCount := counts1;
       activeWallets := activeWallets s |}.

(** The test of the [filter] in [loadActiveBatch], [cooldown] being what
    [getWalletCooldown(w.pubkey)] returned for this wallet. *)
Definition isReady (cfg : Config) (cooldown : Z) (now : Z) (s : State) (w : WalletRecord)
    : bool :=
  let lastTrade := getOr0 (walletCooldowns s) (pubkey w) in
  let cooldownPassed := cooldown <=? now - lastTrade in
  let seasoned := negb (enableSeasoning cfg) || isSeasoned w in
  cooldownPassed && seasoned.

(** [this.walletData.filter(w => ...)], from the wallet at [index] on.
    [getWalletCooldown] draws a random cooldown at every call:
    [getWalletCooldown i tradeCount] is what the call made for the wallet at
    index [i] of [walletData] returns when its trade count is [tradeCount]. *)
Fixpoint readyFrom (cfg : Config) (getWalletCooldown : nat -> Z -> Z) (now : Z) (s : State)
    (index : nat) (wallets : list WalletRecord) : list WalletRecord :=
  match wallets with
  | [] => []
  | w :: rest =>
      let cooldown := getWalletCooldown index (getOr0 (walletTradeCount s) (pubkey w)) in
      if isReady cfg cooldown now s w
      then w :: readyFrom cfg getWalletCooldown now s (S index) rest
      else readyFrom cfg getWalletCooldown now s (S index) rest
  end.

(** [w.name || w.pubkey.slice(0, 6)] *)
Definition toActive (w : WalletRecord) : ActiveWallet :=
  {| a_name := if String.eqb (name w) "" then String.substring 0 6 (pubkey w) else name w;
     a_pubkey := pubkey w |}.

(** [loadActiveBatch].  [shuffleArray] of the wallet manager is that of the
    burner manager, line for line. *)
Definition loadActiveBatch (cfg : Config) (getWalletCooldown : nat -> Z -> Z)
    (draw : nat -> nat) (countCleanup deepCleanup : bool) (now : Z) (s : State)
    : State * outcome (list ActiveWallet) :=
  let s1 := cleanupOldCooldowns countCleanup deepCleanup now s in
  let ready := readyFrom cfg getWalletCooldown now s1 0 (walletData s1) in
  match ready with
  | [] => (s1, Returned [])
  | _ :: _ =>
      let shuffled :=
        if shuffleWallets cfg then BurnerWalletManager.shuffleArray draw ready
        else ready in
      let selected := BurnerWalletManager.slice0 shuffled (batchSize cfg) in
      if forallb privateKeyValid selected then
        let batch := map toActive selected in
        ({| walletData := walletData s1;
            walletCooldowns := walletCooldowns s1;
            walletTradeCount := walletTradeCount s1;
            activeWallets := batch |}, Returned batch)
      else (s1, Thrown)
  end.

Definition markWalletUsed (wallet : ActiveWallet) (now : Z) (s : State) : State :=
  let walletKey := a_pubkey wallet in
  {| walletData := walletData s;
     walletCooldowns := <[walletKey := now]> (walletCooldowns s);
     walletTradeCount :=
       <[walletKey := getOr0 (walletTradeCount s) walletKey + 1]> (walletTradeCount s);
     activeWallets := activeWallets s |}.

(** A roster of three wallets, the second unseasoned. *)
Definition roster : State :=
  {| walletData :=
       [ {| pubkey := "WalletA"; name := "Wallet1"; isSeasoned := true;
            privateKeyValid := true |};
         {| pubkey := "WalletB"; name := ""; isSeasoned := false;
            privateKeyValid := true |};
         {| pubkey := "WalletC"; name := "Wallet3"; isSeasoned := true;
            privateKeyValid := true |} ];
     walletCooldowns := ∅;
     walletTradeCount := ∅;
     activeWallets := [] |}.

Definition seasonedBatches : Config :=
  {| enableSeasoning := true; shuffleWallets := true; batchSize := 2 |}.

Definition fiveMinutes : nat -> Z -> Z := fun _ _ => 300000.

End Selection.

(** ** Wallet manager: relayer top-ups and funding batches *)

Module RelayerFunding.

Record TopUp := { t_relayer : nat; t_amount : Z; t_confirmed : bool }.

Definition minRelayerBalance : Z := 25000000.
Definition targetRelayerBalance : Z := 50000000.

(** The [for (const relayer of this.relayerKeypairs)] loop; [index] is the
    position of the first relayer of [balances].  [sendSucceeds i] tells
    whether sending to relayer [i] and confirming it goes through. *)
Fixpoint topUpLoop (masterBalance : Z) (sendSucceeds : nat -> bool) (index : nat)
    (balances : list (outcome Z)) : list TopUp :=
  match balances with
  | [] => []
  | Thrown :: rest => topUpLoop masterBalance sendSucceeds (S index) rest
  | Returned currentBalance :: rest =>
      if currentBalance <? minRelayerBalance then
        let fundingNeeded := targetRelayerBalance - currentBalance in
        let availableBalance := masterBalance - 10000000 in
        if fundingNeeded <=? availableBalance then
          {| t_relayer := index; t_amount := fundingNeeded;
             t_confirmed := sendSucceeds index |}
            :: topUpLoop masterBalance sendSucceeds (S index) rest
        else topUpLoop masterBalance sendSucceeds (S index) rest
      else topUpLoop masterBalance sendSucceeds (S index) rest
  end.

(** [fundRelayerWallets]: [masterKeypair] tells whether a master key is
    configured, [masterBalance] and [relayerBalances] are the answers to the
    balance queries, one per relayer. *)
Definition fundRelayerWallets (masterKeypair : bool) (masterBalance : outcome Z)
    (relayerBalances : list (outcome Z)) (sendSucceeds : nat -> bool)
    : outcome (list TopUp) :=
  if negb masterKeypair then Returned []
  else if (length relayerBalances =? 0)%nat then Returned []
  else
    match masterBalance with
    | Thrown => Thrown
    | Returned balance =>
        if balance <? 50000000 then Returned []
        else Returned (topUpLoop balance sendSucceeds 0 relayerBalances)
    end.

(** The loop [for (let i = 0; i < toCheck.length; i += fundBatchSize)] of
    [fundWalletsInParallel], with [toCheck.slice(i, i + fundBatchSize)];
    [turns] bounds the number of turns. *)
Fixpoint batchesFrom {A} (turns : nat) (fundBatchSize i : nat) (toCheck : list A)
    : list (list A) :=
  match turns with
  | O => []
  | S turns' =>
      if (i <? length toCheck)%nat then
        take fundBatchSize (drop i toCheck)
          :: batchesFrom turns' fundBatchSize (i + fundBatchSize) toCheck
      else []
  end.

(** [fundWalletsInParallel]: the batches of calls of [fundSingleWallet] it
    makes, one batch after the other.  [relayerFunding] is how
    [await this.fundRelayerWallets()] ended; an exception of it leaves
    [fundWalletsInParallel]. *)
Definition fundWalletsInParallel (relayerCount : nat)
    (relayerFunding : outcome (list TopUp)) (funded : gset string)
    (walletData : list WalletManager.Wallet)
    : outcome (list (list WalletManager.Wallet)) :=
  if (relayerCount =? 0)%nat then Returned []
  else
    match relayerFunding with
    | Thrown => Thrown
    | Returned _ =>
        let toCheck :=
          filter (fun w => WalletManager.pubkey w ∉ funded) walletData in
        let fundBatchSize := 50%nat in
        Returned (batchesFrom (length toCheck) fundBatchSize 0 toCheck)
    end.

End RelayerFunding.

(** ** Burner wallet manager: creation *)

Module BurnerCreation.
Import BurnerWalletManager.

Definition maxFundingFailures : Z := 10.

Record Config := {
  bwcMaxBurnerWallets : Z;
  bwcBurnerCreationInterval : Z;
  bwcBurnerFundAmount : Z
}.

(** The fields of the manager that pace the creation of burners. *)
Record Breaker := {
  consecutiveFundingFailures : Z;
  lastSuccessfulFunding : Z;
  creationPausedUntil : Z;
  lastCreationCheck : Z
}.

Definition getActiveBurnerCount (s : State) : Z :=
  Z.of_nat (length (filter (fun entry : string * WalletData =>
                              entry.1 ∉ pendingDisposal s) (burnerWallets s))).

(** What one [createBurnerWallet] gets from outside: the key
    [Keypair.generate()] returns, the time [Date.now()] shows and the answers
    of the connection to the funding; the connection has one balance answer
    per relayer. *)
Record Attempt := {
  newPubkey : string;
  createdAt : Z;
  connection : BurnerFunding.Connection
}.

(** [createBurnerWallet], when nothing runs during the funding. *)
Definition createBurnerWallet (cfg : Config) (a : Attempt) (s : State) : State * bool :=
  match BurnerFunding.candidateBalances (connection a) with
  | [] => (s, false)
  | _ :: _ =>
      let walletData :=
        {| name := "Burner-" +:+ String.substring 0 8 (newPubkey a); created := createdAt a |} in
      let s1 := createBurnerWalletBegin (newPubkey a) walletData s in
      let fundingSuccess :=
        BurnerFunding.success
          (BurnerFunding.fundBurnerWallet (bwcBurnerFundAmount cfg) (connection a)) in
      (createBurnerWalletEnd (newPubkey a) fundingSuccess s1, fundingSuccess)
  end.

(** The [for (let i = 0; i < toCreate; i++)] loop over the attempts left. *)
Fixpoint createLoop (cfg : Config) (now : Z) (attempts : list Attempt)
    (b : Breaker) (s : State) : Breaker * State :=
  match attempts with
  | [] => (b, s)
  | a :: rest =>
      let '(s1, success) := createBurnerWallet cfg a s in
      if success then
        createLoop cfg now rest
          {| consecutiveFundingFailures := 0;
             lastSuccessfulFunding := now;
             creationPausedUntil := creationPausedUntil b;
             lastCreationCheck := lastCreationCheck b |} s1
      else
        let failures := consecutiveFundingFailures b + 1 in
        if maxFundingFailures <=? failures then
          ({| consecutiveFundingFailures := failures;
              lastSuccessfulFunding := now;
              creationPausedUntil := now + 300000;
              lastCreationCheck := lastCreationCheck b |}, s1)
        else
          createLoop cfg now rest
            {| consecutiveFundingFailures := failures;
               lastSuccessfulFunding := now;
               creationPausedUntil := creationPausedUntil b;
               lastCreationCheck := lastCreationCheck b |} s1
  end.

Definition checkedAt (now : Z) (b : Breaker) : Breaker :=
  {| consecutiveFundingFailures := consecutiveFundingFailures b;
     lastSuccessfulFunding := lastSuccessfulFunding b;
     creationPausedUntil := creationPausedUntil b;
     lastCreationCheck := now |}.

(** [ensureMinimumBurners], when nothing else runs during its awaits.
    [attempt i] is what the creation number [i] of this call gets. *)
Definition ensureMinimumBurners (cfg : Config) (relayerCount : nat)
    (attempt : nat -> Attempt) (now : Z) (b : Breaker) (s : State) : Breaker * State :=
  let paused :=
    (maxFundingFailures <=? consecutiveFundingFailures b)
    && (now <? creationPausedUntil b) in
  if paused then (b, s)
  else
    let b1 :=
      if maxFundingFailures <=? consecutiveFundingFailures b then
        {| consecutiveFundingFailures := 0;
           lastSuccessfulFunding := lastSuccessfulFunding b;
           creationPausedUntil := creationPausedUntil b;
           lastCreationCheck := lastCreationCheck b |}
      else b in
    if now - lastCreationCheck b1 <? bwcBurnerCreationInterval cfg then (b1, s)
    else
      let activeCount := getActiveBurnerCount s in
      let targetCount := bwcMaxBurnerWallets cfg in
      if targetCount <=? activeCount then (checkedAt now b1, s)
      else if (relayerCount =? 0)%nat then (checkedAt now b1, s)
      else
        let toCreate := Z.min (targetCount - activeCount) 2 in
        let '(b2, s2) :=
          createLoop cfg now (map attempt (seq 0 (Z.to_nat toCreate))) b1 s in
        (checkedAt now b2, s2).

(** A pool of at most three burners of 0.02 SOL checked every thirty
    seconds, and creations whose funding goes through. *)
Definition smallPool : Config :=
  {| bwcMaxBurnerWallets := 3; bwcBurnerCreationInterval := 30000;
     bwcBurnerFundAmount := 20000000 |}.

Definition fundedAttempt : nat -> Attempt :=
  fun i =>
    {| newPubkey := if (i =? 0)%nat then "BurnerC" else "BurnerD";
       createdAt := 40000;
       connection :=
         {| BurnerFunding.candidateBalances := [Returned 1000000000];
            BurnerFunding.firstRelayerBalance := Returned 1000000000;
            BurnerFunding.sendTransaction := Returned "5sig";
            BurnerFunding.confirmation := Returned tt |} |}.

End BurnerCreation.

(** ** Orchestrator: the batch that trades *)

Module VolumeBoosterBot.

(** An element of [combinedBatch]: a wallet of the active batch or a burner. *)
Inductive Trader :=
  | Regular (wallet : Selection.ActiveWallet)
  | BurnerTrader (burner : BurnerWalletManager.Burner).

(** [runLoop], from [let combinedBatch = [...walletBatch]] to the test
    [combinedBatch.length === 0]: the batch handed to [processBatch], and
    the burner manager as the query left it.  [batchSize] is
    [config.batchSize]; the two [catch] blocks are never entered, since
    [getAvailableBurners] throws nothing. *)
Definition combinedBatch (cfg : BurnerWalletManager.Config) (batchSize : Z)
    (getBurnerCooldown : string -> Z -> Z) (draw : nat -> nat) (now : Z)
    (walletBatch : list Selection.ActiveWallet) (s : BurnerWalletManager.State)
    : BurnerWalletManager.State * list Trader :=
  if BurnerWalletManager.bwcEnabled cfg
     && match BurnerWalletManager.bwcMode cfg with
        | BurnerWalletManager.ModeHybrid => true
        | _ => false
        end
  then
    let '(s1, burnerWallets) :=
      BurnerWalletManager.getAvailableBurners cfg getBurnerCooldown draw now
        (Z.of_nat (length walletBatch)) false s in
    (s1, map Regular walletBatch ++ map BurnerTrader burnerWallets)
  else if BurnerWalletManager.bwcEnabled cfg
          && match BurnerWalletManager.bwcMode cfg with
             | BurnerWalletManager.ModeBurnerOnly => true
             | _ => false
             end
  then
    let '(s1, burnerWallets) :=
      BurnerWalletManager.getAvailableBurners cfg getBurnerCooldown draw now
        batchSize false s in
    (s1, map BurnerTrader burnerWallets)
  else (s, map Regular walletBatch).

End VolumeBoosterBot.

(** * Properties *)

(** ** Circuit breaker *)

Module CircuitBreakerProofs.
Import CircuitBreaker.

Lemma consecutive_reflect cfg s :
  tripped (checkConsecutiveFailures cfg s) = true <-> consecutiveCondition cfg s.
Proof.
  unfold checkConsecutiveFailures, consecutiveCondition.
  destruct (Z.leb_spec (maxConsecutiveFailures cfg) (consecutiveFailures s)); simpl.
  - split; [lia | done].
  - split; [done | lia].
Qed.

Lemma failureRate_reflect cfg s :
  tripped (checkFailureRate cfg s) = true <-> failureRateCondition cfg s.
Proof.
  unfold checkFailureRate, failureRateCondition.
  destruct (Z.leb_spec (failureRateWindow cfg) (len (recentTrades s))); simpl.
  - destruct (failureRateAbove cfg _ _); simpl; split; try done.
    + by intros [_ ?].
  - split; [done | lia].
Qed.

Lemma stopLoss_state cfg gb sink s :
  fst (checkEmergencyStopLoss cfg gb sink s) = bumpCounter s.
Proof.
  unfold checkEmergencyStopLoss.
  repeat (case_match; simpl; try done).
Qed.

Lemma stopLoss_reflect cfg current sink s :
  exists r,
    snd (checkEmergencyStopLoss cfg (Returned current) sink s) = Returned r /\
    (tripped r = true <-> drawdownCondition cfg sink current s) /\
    (tripped r = true ->
     reason r = StopLossReason (lossBasisPoints (initialSinkBalance s) current)).
Proof.
  unfold checkEmergencyStopLoss, drawdownCondition. simpl.
  destruct sink; simpl.
  2: { exists notTripped. split; [done|]. split; [|done].
       split; [done | by intros [? _]]. }
  destruct (Z.ltb_spec 0 (initialSinkBalance s)); simpl.
  2: { exists notTripped. split; [done|]. split; [|done].
       split; [done | intros (_ & ? & _); lia]. }
  destruct (Z.eqb_spec (Z.rem (checkCounter s + 1) SINK_BALANCE_CHECK_INTERVAL) 0).
  2: { exists notTripped. split; [done|]. split; [|done].
       split; [done | intros (_ & _ & ? & _); done]. }
  destruct (Z.leb_spec (initialSinkBalance s) 0); [lia|].
  destruct (lossAbove cfg _) eqn:Hloss.
  - eexists. split; [done|]. simpl. split; [|done]. split; [|done]. by intros _.
  - exists notTripped. split; [done|]. split; [|done].
    split; [done | intros (_ & _ & _ & ?); congruence].
Qed.

(** No operation of the breaker writes the baseline. *)
Lemma baseline_recordTradeResult cfg success s :
  initialSinkBalance (recordTradeResult cfg success s) = initialSinkBalance s.
Proof. unfold recordTradeResult. by destruct (enableCircuitBreaker cfg). Qed.

Lemma baseline_checkCircuitBreakers cfg gb sink s :
  initialSinkBalance (fst (checkCircuitBreakers cfg gb sink s)) = initialSinkBalance s.
Proof.
  unfold checkCircuitBreakers.
  destruct (enableCircuitBreaker cfg); simpl; [|done].
  unfold pureCheck.
  destruct (tripped (checkConsecutiveFailures cfg s)); [done|].
  destruct (tripped (checkFailureRate cfg s)); [done|].
  pose proof (stopLoss_state cfg gb sink s) as Hst.
  destruct (checkEmergencyStopLoss cfg gb sink s) as [s' [r|]]; simpl in *; subst.
  - by destruct (tripped r).
  - done.
Qed.

Lemma stopLossChecks_counter cfg gb sink n s :
  checkCounter (stopLossChecks cfg gb sink n s) = checkCounter s + Z.of_nat n /\
  initialSinkBalance (stopLossChecks cfg gb sink n s) = initialSinkBalance s.
Proof.
  induction n as [|n [IHc IHb]]; simpl.
  - split; [lia | done].
  - rewrite stopLoss_state. simpl. rewrite IHc, IHb. split; [lia | done].
Qed.

(** C1, as the specification words its example: with a cap of three, in
    three failures, a success and three failures no check trips before the
    last failure.  This fails: the check made after the third failure of the
    first streak trips. *)
Lemma C1_first_streak_trips :
  tripsAfter scenarioConfig Thrown false scenarioOutcomes 3 = true /\
  ~ (forall n, (n < 7)%nat ->
       tripsAfter scenarioConfig Thrown false scenarioOutcomes n = false).
Proof.
  split; [reflexivity|].
  intros H. specialize (H 3%nat ltac:(lia)). vm_compute in H. discriminate.
Qed.

(** C1, amended.  With the breaker enabled, [checkCircuitBreakers] tries the
    consecutive-failure condition, then the failure-rate condition, then the
    drawdown condition, and returns at the first that trips: a trip of one of
    the first two leaves the check counter alone and does not depend on the
    balance query.  When the balance query answers, the check trips exactly
    when one of the three conditions holds.  A recorded success sets the
    streak to zero and a recorded failure adds one to it.  With a cap of
    three, among the checks made after each outcome of three failures, a
    success and three failures, exactly those after the third and after the
    seventh outcome trip. *)
Theorem C1_precedence_and_streak (cfg : Config) (sinkKeypair : bool) (s : State) :
  enableCircuitBreaker cfg = true ->
  (consecutiveCondition cfg s ->
   forall getBalance,
     checkCircuitBreakers cfg getBalance sinkKeypair s =
       (s, Returned {| tripped := true;
                       reason := ConsecutiveFailuresReason (consecutiveFailures s) |})) /\
  (~ consecutiveCondition cfg s -> failureRateCondition cfg s ->
   forall getBalance,
     checkCircuitBreakers cfg getBalance sinkKeypair s =
       (s, Returned {| tripped := true;
                       reason := FailureRateReason (failureCount (recentTrades s))
                                   (len (recentTrades s)) (failureRateWindow cfg) |})) /\
  (~ consecutiveCondition cfg s -> ~ failureRateCondition cfg s ->
   forall getBalance,
     fst (checkCircuitBreakers cfg getBalance sinkKeypair s) = bumpCounter s /\
     forall current, getBalance = Returned current ->
       exists r,
         snd (checkCircuitBreakers cfg getBalance sinkKeypair s) = Returned r /\
         (tripped r = true ->
          reason r = StopLossReason (lossBasisPoints (initialSinkBalance s) current))) /\
  (forall current, exists r,
     snd (checkCircuitBreakers cfg (Returned current) sinkKeypair s) = Returned r /\
     (tripped r = true <->
      consecutiveCondition cfg s \/ failureRateCondition cfg s \/
      drawdownCondition cfg sinkKeypair current s)) /\
  consecutiveFailures (recordTradeResult cfg true s) = 0 /\
  consecutiveFailures (recordTradeResult cfg false s) = consecutiveFailures s + 1 /\
  (forall n, (n <= 7)%nat ->
     (tripsAfter scenarioConfig Thrown false scenarioOutcomes n = true <->
      n = 3%nat \/ n = 7%nat)).
Proof.
  intros Hen.
  pose proof (consecutive_reflect cfg s) as Hc.
  pose proof (failureRate_reflect cfg s) as Hf.
  assert (Hrun : forall gb,
    checkCircuitBreakers cfg gb sinkKeypair s =
      if tripped (checkConsecutiveFailures cfg s)
      then (s, Returned (checkConsecutiveFailures cfg s))
      else if tripped (checkFailureRate cfg s)
      then (s, Returned (checkFailureRate cfg s))
      else match checkEmergencyStopLoss cfg gb sinkKeypair s with
           | (s', Thrown) => (s', Thrown)
           | (s', Returned r) => (s', Returned (if tripped r then r else notTripped))
           end).
  { intros gb. unfold checkCircuitBreakers. rewrite Hen. simpl. unfold pureCheck.
    destruct (tripped (checkConsecutiveFailures cfg s)); [done|].
    destruct (tripped (checkFailureRate cfg s)); [done|].
    destruct (checkEmergencyStopLoss cfg gb sinkKeypair s) as [s' [r|]]; [|done].
    by destruct (tripped r). }
  repeat split.
  - intros Hcond gb. rewrite Hrun.
    destruct (tripped (checkConsecutiveFailures cfg s)) eqn:E.
    + f_equal. f_equal. unfold checkConsecutiveFailures in *.
      by destruct (maxConsecutiveFailures cfg <=? consecutiveFailures s).
    + apply Hc in Hcond. congruence.
  - intros Hnc Hcond gb. rewrite Hrun.
    destruct (tripped (checkConsecutiveFailures cfg s)) eqn:E.
    { exfalso. apply Hnc. by apply Hc. }
    destruct (tripped (checkFailureRate cfg s)) eqn:E2.
    + f_equal. f_equal. unfold checkFailureRate in *.
      destruct (failureRateWindow cfg <=? len (recentTrades s)); [|done].
      by destruct (failureRateAbove cfg _ _).
    + apply Hf in Hcond. congruence.
  - rewrite Hrun.
    destruct (tripped (checkConsecutiveFailures cfg s)) eqn:E.
    { exfalso. apply H. by apply Hc. }
    destruct (tripped (checkFailureRate cfg s)) eqn:E2.
    { exfalso. apply H0. by apply Hf. }
    rewrite <- (stopLoss_state cfg getBalance sinkKeypair s).
    by destruct (checkEmergencyStopLoss cfg getBalance sinkKeypair s) as [s' [r|]].
  - intros current ->. rewrite Hrun.
    destruct (tripped (checkConsecutiveFailures cfg s)) eqn:E.
    { exfalso. apply H. by apply Hc. }
    destruct (tripped (checkFailureRate cfg s)) eqn:E2.
    { exfalso. apply H0. by apply Hf. }
    destruct (stopLoss_reflect cfg current sinkKeypair s) as (r & Hr & _ & Hreason).
    destruct (checkEmergencyStopLoss cfg (Returned current) sinkKeypair s)
      as [s' [r'|]]; simpl in *; [|done].
    injection Hr as ->. eexists. split; [done|].
    destruct (tripped r) eqn:Er; [intros _; by apply Hreason | by simpl].
  - intros current. rewrite Hrun.
    destruct (tripped (checkConsecutiveFailures cfg s)) eqn:E.
    { eexists. split; [done|]. rewrite E. split; [|done]. intros _. left. by apply Hc. }
    destruct (tripped (checkFailureRate cfg s)) eqn:E2.
    { eexists. split; [done|]. rewrite E2. split; [|done].
      intros _. right; left. by apply Hf. }
    destruct (stopLoss_reflect cfg current sinkKeypair s) as (r & Hr & Hiff & _).
    destruct (checkEmergencyStopLoss cfg (Returned current) sinkKeypair s)
      as [s' [r'|]]; simpl in *; [|done].
    injection Hr as ->. eexists. split; [done|].
    assert (tripped (if tripped r then r else notTripped) = tripped r) as ->
      by (by destruct (tripped r) eqn:Er).
    rewrite Hiff. split; [by auto|].
    intros [Hx | [Hx | Hx]]; [| |done].
    + apply Hc in Hx. congruence.
    + apply Hf in Hx. congruence.
  - unfold recordTradeResult. by rewrite Hen.
  - unfold recordTradeResult. by rewrite Hen.
  - intros Ht.
    do 8 (destruct n as [|n]; [vm_compute in Ht; try discriminate; auto|]). lia.
  - intros [-> | ->]; reflexivity.
Qed.

(** The amended C1 at the scenario's configuration and a breaker that has
    seen three failures. *)
Lemma C1_precedence_and_streak_witness :
  consecutiveFailures
    (recordTradeResult scenarioConfig true
       (recordAll scenarioConfig [false; false; false] constructor)) = 0.
Proof.
  exact (proj1 (proj2 (proj2 (proj2 (proj2
    (C1_precedence_and_streak scenarioConfig false
       (recordAll scenarioConfig [false; false; false] constructor) eq_refl)))))).
Defined.

(** C8.  The throttle and the baseline are as the claim says: every call of
    [checkEmergencyStopLoss] adds one to the check counter and leaves the
    baseline alone, as do the recorder and the breaker check, so the
    baseline is the balance stored at startup; when the new counter is not
    a multiple of [SINK_BALANCE_CHECK_INTERVAL] the call answers "not
    tripped" whatever the connection would say; it trips exactly when
    there is a sink, the baseline is positive, the new counter is a
    multiple of the interval and the loss is above the stop loss; a call
    of [checkCircuitBreakers] counts as one such call when the breaker is
    enabled and neither of the first two conditions trips; after [n] calls
    on a fresh breaker the counter is [n].  The percentage arithmetic is
    not all done on integers: the loss in basis points is an integer
    quotient, but it is then converted to a double, divided by 10000 and
    compared with the stop loss, itself a double obtained by dividing the
    configured percentage by 100.  With a stop loss of 2.8 percent, a
    baseline of 10000 lamports and a balance of 9720 lamports at the fifth
    check, the loss is 280 basis points, which is 2.8 percent exactly and
    so does not exceed the stop loss, and the check trips: the quotient
    280 / 10000 is a double above the double 2.8 / 100.  One basis point
    less does not trip, and with a stop loss of 3 percent a loss of 3
    percent exactly does not trip either. *)
Theorem C8_stop_loss_compared_on_doubles (cfg : Config) (getBalance : outcome Z)
    (sinkKeypair : bool) (s : State) :
  checkCounter (fst (checkEmergencyStopLoss cfg getBalance sinkKeypair s))
    = checkCounter s + 1 /\
  initialSinkBalance (fst (checkEmergencyStopLoss cfg getBalance sinkKeypair s))
    = initialSinkBalance s /\
  (Z.rem (checkCounter s + 1) SINK_BALANCE_CHECK_INTERVAL <> 0 ->
   snd (checkEmergencyStopLoss cfg getBalance sinkKeypair s) = Returned notTripped) /\
  (forall current, exists r,
     snd (checkEmergencyStopLoss cfg (Returned current) sinkKeypair s) = Returned r /\
     (tripped r = true <->
      sinkKeypair = true /\ 0 < initialSinkBalance s /\
      Z.rem (checkCounter s + 1) SINK_BALANCE_CHECK_INTERVAL = 0 /\
      numberGt
        (numberDiv
           (Number (Z.quot ((initialSinkBalance s - current) * 10000)
                      (initialSinkBalance s)))
           (Number 10000))
        (emergencyStopLoss cfg) = true)) /\
  (forall success,
     initialSinkBalance (recordTradeResult cfg success s) = initialSinkBalance s) /\
  initialSinkBalance (fst (checkCircuitBreakers cfg getBalance sinkKeypair s))
    = initialSinkBalance s /\
  checkCounter (fst (checkCircuitBreakers cfg getBalance sinkKeypair s))
    = (if enableCircuitBreaker cfg
          && negb (tripped (checkConsecutiveFailures cfg s))
          && negb (tripped (checkFailureRate cfg s))
       then checkCounter s + 1 else checkCounter s) /\
  (forall answers baseline n,
     let s0 := lockInitialSinkBalance baseline constructor in
     checkCounter (stopLossChecks cfg answers sinkKeypair n s0) = Z.of_nat n /\
     initialSinkBalance (stopLossChecks cfg answers sinkKeypair n s0) = baseline) /\
  (let fifth cfg0 :=
     checkEmergencyStopLoss cfg0 (Returned 9720) true
       (stopLossChecks cfg0 (fun _ => Returned 10000) true 4
          (lockInitialSinkBalance 10000 constructor)) in
   snd (fifth (withStopLossPct twoPointEight))
     = Returned {| tripped := true; reason := StopLossReason 280 |} /\
   lossBasisPoints 10000 9720 = 280 /\
   (10000 - 9720) * 1000 = 28 * 10000 /\
   twoPointEight = SpecFloat.S754_finite false 6305039478318694 (-51) /\
   emergencyStopLoss (withStopLossPct twoPointEight)
     = SpecFloat.S754_finite false 8070450532247928 (-58) /\
   numberDiv (Number 280) (Number 10000)
     = SpecFloat.S754_finite false 8070450532247929 (-58) /\
   lossAbove (withStopLossPct twoPointEight) 279 = false /\
   lossAbove (withStopLossPct (Number 3)) 300 = false).
Proof.
  split_and!.
  - by rewrite stopLoss_state.
  - by rewrite stopLoss_state.
  - intros Hrem. unfold checkEmergencyStopLoss. simpl.
    destruct (Z.eqb_spec (Z.rem (checkCounter s + 1) SINK_BALANCE_CHECK_INTERVAL) 0);
      [done|].
    by rewrite andb_false_r.
  - intros current.
    destruct (stopLoss_reflect cfg current sinkKeypair s) as (r & Hr & Hiff & _).
    exists r. split; [done|]. exact Hiff.
  - intros success. apply baseline_recordTradeResult.
  - apply baseline_checkCircuitBreakers.
  - unfold checkCircuitBreakers.
    destruct (enableCircuitBreaker cfg); simpl; [|done].
    unfold pureCheck.
    destruct (tripped (checkConsecutiveFailures cfg s)); [done|].
    destruct (tripped (checkFailureRate cfg s)); [done|]. simpl.
    pose proof (stopLoss_state cfg getBalance sinkKeypair s) as Hst.
    destruct (checkEmergencyStopLoss cfg getBalance sinkKeypair s) as [s' [r|]];
      simpl in *; subst; [by destruct (tripped r) | done].
  - intros answers baseline n. cbv zeta.
    destruct (stopLossChecks_counter cfg answers sinkKeypair n
                (lockInitialSinkBalance baseline constructor)) as [Hc Hb].
    rewrite Hc, Hb. simpl. split; [lia | done].
  - cbv zeta. split_and!; by vm_compute.
Qed.

End CircuitBreakerProofs.

(** ** Burner wallet manager *)

Module BurnerWalletManagerProofs.
Import BurnerWalletManager.

Lemma keys_mapDelete {V} pk k (m : list (string * V)) :
  pk ∈ (mapDelete k m).*1 <-> (pk ≠ k) /\ (pk ∈ m.*1).
Proof.
  unfold mapDelete. rewrite !list_elem_of_fmap. split.
  - intros ([k' v] & -> & Hin). apply list_elem_of_filter in Hin as [Hne Hin].
    split; [done|]. by exists (k', v).
  - intros (Hne & ([k' v] & -> & Hin)). exists (k', v). split; [done|].
    by apply list_elem_of_filter.
Qed.

Lemma keys_mapSet {V} pk k (v : V) (m : list (string * V)) :
  pk ∈ (mapSet k v m).*1 <-> (pk = k) \/ (pk ∈ m.*1).
Proof.
  induction m as [|[k' x] m IH]; csimpl.
  - rewrite list_elem_of_singleton, elem_of_nil. tauto.
  - destruct (String.eqb_spec k' k) as [->|Hne]; csimpl;
      rewrite !elem_of_cons; [|rewrite IH]; tauto.
Qed.

Lemma mapHas_true {V} pk (m : list (string * V)) : mapHas pk m = true <-> pk ∈ m.*1.
Proof. unfold mapHas. apply bool_decide_eq_true. Qed.

Lemma capAt_le limit c : capAt limit c <= c.
Proof. unfold capAt. destruct (Z.ltb_spec limit c); lia. Qed.

Lemma getOr0_capAt limit (m : gmap string Z) pk :
  0 <= limit -> getOr0 (capAt limit <$> m) pk = capAt limit (getOr0 m pk).
Proof.
  intros Hl. unfold getOr0. rewrite lookup_fmap.
  destruct (m !! pk); simpl; [done|].
  unfold capAt. destruct (Z.ltb_spec limit 0); lia.
Qed.

(** What the sweep of expired entries keeps for a key that is still
    tracked after it. *)
Lemma sweep_keeps now (l : list (string * WalletData)) s pk :
  let s' :=
    foldl (fun st entry =>
             if EXPIRY_TIME <? now - created entry.2 then forget entry.1 st else st)
          s l in
  (tracked pk s' ->
     tracked pk s /\
     (pk ∈ pendingDisposal s -> pk ∈ pendingDisposal s') /\
     burnerTradeCount s' !! pk = burnerTradeCount s !! pk /\
     burnerSeasoningCount s' !! pk = burnerSeasoningCount s !! pk /\
     burnerCooldowns s' !! pk = burnerCooldowns s !! pk) /\
  (pk ∈ pendingDisposal s' -> pk ∈ pendingDisposal s) /\
  (tracked pk s' \/ ~ tracked pk s' -> ~ tracked pk s -> ~ tracked pk s').
Proof.
  revert s. induction l as [|e l IH]; intros s; simpl.
  - naive_solver.
  - destruct (EXPIRY_TIME <? now - created e.2).
    + specialize (IH (forget e.1 s)). simpl in IH.
      destruct IH as (IH1 & IH2 & IH3). split; [|split].
      * intros Ht. destruct (IH1 Ht) as (Htr & Hp & Hc & Hs & Hd).
        unfold tracked in Htr. simpl in Htr. apply keys_mapDelete in Htr as [Hne Htr].
        split; [done|]. split.
        { intros Hin. apply Hp. set_solver. }
        rewrite Hc, Hs, Hd. by rewrite !lookup_delete_ne.
      * intros Hin. apply IH2 in Hin. set_solver.
      * intros Hdec Hnt. apply IH3; [done|].
        unfold tracked. simpl. rewrite keys_mapDelete. tauto.
    + apply IH.
Qed.

Lemma cleanup_keeps now s pk :
  (tracked pk (cleanupBurners now s) ->
     tracked pk s /\
     (pk ∈ pendingDisposal s -> pk ∈ pendingDisposal (cleanupBurners now s)) /\
     getOr0 (burnerTradeCount (cleanupBurners now s)) pk
       = capAt 100 (getOr0 (burnerTradeCount s) pk) /\
     getOr0 (burnerSeasoningCount (cleanupBurners now s)) pk
       = capAt 20 (getOr0 (burnerSeasoningCount s) pk)) /\
  (pk ∈ pendingDisposal (cleanupBurners now s) -> pk ∈ pendingDisposal s).
Proof.
  pose proof (sweep_keeps now (burnerWallets s) s pk) as (H1 & H2 & _).
  unfold cleanupBurners. simpl. split; [|exact H2].
  intros Ht. unfold tracked in Ht. simpl in Ht.
  destruct (H1 Ht) as (Htr & Hp & Hc & Hs & _).
  split; [done|]. split; [done|].
  rewrite !getOr0_capAt by lia. unfold getOr0. by rewrite Hc, Hs.
Qed.

Lemma examine_Some cfg cooldown now s e b :
  examine cfg cooldown now s e = Some b ->
  b_pubkey b = e.1 /\ b_data b = e.2 /\
  (e.1 ∉ pendingDisposal s) /\
  b_txCount b = getOr0 (burnerTradeCount s) e.1 /\
  b_seasoningCount b = getOr0 (burnerSeasoningCount s) e.1 /\
  cooldown e.1 (b_txCount b) <= now - getOr0 (burnerCooldowns s) e.1 /\
  b_txCount b < bwcBurnerLifetimeTxs cfg /\
  (enableBurnerSeasoning cfg = true -> burnerSeasoningMinTxs cfg <= b_seasoningCount b) /\
  b_isSeasoned b = true.
Proof.
  unfold examine. case_bool_decide as Hp; [done|].
  destruct (Z.leb_spec (cooldown e.1 (getOr0 (burnerTradeCount s) e.1))
              (now - getOr0 (burnerCooldowns s) e.1)); simpl; [|done].
  destruct (Z.ltb_spec (getOr0 (burnerTradeCount s) e.1) (bwcBurnerLifetimeTxs cfg));
    simpl; [|done].
  destruct (negb (enableBurnerSeasoning cfg)
            || (burnerSeasoningMinTxs cfg <=? getOr0 (burnerSeasoningCount s) e.1))
    eqn:Hs; [|done].
  intros [= <-]. simpl. repeat split; try done.
  intros Hen. rewrite Hen in Hs. simpl in Hs. lia.
Qed.

Lemma slice0_subseteq {A} (l : list A) e x : x ∈ slice0 l e -> x ∈ l.
Proof. unfold slice0. destruct (e <? 0); apply subseteq_take. Qed.

Lemma slice0_length {A} (l : list A) e :
  0 <= e -> Z.of_nat (length (slice0 l e)) <= e.
Proof.
  intros He. unfold slice0. destruct (Z.ltb_spec e 0); [lia|].
  rewrite length_take. lia.
Qed.

(** The answer of a query, and the state it leaves. *)
Lemma query_answer cfg cooldown draw now count emergency s b :
  b ∈ (getAvailableBurners cfg cooldown draw now count emergency s).2 ->
  (getAvailableBurners cfg cooldown draw now count emergency s).1 = cleanupBurners now s /\
  exists e, e ∈ burnerWallets (cleanupBurners now s) /\
            examine cfg cooldown now (cleanupBurners now s) e = Some b.
Proof.
  unfold getAvailableBurners.
  destruct (negb (bwcEnabled cfg) || _); simpl.
  - intros Hin. by apply elem_of_nil in Hin.
  - intros Hin. split; [done|].
    apply slice0_subseteq in Hin. by apply list_elem_of_omap in Hin.
Qed.

Lemma query_state cfg cooldown draw now count emergency s :
  (getAvailableBurners cfg cooldown draw now count emergency s).1 = s \/
  (getAvailableBurners cfg cooldown draw now count emergency s).1 = cleanupBurners now s.
Proof.
  unfold getAvailableBurners. destruct (negb (bwcEnabled cfg) || _); simpl; auto.
Qed.

(** The shuffled copy never reaches the answer. *)
Lemma query_ignores_draw cfg cooldown draw draw' now count emergency s :
  getAvailableBurners cfg cooldown draw now count emergency s
  = getAvailableBurners cfg cooldown draw' now count emergency s.
Proof. reflexivity. Qed.

(** A burner in the answer is tracked, not pending, below the lifetime cap,
    past the cooldown drawn for it and, where seasoning is required,
    seasoned; the state meant is the one the query leaves. *)
Lemma query_eligible cfg cooldown draw now count emergency s b :
  b ∈ (getAvailableBurners cfg cooldown draw now count emergency s).2 ->
  let s1 := (getAvailableBurners cfg cooldown draw now count emergency s).1 in
  tracked (b_pubkey b) s1 /\
  (b_pubkey b ∉ pendingDisposal s1) /\
  b_txCount b = getOr0 (burnerTradeCount s1) (b_pubkey b) /\
  b_txCount b < bwcBurnerLifetimeTxs cfg /\
  cooldown (b_pubkey b) (b_txCount b)
    <= now - getOr0 (burnerCooldowns s1) (b_pubkey b) /\
  (enableBurnerSeasoning cfg = true ->
   burnerSeasoningMinTxs cfg <= getOr0 (burnerSeasoningCount s1) (b_pubkey b)).
Proof.
  intros Hin. destruct (query_answer _ _ _ _ _ _ _ _ Hin) as (Hst & e & He & Hex).
  apply examine_Some in Hex as (Hk & _ & Hp & Hc & Hs & Hcd & Hlt & Hseas & _).
  simpl. rewrite Hst, Hk. split_and!; try done.
  - unfold tracked. apply list_elem_of_fmap. by exists e.
  - intros Hen. rewrite <- Hs. auto.
Qed.

(** The length of the answer, for a request and a ratio that are not negative. *)
Lemma query_length cfg cooldown draw now count (emergency : bool) s :
  0 <= count ->
  0 <= (if emergency then emergencyRatioCeil cfg count else burnerRatioCeil cfg count) ->
  Z.of_nat (length (getAvailableBurners cfg cooldown draw now count emergency s).2)
    <= Z.min (if emergency then emergencyRatioCeil cfg count
              else burnerRatioCeil cfg count) count.
Proof.
  intros Hc Ht. unfold getAvailableBurners.
  destruct (negb (bwcEnabled cfg) || _); simpl; [lia|].
  apply slice0_length. lia.
Qed.

Lemma seasoning_frame cfg k n s :
  burnerWallets (markBurnerSeasoningProgress cfg k n s) = burnerWallets s /\
  burnerTradeCount (markBurnerSeasoningProgress cfg k n s) = burnerTradeCount s /\
  pendingDisposal (markBurnerSeasoningProgress cfg k n s) = pendingDisposal s.
Proof. unfold markBurnerSeasoningProgress. by destruct (enableBurnerSeasoning cfg). Qed.

Lemma schedule_spec k s :
  burnerWallets (scheduleBurnerDisposal k s) = burnerWallets s /\
  burnerTradeCount (scheduleBurnerDisposal k s) = burnerTradeCount s /\
  pendingDisposal s ⊆ pendingDisposal (scheduleBurnerDisposal k s) /\
  (tracked k s -> k ∈ pendingDisposal (scheduleBurnerDisposal k s)).
Proof.
  unfold scheduleBurnerDisposal, tracked.
  destruct (mapHas k (burnerWallets s)) eqn:Hhas; simpl.
  - case_bool_decide as Hp; simpl.
    + split_and!; [done | done | done | by intros _].
    + split_and!; [done | done | set_solver | set_solver].
  - split_and!; [done | done | done |].
    intros Ht. apply mapHas_true in Ht. congruence.
Qed.

Lemma mark_spec cfg k n now s :
  burnerWallets (markBurnerUsed cfg k n now s) = burnerWallets s /\
  pendingDisposal s ⊆ pendingDisposal (markBurnerUsed cfg k n now s) /\
  (forall pk, pk ≠ k ->
     getOr0 (burnerTradeCount (markBurnerUsed cfg k n now s)) pk
       = getOr0 (burnerTradeCount s) pk) /\
  (tracked k s ->
     getOr0 (burnerTradeCount (markBurnerUsed cfg k n now s)) k
       = getOr0 (burnerTradeCount s) k + n /\
     (bwcBurnerLifetimeTxs cfg <= getOr0 (burnerTradeCount s) k + n ->
      k ∈ pendingDisposal (markBurnerUsed cfg k n now s))) /\
  (~ tracked k s -> markBurnerUsed cfg k n now s = s).
Proof.
  unfold markBurnerUsed.
  destruct (mapHas k (burnerWallets s)) eqn:Hhas; simpl.
  2: { split_and!; try done.
       intros Ht. apply mapHas_true in Ht. congruence. }
  apply mapHas_true in Hhas.
  set (s1 := {| burnerWallets := burnerWallets s;
                burnerCooldowns := <[k:=now]> (burnerCooldowns s);
                burnerTradeCount :=
                  <[k:=getOr0 (burnerTradeCount s) k + n]> (burnerTradeCount s);
                burnerSeasoningCount := burnerSeasoningCount s;
                pendingDisposal := pendingDisposal s;
                disposalTimers := disposalTimers s;
                stats := _ |}).
  set (s2 := if enableBurnerSeasoning cfg
             then markBurnerSeasoningProgress cfg k n s1 else s1).
  assert (Hs2 : burnerWallets s2 = burnerWallets s /\
                burnerTradeCount s2 = burnerTradeCount s1 /\
                pendingDisposal s2 = pendingDisposal s).
  { unfold s2. destruct (enableBurnerSeasoning cfg); [|done].
    apply (seasoning_frame cfg k n s1). }
  destruct Hs2 as (Hw & Hc & Hp).
  destruct (schedule_spec k s2) as (Hw' & Hc' & Hp' & Hk').
  assert (Hcount : forall s3, burnerTradeCount s3 = burnerTradeCount s1 ->
            (forall pk, pk ≠ k ->
               getOr0 (burnerTradeCount s3) pk = getOr0 (burnerTradeCount s) pk) /\
            getOr0 (burnerTradeCount s3) k = getOr0 (burnerTradeCount s) k + n).
  { intros s3 ->. unfold getOr0 at 1 3. simpl. split.
    - intros pk Hne. unfold getOr0. by rewrite lookup_insert_ne.
    - by rewrite lookup_insert_eq. }
  destruct (Z.leb_spec (bwcBurnerLifetimeTxs cfg) (getOr0 (burnerTradeCount s) k + n)).
  - destruct (Hcount (scheduleBurnerDisposal k s2)) as [Hne Heq]; [congruence|].
    split_and!; try done.
    + congruence.
    + by rewrite <- Hp.
    + intros _. split; [done|]. intros _. apply Hk'. unfold tracked. by rewrite Hw.
  - destruct (Hcount s2 Hc) as [Hne Heq].
    split_and!; try done.
    + by rewrite Hp.
    + intros _. split; [done|]. lia.
Qed.

Lemma disposeEnd_spec cfg k s pk :
  (tracked pk (disposeBurnerWalletEnd cfg k s) <-> pk ≠ k /\ tracked pk s) /\
  (pk ∈ pendingDisposal (disposeBurnerWalletEnd cfg k s) -> pk ∈ pendingDisposal s) /\
  disposalTimers (disposeBurnerWalletEnd cfg k s) = disposalTimers s /\
  (pk ≠ k ->
     (pk ∈ pendingDisposal s -> pk ∈ pendingDisposal (disposeBurnerWalletEnd cfg k s)) /\
     getOr0 (burnerTradeCount (disposeBurnerWalletEnd cfg k s)) pk
       = getOr0 (burnerTradeCount s) pk).
Proof.
  unfold disposeBurnerWalletEnd, tracked. simpl. rewrite keys_mapDelete.
  split_and!; [done | set_solver | done |].
  intros Hne. split; [set_solver|]. unfold getOr0. by rewrite lookup_delete_ne.
Qed.

Lemma dispose_spec cfg k s pk :
  (tracked pk (disposeBurnerWallet cfg k s) -> tracked pk s) /\
  (tracked k s -> ~ tracked k (disposeBurnerWallet cfg k s)) /\
  (pk ∈ pendingDisposal (disposeBurnerWallet cfg k s) -> pk ∈ pendingDisposal s) /\
  disposalTimers (disposeBurnerWallet cfg k s) = disposalTimers s /\
  (pk ≠ k ->
     (pk ∈ pendingDisposal s -> pk ∈ pendingDisposal (disposeBurnerWallet cfg k s)) /\
     getOr0 (burnerTradeCount (disposeBurnerWallet cfg k s)) pk
       = getOr0 (burnerTradeCount s) pk).
Proof.
  unfold disposeBurnerWallet.
  destruct (mapHas k (burnerWallets s)) eqn:Hhas; simpl.
  - destruct (disposeEnd_spec cfg k s pk) as (Ht & Hp & Htm & Hne).
    destruct (disposeEnd_spec cfg k s k) as (Htk & _).
    split_and!; [by intros [_ ?]%Ht | | done | done | done].
    intros _ [? _]%Htk. done.
  - split_and!; [done | | done | done | done].
    intros Ht. apply mapHas_true in Ht. congruence.
Qed.

(** Every call but the creation of [pk] keeps [pk] excluded. *)
Lemma exec_excluded cfg op s pk :
  creates pk op = false -> excluded pk s -> excluded pk (exec cfg op s).1.
Proof.
  unfold excluded. intros Hcr Hex. destruct op; simpl in *.
  - (* createBurnerWalletBegin *)
    destruct (String.eqb_spec pubkey pk) as [|Hne]; [done|].
    unfold tracked. simpl. rewrite keys_mapSet. destruct Hex; [by left | right].
    intros [-> | ?]; tauto.
  - unfold createBurnerWalletEnd, tracked.
    destruct fundingSuccess; simpl; [done|].
    rewrite keys_mapDelete. destruct Hex; [by left | right]. tauto.
  - destruct (mark_spec cfg pubkey txCount now s) as (Hw & Hp & _).
    unfold tracked. rewrite Hw. destruct Hex; [left; set_solver | by right].
  - destruct (schedule_spec pubkey s) as (Hw & _ & Hp & _).
    unfold tracked. rewrite Hw. destruct Hex; [left; set_solver | by right].
  - destruct (dispose_spec cfg pubkey s pk) as (Ht & Hk & _ & _ & Hne).
    destruct (decide (pk = pubkey)) as [->|Hd].
    + right. intros Ht'. apply (Hk (Ht Ht')), Ht'.
    + destruct Hex as [Hin | Hnt]; [left; by apply Hne | right; tauto].
  - destruct (disposeEnd_spec cfg pubkey s pk) as (Ht & _ & _ & Hne).
    destruct (decide (pk = pubkey)) as [->|Hd].
    + right. by intros [? _]%Ht.
    + destruct Hex as [Hin | Hnt]; [left; by apply Hne | right].
      by intros [_ ?]%Ht.
  - done.
  - right. unfold tracked. simpl. by intros ?%elem_of_nil.
  - right. unfold tracked. simpl. by intros ?%elem_of_nil.
  - destruct (query_state cfg getBurnerCooldown draw now count emergencyMode s)
      as [-> | ->]; [done|].
    destruct (cleanup_keeps now s pk) as (Hk & _).
    destruct (decide (pk ∈ (burnerWallets (cleanupBurners now s)).*1)) as [Ht | Hnt].
    + destruct (Hk Ht) as (Hts & Hp & _). destruct Hex; [left; auto | done].
    + by right.
Qed.

Lemma exec_answer cfg op s pk b :
  excluded pk s -> b ∈ (exec cfg op s).2 -> b_pubkey b ≠ pk.
Proof.
  intros Hex Hin. destruct op; simpl in Hin; try by apply elem_of_nil in Hin.
  pose proof (exec_excluded cfg (OpGetAvailable getBurnerCooldown draw now count
                                   emergencyMode) s pk eq_refl Hex) as Hex'.
  simpl in Hex'.
  destruct (query_eligible _ _ _ _ _ _ _ _ Hin) as (Ht & Hp & _).
  intros <-. destruct Hex'; done.
Qed.

Lemma run_cons cfg op ops s :
  run cfg (op :: ops) s =
    ((run cfg ops (exec cfg op s).1).1,
     match op with
     | OpGetAvailable _ _ _ _ _ => (exec cfg op s).2 :: (run cfg ops (exec cfg op s).1).2
     | _ => (run cfg ops (exec cfg op s).1).2
     end).
Proof.
  simpl. destruct (exec cfg op s) as [s1 answer]. simpl.
  by destruct (run cfg ops s1) as [s2 answers].
Qed.

Lemma run_answers cfg ops s pk answer :
  forallb (fun op => negb (creates pk op)) ops = true ->
  excluded pk s -> answer ∈ (run cfg ops s).2 -> pk ∉ b_pubkey <$> answer.
Proof.
  revert s. induction ops as [|op ops IH]; intros s Hno Hex Hin.
  - by apply elem_of_nil in Hin.
  - simpl in Hno. apply andb_true_iff in Hno as [Hop Hno].
    apply negb_true_iff in Hop.
    rewrite run_cons in Hin. simpl in Hin.
    pose proof (exec_excluded cfg op s pk Hop Hex) as Hex'.
    assert (Hrest : answer ∈ (run cfg ops (exec cfg op s).1).2 -> pk ∉ b_pubkey <$> answer)
      by (by apply IH).
    destruct op; try (by apply Hrest).
    apply elem_of_cons in Hin as [-> | Hin]; [|by apply Hrest].
    intros Hmem. apply list_elem_of_fmap in Hmem as (b & Hb & Hbin).
    by apply (exec_answer cfg _ s pk b Hex Hbin).
Qed.

(** Every call keeps the cap invariant, the lifetime being positive. *)
Lemma exec_cap cfg op s :
  0 < bwcBurnerLifetimeTxs cfg -> capInvariant cfg s -> capInvariant cfg (exec cfg op s).1.
Proof.
  intros Hpos Hinv. destruct op; simpl.
  - intros pk Ht Hcap. unfold tracked in Ht. simpl in *.
    apply keys_mapSet in Ht. unfold getOr0 in Hcap.
    destruct (decide (pk = pubkey)) as [->|Hne].
    + rewrite lookup_insert_eq in Hcap. simpl in Hcap. lia.
    + rewrite lookup_insert_ne in Hcap by done. apply Hinv; [|done].
      destruct Ht; done.
  - unfold createBurnerWalletEnd. destruct fundingSuccess; [done|].
    intros pk Ht Hcap. unfold tracked in Ht. simpl in *.
    apply keys_mapDelete in Ht as [Hne Ht]. unfold getOr0 in Hcap.
    rewrite lookup_delete_ne in Hcap by done. by apply Hinv.
  - destruct (mark_spec cfg pubkey txCount now s) as (Hw & Hp & Hne & Hk & Hnt).
    intros pk Ht Hcap. unfold tracked in Ht. rewrite Hw in Ht.
    destruct (decide (pk = pubkey)) as [->|Hd].
    + destruct (Hk Ht) as [Heq Hsched]. apply Hsched. by rewrite <- Heq.
    + rewrite Hne in Hcap by done. apply Hp. by apply Hinv.
  - destruct (schedule_spec pubkey s) as (Hw & Hc & Hp & _).
    intros pk Ht Hcap. unfold tracked in Ht. rewrite Hw in Ht. rewrite Hc in Hcap.
    apply Hp. by apply Hinv.
  - intros pk Ht Hcap.
    destruct (dispose_spec cfg pubkey s pk) as (Hts & Hk & _ & _ & Hne).
    destruct (decide (pk = pubkey)) as [->|Hd].
    + exfalso. by apply (Hk (Hts Ht)).
    + destruct (Hne Hd) as [Hp Hc]. rewrite Hc in Hcap. apply Hp. by apply Hinv; [apply Hts|].
  - intros pk Ht Hcap.
    destruct (disposeEnd_spec cfg pubkey s pk) as (Hts & _ & _ & Hne).
    apply Hts in Ht as [Hd Ht].
    destruct (Hne Hd) as [Hp Hc]. rewrite Hc in Hcap. apply Hp. by apply Hinv.
  - intros pk Ht Hcap. unfold tracked in Ht. simpl in *.
    rewrite getOr0_capAt in Hcap by lia.
    apply Hinv; [done|]. pose proof (capAt_le 100 (getOr0 (burnerTradeCount s) pk)). lia.
  - intros pk Ht. unfold tracked in Ht. simpl in Ht. by apply elem_of_nil in Ht.
  - intros pk Ht. unfold tracked in Ht. simpl in Ht. by apply elem_of_nil in Ht.
  - destruct (query_state cfg getBurnerCooldown draw now count emergencyMode s)
      as [-> | ->]; [done|].
    intros pk Ht Hcap.
    destruct (cleanup_keeps now s pk) as (Hk & _).
    destruct (Hk Ht) as (Hts & Hp & Hc & _). rewrite Hc in Hcap.
    apply Hp. apply Hinv; [done|].
    pose proof (capAt_le 100 (getOr0 (burnerTradeCount s) pk)). lia.
Qed.

Lemma sweep_timers now (l : list (string * WalletData)) s :
  disposalTimers
    (foldl (fun st entry =>
              if EXPIRY_TIME <? now - created entry.2 then forget entry.1 st else st)
           s l) = disposalTimers s.
Proof.
  revert s. induction l as [|e l IH]; intros s; simpl; [done|].
  destruct (EXPIRY_TIME <? now - created e.2); by rewrite IH.
Qed.

Lemma schedule_timers k s :
  timerInvariant s -> timerInvariant (scheduleBurnerDisposal k s).
Proof.
  intros Hinv. unfold scheduleBurnerDisposal.
  destruct (negb (mapHas k (burnerWallets s)) || _); [done|].
  intros pk Hin. simpl in *. apply elem_of_app.
  apply elem_of_union in Hin as [Hin | Hin%elem_of_singleton].
  - left. by apply Hinv.
  - right. subst. by apply list_elem_of_singleton.
Qed.

Lemma mark_timers cfg k n now s :
  timerInvariant s -> timerInvariant (markBurnerUsed cfg k n now s).
Proof.
  intros Hinv. unfold markBurnerUsed.
  destruct (negb (mapHas k (burnerWallets s))); [done|].
  match goal with
  | |- timerInvariant (if _ then scheduleBurnerDisposal k ?s2 else ?s2) =>
      assert (Hs2 : timerInvariant s2)
  end.
  { unfold markBurnerSeasoningProgress.
    destruct (enableBurnerSeasoning cfg); simpl; exact Hinv. }
  destruct (_ <=? _); [by apply schedule_timers | done].
Qed.

(** Every call keeps it true that a pending burner has its timer armed. *)
Lemma exec_timers cfg op s :
  timerInvariant s -> timerInvariant (exec cfg op s).1.
Proof.
  intros Hinv. destruct op; simpl.
  - exact Hinv.
  - unfold createBurnerWalletEnd. destruct fundingSuccess; exact Hinv.
  - by apply mark_timers.
  - by apply schedule_timers.
  - intros pk Hin.
    destruct (dispose_spec cfg pubkey s pk) as (_ & _ & Hp & -> & _). by apply Hinv, Hp.
  - intros pk Hin.
    destruct (disposeEnd_spec cfg pubkey s pk) as (_ & Hp & -> & _). by apply Hinv, Hp.
  - exact Hinv.
  - intros pk Hin. simpl in Hin. by apply elem_of_empty in Hin.
  - intros pk Hin. simpl in Hin. by apply elem_of_empty in Hin.
  - destruct (query_state cfg getBurnerCooldown draw now count emergencyMode s)
      as [-> | ->]; [done|].
    intros pk Hin. destruct (cleanup_keeps now s pk) as (_ & Hp).
    unfold cleanupBurners. simpl. rewrite sweep_timers. by apply Hinv, Hp.
Qed.

Lemma run_timers cfg ops s :
  timerInvariant s -> timerInvariant (run cfg ops s).1.
Proof.
  revert s. induction ops as [|op ops IH]; intros s Hinv; [done|].
  rewrite run_cons. simpl. apply IH. by apply exec_timers.
Qed.

Lemma constructor_timers : timerInvariant constructor.
Proof. intros pk Hin. simpl in Hin. by apply elem_of_empty in Hin. Qed.

Lemma run_cap cfg ops s :
  0 < bwcBurnerLifetimeTxs cfg -> capInvariant cfg s -> capInvariant cfg (run cfg ops s).1.
Proof.
  intros Hpos. revert s. induction ops as [|op ops IH]; intros s Hinv; [done|].
  rewrite run_cons. simpl. apply IH. by apply exec_cap.
Qed.

Lemma constructor_cap cfg : capInvariant cfg constructor.
Proof. intros pk Ht. unfold tracked in Ht. simpl in Ht. by apply elem_of_nil in Ht. Qed.

(** C4.  Let the lifetime cap be positive and start from a state in which
    every tracked burner at or past the cap is pending disposal and every
    pending burner has its disposal timer armed (the fresh manager is one).
    After any sequence of calls of the manager both still hold.  In the
    state reached, [markBurnerUsed] on a tracked burner adds the
    transactions to its count and, when the new count reaches or passes the
    cap, leaves the burner in the pending-disposal set with its timer
    armed; and a burner that [getAvailableBurners] returns has a count
    below the cap, both as reported and as stored before the query. *)
Theorem C4_cap_schedules_disposal (cfg : Config) (ops : list Op) (s : State) :
  0 < bwcBurnerLifetimeTxs cfg ->
  capInvariant cfg s ->
  timerInvariant s ->
  capInvariant cfg (run cfg ops s).1 /\
  timerInvariant (run cfg ops s).1 /\
  (forall pubkey txCount now,
     tracked pubkey (run cfg ops s).1 ->
     getOr0 (burnerTradeCount (markBurnerUsed cfg pubkey txCount now (run cfg ops s).1))
       pubkey = getOr0 (burnerTradeCount (run cfg ops s).1) pubkey + txCount /\
     (bwcBurnerLifetimeTxs cfg
        <= getOr0 (burnerTradeCount (run cfg ops s).1) pubkey + txCount ->
      pubkey ∈ pendingDisposal (markBurnerUsed cfg pubkey txCount now (run cfg ops s).1) /\
      pubkey ∈ disposalTimers (markBurnerUsed cfg pubkey txCount now (run cfg ops s).1))) /\
  (forall cooldown draw now count emergency b,
     b ∈ (getAvailableBurners cfg cooldown draw now count emergency (run cfg ops s).1).2 ->
     b_txCount b < bwcBurnerLifetimeTxs cfg /\
     getOr0 (burnerTradeCount (run cfg ops s).1) (b_pubkey b) < bwcBurnerLifetimeTxs cfg).
Proof.
  intros Hpos Hinv Htim.
  pose proof (run_cap cfg ops s Hpos Hinv) as Hinv'.
  pose proof (run_timers cfg ops s Htim) as Htim'.
  set (s' := (run cfg ops s).1) in *.
  split; [done|]. split; [done|]. split.
  - intros pubkey txCount now Ht.
    destruct (mark_spec cfg pubkey txCount now s') as (_ & _ & _ & Hk & _).
    destruct (Hk Ht) as [Hcount Hpend]. split; [done|].
    intros Hcap. split; [by apply Hpend|].
    by apply (mark_timers cfg pubkey txCount now s' Htim'), Hpend.
  - intros cooldown draw now count emergency b Hin.
    destruct (query_answer _ _ _ _ _ _ _ _ Hin) as (_ & e & He & Hex).
    apply examine_Some in Hex as (Hk & _ & Hp & _ & _ & _ & Hlt & _).
    split; [done|].
    destruct (Z.lt_ge_cases (getOr0 (burnerTradeCount s') (b_pubkey b))
                (bwcBurnerLifetimeTxs cfg)) as [|Hge]; [done|].
    exfalso. apply Hp.
    assert (Ht : tracked e.1 (cleanupBurners now s')).
    { unfold tracked. apply list_elem_of_fmap. by exists e. }
    destruct (cleanup_keeps now s' e.1) as (Hkeep & _).
    destruct (Hkeep Ht) as (Hts & Hpend & _).
    apply Hpend, Hinv'; [done|]. by rewrite <- Hk.
Qed.

(** C4 on two burners created on a fresh manager, the first of which is
    used three times and then twice. *)
Lemma C4_cap_schedules_disposal_witness :
  capInvariant hybridConfig (run hybridConfig useThenQuery twoBurners).1 /\
  timerInvariant (run hybridConfig useThenQuery twoBurners).1.
Proof.
  refine (let H := C4_cap_schedules_disposal hybridConfig useThenQuery twoBurners _ _ _ in
          conj (proj1 H) (proj1 (proj2 H))).
  - reflexivity.
  - apply (exec_cap hybridConfig (OpCreateBegin "BurnerB" _)); [reflexivity|].
    apply (exec_cap hybridConfig (OpCreateBegin "BurnerA" _)); [reflexivity|].
    apply constructor_cap.
  - apply (exec_timers hybridConfig (OpCreateBegin "BurnerB" _)).
    apply (exec_timers hybridConfig (OpCreateBegin "BurnerA" _)).
    apply constructor_timers.
Defined.

(** C7 at a query for four burners on a manager that tracks two eligible
    ones.  The answer lists them in the order of their creation, although
    the draws given would make [shuffleArray] exchange them: the array that
    [shuffleArray] returns is not used, so the answer of any query is the
    same for every sequence of draws. *)
Theorem C7_shuffle_result_dropped :
  b_pubkey <$> (getAvailableBurners hybridConfig fortySeconds drawZero
                  100000 4 false twoBurners).2 = ["BurnerA"; "BurnerB"] /\
  b_pubkey <$> shuffleArray drawZero
                 (getAvailableBurners hybridConfig fortySeconds drawZero
                    100000 4 false twoBurners).2 = ["BurnerB"; "BurnerA"] /\
  (forall cfg cooldown draw draw' now count emergency s,
     getAvailableBurners cfg cooldown draw now count emergency s
     = getAvailableBurners cfg cooldown draw' now count emergency s).
Proof. split; [by vm_compute|]. split; [by vm_compute|]. intros. reflexivity. Qed.

(** C10.  Scheduling the disposal of a tracked burner puts it in the
    pending-disposal set, and from then on no [getAvailableBurners] returns
    it, whatever calls of the manager come in between (uses, queries,
    cleanups, its disposal), as long as no burner is created again under
    the same public key. *)
Theorem C10_pending_never_available (cfg : Config) (s : State) (pubkey : string)
    (ops : list Op) :
  tracked pubkey s ->
  forallb (fun op => negb (creates pubkey op)) ops = true ->
  pubkey ∈ pendingDisposal (scheduleBurnerDisposal pubkey s) /\
  (forall answer,
     answer ∈ (run cfg ops (scheduleBurnerDisposal pubkey s)).2 ->
     pubkey ∉ b_pubkey <$> answer).
Proof.
  intros Ht Hno.
  destruct (schedule_spec pubkey s) as (_ & _ & _ & Hp).
  split; [by apply Hp|].
  intros answer. apply run_answers; [done|]. left. by apply Hp.
Qed.

(** C10 on the example: the first burner is scheduled, then used and queried. *)
Lemma C10_pending_never_available_witness :
  "BurnerA" ∈ pendingDisposal (scheduleBurnerDisposal "BurnerA" twoBurners).
Proof.
  refine (proj1 (C10_pending_never_available hybridConfig twoBurners "BurnerA"
                   useThenQuery _ _)).
  - apply mapHas_true. reflexivity.
  - reflexivity.
Defined.

End BurnerWalletManagerProofs.

(** ** Funding: locks, exits and confirmations *)

Module WalletManagerProofs.
Import WalletManager.

Lemma lockKey_inj w1 w2 : lockKey w1 = lockKey w2 -> pubkey w1 = pubkey w2.
Proof. unfold lockKey. simpl. intros H. by simplify_eq. Qed.

(** The three ways a call can begin. *)
Lemma resume_called fundAmount r w sh :
  (((pubkey w ∈ funded sh) \/ (lockKey w ∈ fundingLocks sh)) /\
   resume fundAmount r (Called w) sh = (Settled, sh, [])) \/
  ((pubkey w ∉ funded sh) /\ (lockKey w ∉ fundingLocks sh) /\ privateKeyValid w = true /\
   resume fundAmount r (Called w) sh = (AwaitBalance w, addLock w sh, [])) \/
  ((pubkey w ∉ funded sh) /\ (lockKey w ∉ fundingLocks sh) /\ privateKeyValid w = false /\
   resume fundAmount r (Called w) sh = (Settled, deleteLock w (addLock w sh), [])).
Proof.
  simpl. case_bool_decide as Hf; simpl.
  { left. split; [by left | done]. }
  case_bool_decide as Hl; simpl.
  { left. split; [by right | done]. }
  right. destruct (privateKeyValid w); [left | right]; done.
Qed.

Lemma loopHead_cases r w balance remaining parts p sh :
  (exists f, loopHead r w balance remaining parts p sh = (AwaitSend f, sh, [sendEvent f]) /\
             f_wallet f = w /\ f_parts f = parts /\ f_p f = p /\ f_retry f = 0%nat /\
             (p < parts)%nat) \/
  loopHead r w balance remaining parts p sh
    = (Settled, deleteLock w (addFunded w sh), [MarkedFunded (pubkey w)]).
Proof.
  unfold loopHead. destruct (Nat.ltb_spec p parts); simpl; [|by right].
  destruct (MIN_SOL_BUFFER_LAMPORTS <? remaining); [|by right].
  left. eexists. split; [done|]. done.
Qed.

Lemma nextRetry_cases r f txSuccess sh :
  (nextRetry r f txSuccess sh = (AwaitSend (setRetry (S (f_retry f)) f), sh, [sendEvent f]) /\
   (S (f_retry f) <= maxRetries)%nat /\ txSuccess = false) \/
  (nextRetry r f txSuccess sh
     = loopHead r (f_wallet f) (f_balance f) (f_remaining f) (f_parts f) (S (f_p f)) sh /\
   ((maxRetries < S (f_retry f))%nat \/ txSuccess = true)).
Proof.
  unfold nextRetry. destruct (Nat.leb_spec (S (f_retry f)) maxRetries); simpl.
  - destruct txSuccess; simpl; [right | left]; auto.
  - right. split; [done | by left].
Qed.

(** A call in flight for [w] either stays in flight for [w] and leaves the
    shared sets alone, or returns and releases the lock of [w]. *)
Lemma resume_inFlight fundAmount r t sh w :
  inFlight t = Some w ->
  (inFlight (resume fundAmount r t sh).1.1 = Some w /\ (resume fundAmount r t sh).1.2 = sh) \/
  ((resume fundAmount r t sh).1.1 = Settled /\
   fundingLocks (resume fundAmount r t sh).1.2 = fundingLocks sh ∖ {[lockKey w]}).
Proof.
  assert (Hloop : forall w' balance remaining parts p,
    (inFlight (loopHead r w' balance remaining parts p sh).1.1 = Some w' /\
     (loopHead r w' balance remaining parts p sh).1.2 = sh) \/
    ((loopHead r w' balance remaining parts p sh).1.1 = Settled /\
     fundingLocks (loopHead r w' balance remaining parts p sh).1.2
       = fundingLocks sh ∖ {[lockKey w']})).
  { intros w' balance remaining parts p.
    destruct (loopHead_cases r w' balance remaining parts p sh)
      as [(f & -> & Hw & _) | ->]; simpl; [left | right]; by subst. }
  assert (Hnext : forall f txSuccess,
    (inFlight (nextRetry r f txSuccess sh).1.1 = Some (f_wallet f) /\
     (nextRetry r f txSuccess sh).1.2 = sh) \/
    ((nextRetry r f txSuccess sh).1.1 = Settled /\
     fundingLocks (nextRetry r f txSuccess sh).1.2
       = fundingLocks sh ∖ {[lockKey (f_wallet f)]})).
  { intros f txSuccess.
    destruct (nextRetry_cases r f txSuccess sh) as [[-> _] | [-> _]]; [by left|].
    apply Hloop. }
  assert (Hback : forall f,
    (inFlight (backoffOrNext r f sh).1.1 = Some (f_wallet f) /\
     (backoffOrNext r f sh).1.2 = sh) \/
    ((backoffOrNext r f sh).1.1 = Settled /\
     fundingLocks (backoffOrNext r f sh).1.2
       = fundingLocks sh ∖ {[lockKey (f_wallet f)]})).
  { intros f. unfold backoffOrNext. destruct (f_retry f <? maxRetries)%nat; [by left|].
    apply Hnext. }
  destruct t; simpl; intros Hw; simplify_eq.
  - destruct (r_balance r) as [balance|]; [|by right].
    destruct (Z.quot (fundAmount * 8) 10 <=? balance); [by right|]. apply Hloop.
  - destruct (r_send r); [by left | apply Hback].
  - destruct (r_confirm r); [by left | by left | apply Hback].
  - destruct (verifyTransaction _ _ _ _); [by left | apply Hback | apply Hback].
  - apply Hnext.
  - apply Hnext.
Qed.

(** Transfers are submitted by calls in flight only, and a transfer is
    counted as delivered only on a confirmation or a successful verification. *)
Lemma resume_events fundAmount r t sh ev :
  ev ∈ (resume fundAmount r t sh).2 ->
  match ev with
  | Sent recipient _ _ => exists w, inFlight t = Some w /\ pubkey w = recipient
  | Delivered recipient lamports basis =>
      (exists f sig, t = AwaitConfirm f sig /\ r_confirm r = ConfirmOk /\
                     basis = ByConfirmation /\ lamports = f_cappedPart f) \/
      (exists f sig, t = AwaitVerify f sig /\ basis = ByVerification /\
                     lamports = f_cappedPart f /\
                     verifyTransaction (r_status r) (r_verifyBalance r) (f_cappedPart f)
                       (f_balance f + fundAmount - f_remaining f) = VerifiedSuccess)
  | MarkedFunded recipient => exists w, inFlight t = Some w /\ pubkey w = recipient
  end.
Proof.
  assert (Hloop : forall w' balance remaining parts p e,
    e ∈ (loopHead r w' balance remaining parts p sh).2 ->
    e = MarkedFunded (pubkey w') \/ exists rel amt, e = Sent (pubkey w') rel amt).
  { intros w' balance remaining parts p e.
    destruct (loopHead_cases r w' balance remaining parts p sh)
      as [(f & -> & Hw & _) | ->]; simpl; intros He%list_elem_of_singleton; subst.
    - right. by eexists _, _.
    - by left. }
  assert (Hnext : forall f txSuccess e,
    e ∈ (nextRetry r f txSuccess sh).2 ->
    e = MarkedFunded (pubkey (f_wallet f)) \/
    exists rel amt, e = Sent (pubkey (f_wallet f)) rel amt).
  { intros f txSuccess e.
    destruct (nextRetry_cases r f txSuccess sh) as [[-> _] | [-> _]]; [|apply Hloop].
    simpl. intros ->%list_elem_of_singleton. right. by eexists _, _. }
  assert (Hback : forall f e,
    e ∈ (backoffOrNext r f sh).2 ->
    e = MarkedFunded (pubkey (f_wallet f)) \/
    exists rel amt, e = Sent (pubkey (f_wallet f)) rel amt).
  { intros f e. unfold backoffOrNext. destruct (f_retry f <? maxRetries)%nat.
    - simpl. by intros ?%elem_of_nil.
    - apply Hnext. }
  assert (Hfin : forall w' e,
    inFlight t = Some w' ->
    e = MarkedFunded (pubkey w') \/ (exists rel amt, e = Sent (pubkey w') rel amt) ->
    match e with
    | Sent recipient _ _ => exists w, inFlight t = Some w /\ pubkey w = recipient
    | Delivered _ _ _ => False
    | MarkedFunded recipient => exists w, inFlight t = Some w /\ pubkey w = recipient
    end).
  { intros w' e Hw [-> | (rel & amt & ->)]; by exists w'. }
  assert (Hweak : forall e : Event,
    match e with
    | Sent recipient _ _ => exists w, inFlight t = Some w /\ pubkey w = recipient
    | Delivered _ _ _ => False
    | MarkedFunded recipient => exists w, inFlight t = Some w /\ pubkey w = recipient
    end ->
    match e with
    | Sent recipient _ _ => exists w, inFlight t = Some w /\ pubkey w = recipient
    | Delivered recipient lamports basis =>
        (exists f sig, t = AwaitConfirm f sig /\ r_confirm r = ConfirmOk /\
                       basis = ByConfirmation /\ lamports = f_cappedPart f) \/
        (exists f sig, t = AwaitVerify f sig /\ basis = ByVerification /\
                       lamports = f_cappedPart f /\
                       verifyTransaction (r_status r) (r_verifyBalance r) (f_cappedPart f)
                         (f_balance f + fundAmount - f_remaining f) = VerifiedSuccess)
    | MarkedFunded recipient => exists w, inFlight t = Some w /\ pubkey w = recipient
    end).
  { intros [] He; done. }
  destruct t; simpl.
  - repeat case_match; simpl; by intros ?%elem_of_nil.
  - destruct (r_balance r) as [balance|]; [|by intros ?%elem_of_nil].
    destruct (Z.quot (fundAmount * 8) 10 <=? balance).
    + intros ->%list_elem_of_singleton. by eexists.
    + intros He. apply Hweak, (Hfin wallet); [done|]. by apply Hloop in He.
  - destruct (r_send r); [by intros ?%elem_of_nil|].
    intros He. apply Hweak, (Hfin (f_wallet f)); [done|]. by apply Hback in He.
  - destruct (r_confirm r) eqn:Hc.
    + intros ->%list_elem_of_singleton. left. by eexists _, _.
    + by intros ?%elem_of_nil.
    + intros He. apply Hweak, (Hfin (f_wallet f)); [done|]. by apply Hback in He.
  - destruct (verifyTransaction _ _ _ _) eqn:Hv.
    + intros ->%list_elem_of_singleton. right. by eexists _, _.
    + intros He. apply Hweak, (Hfin (f_wallet f)); [done|]. by apply Hback in He.
    + intros He. apply Hweak, (Hfin (f_wallet f)); [done|]. by apply Hback in He.
  - intros He. apply Hweak, (Hfin (f_wallet f)); [done|]. by apply Hnext in He.
  - intros He. apply Hweak, (Hfin (f_wallet f)); [done|]. by apply Hnext in He.
  - by intros ?%elem_of_nil.
Qed.

Lemma loopHead_weight r w balance remaining parts p sh :
  (weight (loopHead r w balance remaining parts p sh).1.1 <= (parts - p) * 20 + 19)%nat /\
  ((parts <= p)%nat -> weight (loopHead r w balance remaining parts p sh).1.1 = 0%nat).
Proof.
  destruct (loopHead_cases r w balance remaining parts p sh)
    as [(f & -> & _ & Hparts & Hp & Hretry & Hlt) | ->]; simpl.
  - unfold frameWeight. rewrite Hparts, Hp, Hretry. lia.
  - lia.
Qed.

Lemma nextRetry_weight r f txSuccess sh :
  (weight (nextRetry r f txSuccess sh).1.1 < frameWeight f 1)%nat.
Proof.
  destruct (nextRetry_cases r f txSuccess sh) as [(-> & Hle & _) | [-> _]]; simpl.
  - unfold frameWeight, maxRetries in *. simpl. lia.
  - destruct (loopHead_weight r (f_wallet f) (f_balance f) (f_remaining f)
                (f_parts f) (S (f_p f)) sh) as [Hle Hzero].
    unfold frameWeight.
    destruct (Nat.le_gt_cases (f_parts f) (S (f_p f))) as [Hge | Hlt].
    + rewrite (Hzero Hge). lia.
    + lia.
Qed.

Lemma backoffOrNext_weight r f sh :
  (weight (backoffOrNext r f sh).1.1 < frameWeight f 2)%nat.
Proof.
  unfold backoffOrNext. destruct (f_retry f <? maxRetries)%nat; simpl.
  - unfold frameWeight. lia.
  - pose proof (nextRetry_weight r f false sh). unfold frameWeight in *. lia.
Qed.

(** Every resumption of a pending call brings it closer to its return. *)
Lemma resume_weight fundAmount r t sh :
  t ≠ Settled -> (weight (resume fundAmount r t sh).1.1 < weight t)%nat.
Proof.
  intros Hne. destruct t; try done.
  - simpl. repeat case_match; simpl; lia.
  - unfold resume. change (weight (AwaitBalance wallet)) with 101%nat.
    destruct (r_balance r) as [balance|]; [|simpl; lia].
    destruct (Z.quot (fundAmount * 8) 10 <=? balance); [simpl; lia|].
    destruct (loopHead_weight r wallet balance (fundAmount - balance)
                (r_partsDraw r mod 4 + 1) 0 sh) as [Hle _].
    pose proof (Nat.mod_upper_bound (r_partsDraw r) 4). lia.
  - simpl. destruct (r_send r); simpl.
    + unfold frameWeight. lia.
    + pose proof (backoffOrNext_weight r f sh). unfold frameWeight in *. lia.
  - simpl. destruct (r_confirm r); simpl.
    + unfold frameWeight. simpl. lia.
    + unfold frameWeight. lia.
    + pose proof (backoffOrNext_weight r f sh). unfold frameWeight in *. lia.
  - simpl. destruct (verifyTransaction _ _ _ _); simpl.
    + unfold frameWeight. simpl. lia.
    + pose proof (backoffOrNext_weight r f sh). unfold frameWeight in *. lia.
    + pose proof (backoffOrNext_weight r f sh). unfold frameWeight in *. lia.
  - apply nextRetry_weight.
  - apply nextRetry_weight.
Qed.

Lemma drive_cons fundAmount answers fuel t sh :
  drive fundAmount answers (S fuel) t sh =
    let step := resume fundAmount (answers 0%nat) t sh in
    let rest := drive fundAmount (fun n => answers (S n)) fuel step.1.1 step.1.2 in
    (rest.1.1, rest.1.2, step.2 ++ rest.2).
Proof.
  simpl. destruct (resume fundAmount (answers 0%nat) t sh) as [[t1 sh1] evs1]. simpl.
  by destruct (drive fundAmount _ fuel t1 sh1) as [[t2 sh2] evs2].
Qed.

(** A call run alone returns within [weight] resumptions, whatever the
    connection answers. *)
Lemma drive_settles fundAmount fuel :
  forall answers t sh, (weight t <= fuel)%nat ->
    (drive fundAmount answers fuel t sh).1.1 = Settled.
Proof.
  induction fuel as [|fuel IH]; intros answers t sh Hw.
  - destruct t; simpl in *; unfold frameWeight in *; try lia; done.
  - rewrite drive_cons. simpl. apply IH.
    assert (Hcase : t = Settled \/ t ≠ Settled) by (destruct t; auto).
    destruct Hcase as [->|Hne]; [simpl; lia|].
    pose proof (resume_weight fundAmount (answers 0%nat) t sh Hne). lia.
Qed.

(** The lock of [w] along a call for [w] that found it free. *)
Lemma drive_lock fundAmount w fuel :
  forall answers t sh,
    (t = Called w /\ lockKey w ∉ fundingLocks sh) \/ inFlight t = Some w \/
    (t = Settled /\ lockKey w ∉ fundingLocks sh) ->
    (drive fundAmount answers fuel t sh).1.1 = Settled ->
    lockKey w ∉ fundingLocks (drive fundAmount answers fuel t sh).1.2.
Proof.
  induction fuel as [|fuel IH]; intros answers t sh Hq Hend.
  - simpl in *. subst. destruct Hq as [[? _] | [? | [_ ?]]]; done.
  - rewrite drive_cons in *. simpl in *. apply IH; [|done].
    destruct Hq as [[-> Hfree] | [Hfl | [-> Hfree]]].
    + destruct (resume_called fundAmount (answers 0%nat) w sh)
        as [[_ ->] | [(_ & _ & _ & ->) | (_ & _ & _ & ->)]]; simpl.
      * right; right. done.
      * right; left. done.
      * right; right. split; [done|]. set_solver.
    + destruct (resume_inFlight fundAmount (answers 0%nat) t sh w Hfl)
        as [[Hin _] | [Hs Hl]].
      * right; left. done.
      * right; right. split; [done|]. rewrite Hl. set_solver.
    + right; right. done.
Qed.

Lemma lookup_schedule (l : list Task) i t' k :
  (i < length l)%nat ->
  <[i:=t']> l !! k = if decide (k = i) then Some t' else l !! k.
Proof.
  intros Hlt. case_decide as Hd.
  - subst. by apply list_lookup_insert_eq.
  - by apply list_lookup_insert_ne.
Qed.

Lemma schedule_discipline fundAmount i r sys :
  lockDiscipline sys -> lockDiscipline (schedule fundAmount i r sys).
Proof.
  intros [Hlock Hexcl]. unfold schedule.
  destruct (tasks sys !! i) as [t|] eqn:Hi; [|done].
  pose proof (lookup_lt_Some _ _ _ Hi) as Hlen.
  destruct (resume fundAmount r t (shared sys)) as [[t' sh'] evs] eqn:Hres.
  assert (Hcase :
    (inFlight t' = inFlight t /\ sh' = shared sys) \/
    (exists w, inFlight t = Some w /\ t' = Settled /\
               fundingLocks sh' = fundingLocks (shared sys) ∖ {[lockKey w]}) \/
    (exists w, t = Called w /\ inFlight t' = None /\
               (forall key, key ∈ fundingLocks (shared sys) -> key ∈ fundingLocks sh')) \/
    (exists w, t = Called w /\ t' = AwaitBalance w /\
               (lockKey w ∉ fundingLocks (shared sys)) /\ sh' = addLock w (shared sys))).
  { destruct (inFlight t) as [w|] eqn:Hfl.
    - destruct (resume_inFlight fundAmount r t (shared sys) w Hfl) as [[H1 H2] | [H1 H2]];
        rewrite Hres in H1, H2; simpl in *.
      + left. by subst.
      + right; left. by exists w.
    - destruct t; simpl in Hfl; try done.
      + destruct (resume_called fundAmount r wallet (shared sys))
          as [[_ Heq] | [(_ & Hfree & _ & Heq) | (_ & Hfree & _ & Heq)]];
          rewrite Hres in Heq; simplify_eq.
        * left. done.
        * right; right; right. by exists wallet.
        * right; right; left. exists wallet. split; [done|]. split; [done|].
          intros key Hkey. simpl. set_solver.
      + simpl in Hres. simplify_eq. by left. }
  split; simpl.
  - intros k tk wk Hk Hflk. rewrite lookup_schedule in Hk by done.
    destruct Hcase as [[Hsame ->] | [(w & Hfl & -> & Hl) | [(w & -> & Hnone & Hsub)
                      | (w & -> & -> & Hfree & ->)]]].
    + case_decide; simplify_eq; [|by eapply Hlock].
      apply (Hlock i t wk); [done | congruence].
    + case_decide; simplify_eq. rewrite Hl.
      assert (lockKey wk ≠ lockKey w).
      { intros Heq%lockKey_inj. by pose proof (Hexcl _ _ _ _ _ _ Hk Hi Hflk Hfl Heq). }
      pose proof (Hlock _ _ _ Hk Hflk). set_solver.
    + case_decide; simplify_eq. apply Hsub. by eapply Hlock.
    + case_decide; simplify_eq; simpl in *.
      * simplify_eq. set_solver.
      * pose proof (Hlock _ _ _ Hk Hflk). set_solver.
  - intros k l tk tl wk wl Hk Hl Hflk Hfll Hpk.
    rewrite lookup_schedule in Hk, Hl by done.
    destruct Hcase as [[Hsame ->] | [(w & Hfl & -> & Hlk) | [(w & -> & Hnone & Hsub)
                      | (w & -> & -> & Hfree & ->)]]].
    + assert (Hold : forall m tm wm,
                (if decide (m = i) then Some t' else tasks sys !! m) = Some tm ->
                inFlight tm = Some wm ->
                exists tm0, tasks sys !! m = Some tm0 /\ inFlight tm0 = Some wm).
      { intros m tm wm Hm Hflm. case_decide; simplify_eq.
        - exists t. split; [done | congruence].
        - by exists tm. }
      destruct (Hold _ _ _ Hk Hflk) as (tk0 & Hk0 & Hflk0).
      destruct (Hold _ _ _ Hl Hfll) as (tl0 & Hl0 & Hfll0).
      by eapply (Hexcl k l).
    + destruct (decide (k = i)) as [->|Hki]; [by simplify_eq/=|].
      destruct (decide (l = i)) as [->|Hli]; [by simplify_eq/=|].
      by eapply (Hexcl k l).
    + destruct (decide (k = i)) as [->|Hki]; [simplify_eq/=; congruence|].
      destruct (decide (l = i)) as [->|Hli]; [simplify_eq/=; congruence|].
      by eapply (Hexcl k l).
    + assert (Hfresh : forall m tm wm, tasks sys !! m = Some tm -> inFlight tm = Some wm ->
                pubkey wm ≠ pubkey w).
      { intros m tm wm Hm Hflm Heq. apply Hfree.
        pose proof (Hlock _ _ _ Hm Hflm) as Hin. unfold lockKey in *. by rewrite <- Heq. }
      destruct (decide (k = i)); destruct (decide (l = i)); simplify_eq; simpl in *;
        simplify_eq.
      * done.
      * exfalso. by eapply (Hfresh l).
      * exfalso. by eapply (Hfresh k).
      * by eapply (Hexcl k l).
Qed.

Lemma runSchedule_discipline fundAmount steps :
  forall sys, lockDiscipline sys -> lockDiscipline (runSchedule fundAmount steps sys).
Proof.
  unfold runSchedule. induction steps as [|[i r] steps IH]; intros sys Hd; [done|].
  simpl. apply IH. by apply schedule_discipline.
Qed.

Lemma initial_discipline alreadyFunded batch :
  lockDiscipline (initial alreadyFunded batch).
Proof.
  assert (Hnone : forall i t w,
    tasks (initial alreadyFunded batch) !! i = Some t -> inFlight t = Some w -> False).
  { intros i t w Hi Hfl. simpl in Hi. rewrite list_lookup_fmap in Hi.
    destruct (batch !! i); by simplify_eq/=. }
  split.
  - intros i t w Hi Hfl. by destruct (Hnone i t w).
  - intros i j ti tj wi wj Hi _ Hfl. by destruct (Hnone i ti wi).
Qed.

Lemma schedule_owned fundAmount i r sys :
  lockDiscipline sys -> locksOwned sys -> locksOwned (schedule fundAmount i r sys).
Proof.
  intros [Hlock Hexcl] Howned. unfold schedule.
  destruct (tasks sys !! i) as [t|] eqn:Hi; [|done].
  pose proof (lookup_lt_Some _ _ _ Hi) as Hlen.
  destruct (resume fundAmount r t (shared sys)) as [[t' sh'] evs] eqn:Hres.
  assert (Hkeep : forall key,
            key ∈ fundingLocks (shared sys) ->
            (forall w, inFlight t = Some w -> inFlight t' = Some w \/ lockKey w ≠ key) ->
            exists j tj wj, <[i:=t']> (tasks sys) !! j = Some tj /\
                            inFlight tj = Some wj /\ lockKey wj = key).
  { intros key Hkey Hstill. destruct (Howned key Hkey) as (j & tj & wj & Hj & Hflj & Hkj).
    destruct (decide (j = i)) as [->|Hne].
    - simplify_eq. destruct (Hstill wj Hflj) as [Hfl'|Hdiff]; [|done].
      exists i, t', wj. by rewrite list_lookup_insert_eq.
    - exists j, tj, wj. by rewrite list_lookup_insert_ne. }
  intros key. cbn [shared tasks]. intros Hkey.
  destruct (inFlight t) as [w|] eqn:Hfl.
  - destruct (resume_inFlight fundAmount r t (shared sys) w Hfl) as [[H1 H2] | [H1 H2]];
      rewrite Hres in H1, H2; cbn [fst snd] in H1, H2.
    + subst sh'. apply Hkeep; [done|]. intros w' [= <-]. by left.
    + rewrite H2 in Hkey. apply Hkeep; [set_solver|].
      intros w' [= <-]. right. set_solver.
  - assert (Hidle : forall w, None = Some w -> inFlight t' = Some w \/ lockKey w ≠ key)
      by done.
    destruct t as [w| | | | | | |]; simpl in Hfl; try done.
    + destruct (resume_called fundAmount r w (shared sys))
        as [[_ Heq] | [(_ & Hfree & _ & Heq) | (_ & Hfree & _ & Heq)]];
        rewrite Hres in Heq; simplify_eq.
      * by apply Hkeep.
      * destruct (decide (key = lockKey w)) as [->|Hother].
        -- exists i, (AwaitBalance w), w. by rewrite list_lookup_insert_eq.
        -- apply Hkeep; [|done]. simpl in Hkey. set_solver.
      * apply Hkeep; [|done]. simpl in Hkey. set_solver.
    + simpl in Hres. simplify_eq. by apply Hkeep.
Qed.

Lemma runSchedule_owned fundAmount steps :
  forall sys, lockDiscipline sys -> locksOwned sys ->
              locksOwned (runSchedule fundAmount steps sys).
Proof.
  unfold runSchedule. induction steps as [|[i r] steps IH]; intros sys Hd Ho; [done|].
  simpl. apply IH; [by apply schedule_discipline | by apply schedule_owned].
Qed.

Lemma initial_owned alreadyFunded batch : locksOwned (initial alreadyFunded batch).
Proof. intros key Hkey. simpl in Hkey. set_solver. Qed.

(** C2.  Start any number of calls of [fundSingleWallet] on a manager that
    holds no lock and let the event loop interleave them in any way.  At
    every instant two calls that are in flight (between taking the lock and
    returning) are for different wallets, and a call in flight holds the
    lock of its wallet.  A call takes the lock in the same run in which it
    tests it, before its first suspension; a call that finds the lock held
    returns at once without an event; and only a call in flight for a
    wallet submits a transfer to it, so when a call submits a transfer no
    other call is in flight for the same wallet.  The lock is keyed by the
    identity of the wallet: two wallets have the same key exactly when they
    have the same public key, every key held is that of a call in flight,
    and so a call for a wallet that is not funded and has no call in flight
    is never turned away, whatever other wallets are being funded: it takes
    its lock. *)
Theorem C2_one_funding_in_flight (fundAmount : Z) (alreadyFunded : gset string)
    (batch : list Wallet) (steps : list (nat * Response)) :
  let sys := runSchedule fundAmount steps (initial alreadyFunded batch) in
  (forall i j ti tj wi wj,
     tasks sys !! i = Some ti -> tasks sys !! j = Some tj ->
     inFlight ti = Some wi -> inFlight tj = Some wj ->
     pubkey wi = pubkey wj -> i = j) /\
  (forall i t w, tasks sys !! i = Some t -> inFlight t = Some w ->
     lockKey w ∈ fundingLocks (shared sys)) /\
  (forall r w sh, lockKey w ∈ fundingLocks sh ->
     resume fundAmount r (Called w) sh = (Settled, sh, [])) /\
  (forall r w sh,
     pubkey w ∉ funded sh -> lockKey w ∉ fundingLocks sh -> privateKeyValid w = true ->
     resume fundAmount r (Called w) sh = (AwaitBalance w, addLock w sh, [])) /\
  (forall r t sh recipient relayer lamports,
     Sent recipient relayer lamports ∈ (resume fundAmount r t sh).2 ->
     exists w, inFlight t = Some w /\ pubkey w = recipient) /\
  (forall i r ti recipient relayer lamports,
     tasks sys !! i = Some ti ->
     Sent recipient relayer lamports ∈ (resume fundAmount r ti (shared sys)).2 ->
     forall j tj wj,
       tasks sys !! j = Some tj -> inFlight tj = Some wj -> pubkey wj = recipient ->
       j = i) /\
  (forall w1 w2, lockKey w1 = lockKey w2 <-> pubkey w1 = pubkey w2) /\
  (forall key, key ∈ fundingLocks (shared sys) ->
     exists i t w, tasks sys !! i = Some t /\ inFlight t = Some w /\
                   key = lockKey w /\ key = "funding_" +:+ pubkey w) /\
  (forall r w,
     pubkey w ∉ funded (shared sys) ->
     (forall j tj wj, tasks sys !! j = Some tj -> inFlight tj = Some wj ->
                      pubkey wj <> pubkey w) ->
     resume fundAmount r (Called w) (shared sys)
     = if privateKeyValid w
       then (AwaitBalance w, addLock w (shared sys), [])
       else (Settled, deleteLock w (addLock w (shared sys)), [])).
Proof.
  pose proof (runSchedule_owned fundAmount steps _
                (initial_discipline alreadyFunded batch)
                (initial_owned alreadyFunded batch)) as Howned.
  destruct (runSchedule_discipline fundAmount steps _
              (initial_discipline alreadyFunded batch)) as [Hlock Hexcl].
  simpl. split_and!.
  - exact Hexcl.
  - exact Hlock.
  - intros r w sh Hheld.
    destruct (resume_called fundAmount r w sh)
      as [[_ Heq] | [(_ & Hfree & _) | (_ & Hfree & _)]]; done.
  - intros r w sh Hnf Hfree Hvalid.
    destruct (resume_called fundAmount r w sh)
      as [[[?|?] _] | [(_ & _ & _ & Heq) | (_ & _ & Hinvalid & _)]];
      [done | done | done | congruence].
  - intros r t sh recipient relayer lamports Hin.
    exact (resume_events fundAmount r t sh _ Hin).
  - intros i r ti recipient relayer lamports Hi Hin j tj wj Hj Hflj Hpk.
    destruct (resume_events fundAmount r ti _ _ Hin) as (w & Hfl & Hw).
    apply (Hexcl j i tj ti wj w); congruence.
  - intros w1 w2. split; [apply lockKey_inj | intros Heq; unfold lockKey; by rewrite Heq].
  - intros key Hkey. destruct (Howned key Hkey) as (i & t & w & Hi & Hfl & <-).
    by exists i, t, w.
  - intros r w Hnf Hnone.
    assert (Hfree : lockKey w ∉ fundingLocks
                      (shared (runSchedule fundAmount steps
                                 (initial alreadyFunded batch)))).
    { intros Hheld. destruct (Howned _ Hheld) as (j & tj & wj & Hj & Hflj & Hkey).
      apply lockKey_inj in Hkey. by apply (Hnone j tj wj). }
    destruct (resume_called fundAmount r w
                (shared (runSchedule fundAmount steps (initial alreadyFunded batch))))
      as [[[?|?] _] | [(_ & _ & Hvalid & Heq) | (_ & _ & Hvalid & Heq)]];
      [done | done | |]; change (resume fundAmount r (Called w)
                                   (shared (runSchedule fundAmount steps
                                              (initial alreadyFunded batch)))
                                 = if privateKeyValid w
                                   then (AwaitBalance w,
                                         addLock w
                                           (shared (runSchedule fundAmount steps
                                                      (initial alreadyFunded batch))), [])
                                   else (Settled,
                                         deleteLock w
                                           (addLock w
                                              (shared (runSchedule fundAmount steps
                                                         (initial alreadyFunded batch)))),
                                         []));
      by rewrite Heq, Hvalid.
Qed.

(** C3.  Start any number of calls of [fundSingleWallet] on a manager that
    holds no lock and let the event loop interleave them in any way.  The
    lock set never retains a stale entry: at every instant each entry is
    the key of a call that took it and has not returned yet, so once every
    call has returned the set is empty.  When a call that holds the lock
    returns, on whichever path (the loop ends, the balance query rejects,
    the key is invalid), the entry of its wallet is absent right after the
    return.  A call that is turned away at the guard never took the lock
    and returns leaving the sets exactly as they were; the entry it leaves
    is the one held by the call in flight for that wallet.  Whenever a
    resumption ends a call, either it was turned away at the guard or the
    lock of its wallet is absent on return.  A call run to its end returns
    within 102 resumptions whatever the connection answers, and if the
    lock was free when it began it is free when it returns. *)
Theorem C3_lock_released_on_every_exit (fundAmount : Z) (alreadyFunded : gset string)
    (batch : list Wallet) (steps : list (nat * Response)) :
  let sys := runSchedule fundAmount steps (initial alreadyFunded batch) in
  (forall key, key ∈ fundingLocks (shared sys) ->
     exists i t w, tasks sys !! i = Some t /\ inFlight t = Some w /\ lockKey w = key) /\
  ((forall i t, tasks sys !! i = Some t -> t = Settled) ->
   fundingLocks (shared sys) = ∅) /\
  (forall i r t w,
     tasks sys !! i = Some t -> inFlight t = Some w ->
     tasks (schedule fundAmount i r sys) !! i = Some Settled ->
     lockKey w ∉ fundingLocks (shared (schedule fundAmount i r sys))) /\
  (forall i r w,
     tasks sys !! i = Some (Called w) ->
     (pubkey w ∈ funded (shared sys)) \/ (lockKey w ∈ fundingLocks (shared sys)) ->
     tasks (schedule fundAmount i r sys) !! i = Some Settled /\
     shared (schedule fundAmount i r sys) = shared sys /\
     events (schedule fundAmount i r sys) = events sys /\
     ((pubkey w ∉ funded (shared sys)) ->
      exists j tj wj, j <> i /\ tasks sys !! j = Some tj /\ inFlight tj = Some wj /\
                      pubkey wj = pubkey w)) /\
  (forall r t sh w,
     walletOf t = Some w ->
     (resume fundAmount r t sh).1.1 = Settled ->
     (t = Called w /\ (pubkey w ∈ funded sh \/ lockKey w ∈ fundingLocks sh) /\
      (resume fundAmount r t sh).1.2 = sh) \/
     lockKey w ∉ fundingLocks (resume fundAmount r t sh).1.2) /\
  (forall answers w sh,
     (drive fundAmount answers 102 (Called w) sh).1.1 = Settled /\
     (lockKey w ∉ fundingLocks sh ->
      lockKey w ∉ fundingLocks (drive fundAmount answers 102 (Called w) sh).1.2)).
Proof.
  pose proof (runSchedule_owned fundAmount steps _
                (initial_discipline alreadyFunded batch)
                (initial_owned alreadyFunded batch)) as Howned.
  cbv zeta. set (sys := runSchedule fundAmount steps (initial alreadyFunded batch)) in *.
  split_and!.
  - exact Howned.
  - intros Hall. apply set_eq. intros key. split; [|set_solver].
    intros Hkey. destruct (Howned key Hkey) as (i & t & w & Hi & Hfl & _).
    rewrite (Hall i t Hi) in Hfl. done.
  - intros i r t w Hi Hfl Hend. unfold schedule in *. rewrite Hi in *.
    pose proof (lookup_lt_Some _ _ _ Hi) as Hlen.
    destruct (resume_inFlight fundAmount r t (shared sys) w Hfl) as [[Hin _] | [_ Hl]].
    + destruct (resume fundAmount r t (shared sys)) as [[t' sh'] evs].
      cbn [tasks fst snd] in *. rewrite list_lookup_insert_eq in Hend by done.
      by simplify_eq.
    + destruct (resume fundAmount r t (shared sys)) as [[t' sh'] evs].
      cbn [shared fst snd] in *. rewrite Hl. set_solver.
  - intros i r w Hi Hguard. unfold schedule. rewrite Hi.
    pose proof (lookup_lt_Some _ _ _ Hi) as Hlen.
    destruct (resume_called fundAmount r w (shared sys))
      as [[_ ->] | [(? & ? & _) | (? & ? & _)]]; [|tauto|tauto].
    cbn [tasks shared events map]. rewrite list_lookup_insert_eq by done.
    split_and!; [done | done | by rewrite app_nil_r |].
    intros Hnf. destruct Hguard as [?|Hheld]; [done|].
    destruct (Howned _ Hheld) as (j & tj & wj & Hj & Hflj & Hkey).
    exists j, tj, wj. split_and!; [|done|done|by apply lockKey_inj].
    intros ->. rewrite Hi in Hj. by simplify_eq.
  - intros r t sh w Hw Hend.
    destruct (inFlight t) as [w'|] eqn:Hfl.
    + assert (w' = w) as -> by (destruct t; simpl in *; congruence).
      destruct (resume_inFlight fundAmount r t sh w Hfl) as [[Hin _] | [_ Hl]].
      * rewrite Hend in Hin. done.
      * right. rewrite Hl. set_solver.
    + destruct t; simpl in Hfl, Hw; simplify_eq.
      destruct (resume_called fundAmount r w sh)
        as [[Hor Heq] | [(_ & _ & _ & Heq) | (_ & _ & _ & Heq)]].
      * left. rewrite Heq. done.
      * rewrite Heq in Hend. done.
      * right. rewrite Heq. simpl. set_solver.
  - intros answers w sh.
    assert (Hend : (drive fundAmount answers 102 (Called w) sh).1.1 = Settled)
      by (apply drive_settles; simpl; lia).
    split; [done|]. intros Hfree. apply drive_lock; [|done]. left. done.
Qed.

(** C6 on the burner path.  With one relayer that can pay, a transfer that
    the node accepts and a confirmation that times out, [fundBurnerWallet]
    reports success for the full amount, and in general its answer does not
    depend on how the confirmation ended: no verification follows.  The
    funding of regular wallets does what the claim says: a confirmation
    that times out leads to [verifyTransaction] without an event, and a
    tranche is counted as delivered only after a confirmation or a
    verification that answered success. *)
Theorem C6_burner_funding_unverified :
  BurnerFunding.fundBurnerWallet 20000000 BurnerFunding.timeoutConnection
    = {| BurnerFunding.success := true;
         BurnerFunding.submitted := Some (0%nat, 20000000) |} /\
  (forall amount conn c,
     BurnerFunding.fundBurnerWallet amount (BurnerFunding.withConfirmation c conn)
     = BurnerFunding.fundBurnerWallet amount conn) /\
  (forall fundAmount r f sig sh,
     r_confirm r = ConfirmNotConfirmed ->
     resume fundAmount r (AwaitConfirm f sig) sh = (AwaitVerify f sig, sh, [])) /\
  (forall fundAmount r t sh recipient lamports basis,
     Delivered recipient lamports basis ∈ (resume fundAmount r t sh).2 ->
     (exists f sig, t = AwaitConfirm f sig /\ r_confirm r = ConfirmOk /\
                    basis = ByConfirmation /\ lamports = f_cappedPart f) \/
     (exists f sig, t = AwaitVerify f sig /\ basis = ByVerification /\
                    lamports = f_cappedPart f /\
                    verifyTransaction (r_status r) (r_verifyBalance r) (f_cappedPart f)
                      (f_balance f + fundAmount - f_remaining f) = VerifiedSuccess)).
Proof.
  split_and!.
  - reflexivity.
  - intros amount conn c. unfold BurnerFunding.fundBurnerWallet, BurnerFunding.transferFrom.
    simpl. by repeat case_match.
  - intros fundAmount r f sig sh Hc. simpl. by rewrite Hc.
  - intros fundAmount r t sh recipient lamports basis Hin.
    exact (resume_events fundAmount r t sh _ Hin).
Qed.

End WalletManagerProofs.

(** ** Wallet rebalancer *)

Module WalletRebalancerProofs.
Import WalletRebalancer.

Lemma insertSorted_elem {A} (before : A -> A -> bool) a l x :
  x ∈ insertSorted before a l <-> x = a \/ x ∈ l.
Proof.
  induction l as [|y l IH]; simpl.
  - rewrite list_elem_of_singleton, elem_of_nil. tauto.
  - destruct (before a y); rewrite !elem_of_cons; [tauto|]. rewrite IH. tauto.
Qed.

Lemma stableSort_elem {A} (before : A -> A -> bool) l x :
  x ∈ stableSort before l <-> x ∈ l.
Proof.
  induction l as [|y l IH]; simpl; [done|].
  rewrite insertSorted_elem, elem_of_cons, IH. tauto.
Qed.

Lemma hasSurplus_elem cfg bs i :
  i ∈ hasSurplusOf cfg bs <-> (i < length bs)%nat /\ surplusLine cfg < balanceOf bs i.
Proof.
  unfold hasSurplusOf. rewrite stableSort_elem, list_elem_of_filter, elem_of_seq.
  split; [intros [? ?] | intros [? ?]]; split; try done; lia.
Qed.

Lemma balanceOf_addTo_eq i delta bs :
  (i < length bs)%nat -> balanceOf (addTo i delta bs) i = balanceOf bs i + delta.
Proof.
  intros Hlt. unfold addTo, balanceOf at 1. by rewrite list_lookup_insert_eq.
Qed.

Lemma balanceOf_addTo_ne i j delta bs :
  i ≠ j -> balanceOf (addTo i delta bs) j = balanceOf bs j.
Proof.
  intros Hne. unfold addTo, balanceOf at 1 3. by rewrite list_lookup_insert_ne.
Qed.

Lemma length_addTo i delta bs : length (addTo i delta bs) = length bs.
Proof. unfold addTo. apply length_insert. Qed.

Lemma pairStep_length cfg wallets hasSurplus ok st needy :
  length (balances (pairStep cfg wallets hasSurplus ok st needy)) = length (balances st).
Proof.
  unfold pairStep. destruct (hasSurplus !! surplusIndex st); [|done].
  destruct (String.eqb _ _); [done|]. simpl.
  destruct (_ && _); [|done]. by rewrite !length_addTo.
Qed.

Lemma pairStep_sound cfg wallets hasSurplus ok st needy :
  (forall d, d ∈ hasSurplus -> (d < length (balances st))%nat) ->
  Forall (pairingSound cfg wallets hasSurplus) (pairings st) ->
  Forall (pairingSound cfg wallets hasSurplus)
    (pairings (pairStep cfg wallets hasSurplus ok st needy)).
Proof.
  intros Hrange Hall. unfold pairStep.
  destruct (hasSurplus !! surplusIndex st) as [provider|] eqn:Hprov; [|done].
  destruct (String.eqb_spec (pubkeyOf wallets provider) (pubkeyOf wallets needy))
    as [|Hne]; [done|].
  simpl. apply Forall_app. split; [done|]. apply Forall_singleton.
  assert (Hin : (provider < length (balances st))%nat).
  { apply Hrange. by eapply list_elem_of_lookup_2. }
  assert (Hidx : needy ≠ provider) by (intros ->; done).
  unfold pairingSound. simpl. split_and!; try done.
  - destruct (Z.ltb_spec (targetWalletBalanceLamports cfg - balanceOf (balances st) needy)
                (balanceOf (balances st) provider - targetWalletBalanceLamports cfg)).
    + split_and!; [done | done | lia].
    + split; [lia | done].
  - destruct (_ && _); [|done].
    rewrite balanceOf_addTo_ne by done. rewrite balanceOf_addTo_eq by done. lia.
Qed.

Lemma p2p_fold_sound cfg wallets hasSurplus ok needies :
  forall st,
    (forall d, d ∈ hasSurplus -> (d < length (balances st))%nat) ->
    Forall (pairingSound cfg wallets hasSurplus) (pairings st) ->
    Forall (pairingSound cfg wallets hasSurplus)
      (pairings (foldl (pairStep cfg wallets hasSurplus ok) st needies)).
Proof.
  induction needies as [|n needies IH]; intros st Hrange Hall; [done|].
  simpl. apply IH.
  - intros d Hd. rewrite pairStep_length. by apply Hrange.
  - by apply pairStep_sound.
Qed.

Lemma p2pLoop_sound cfg wallets snap ok :
  Forall (pairingSound cfg wallets (hasSurplusOf cfg snap))
    (pairings (p2pLoop cfg wallets snap ok)).
Proof.
  unfold p2pLoop. destruct (_ && _); [|by apply Forall_nil].
  apply p2p_fold_sound; [|by apply Forall_nil].
  intros d Hd. simpl. by apply hasSurplus_elem in Hd as [? _].
Qed.

Lemma rebalance_completed cfg activeWallets getBalance ok percent sinkOk prs cs final :
  rebalanceWallets cfg activeWallets getBalance ok percent sinkOk = Completed prs cs final ->
  exists snap,
    snapshot (map getBalance (seq 0 (length activeWallets))) = Some snap /\
    prs = pairings (p2pLoop cfg activeWallets snap ok) /\
    final = balances (p2pLoop cfg activeWallets snap ok) /\
    cs = (if negb (length (remainingSurplusOf cfg snap final) =? 0)%nat && sinkKeypair cfg
          then consolidateSurplusToSink cfg percent sinkOk final
                 (remainingSurplusOf cfg snap final)
          else []).
Proof.
  unfold rebalanceWallets.
  destruct (negb (enableRebalancing cfg) || _); [done|].
  destruct (length activeWallets <? 2)%nat; [done|].
  destruct (snapshot _) as [snap|]; [|done].
  destruct (toNumberThrows (avgBalanceOf snap)); [done|].
  intros [= <- <- <-]. by exists snap.
Qed.

Lemma consolidateOne_Some cfg percent sinkOk bs i c :
  consolidateOne cfg percent sinkOk bs i = Some c <->
  c_wallet c = i /\
  c_balance c = balanceOf bs i /\
  dustThresholdLamports cfg < c_balance c - targetWalletBalanceLamports cfg /\
  c_percent c = percent i /\
  c_amount c = Z.quot ((c_balance c - targetWalletBalanceLamports cfg) * c_percent c) 100 /\
  dustThresholdLamports cfg <= c_amount c /\
  c_confirmed c = sinkOk i.
Proof.
  unfold consolidateOne.
  destruct (Z.ltb_spec (dustThresholdLamports cfg)
              (balanceOf bs i - targetWalletBalanceLamports cfg)) as [Hs|Hs].
  - destruct (Z.ltb_spec
                (Z.quot ((balanceOf bs i - targetWalletBalanceLamports cfg) * percent i) 100)
                (dustThresholdLamports cfg)) as [Ha|Ha].
    + split; [done|]. intros (_ & Hb & _ & Hp & Hamt & Hge & _).
      rewrite Hb, Hp in Hamt. lia.
    + split.
      * intros [= <-]. simpl. split_and!; done.
      * intros (Hw & Hb & _ & Hp & Hamt & _ & Hc). destruct c. simpl in *.
        subst. done.
  - split; [done|]. intros (_ & Hb & Hlt & _). rewrite Hb in Hlt. lia.
Qed.

(** C5, as stated: in a pairing the amount sent is the lesser of the needy
    wallet's deficit and the donor's surplus.  This fails when the surplus
    does not exceed the deficit: with a target of 0.05 SOL, a needy wallet at
    0.01 SOL and a donor at 0.08 SOL the lesser is 0.03 SOL, and the loop
    sends nothing. *)
Lemma C5_short_donor_sends_nothing :
  exists pairing consolidations,
    rebalanceWallets bandConfig twoWallets (balancesOf [10000000; 80000000])
      (fun _ _ => true) (fun _ => 95) (fun _ => true)
    = Completed [pairing] consolidations [10000000; 80000000] /\
    p_needyBalance pairing = 10000000 /\
    p_donorBalance pairing = 80000000 /\
    Z.min (targetWalletBalanceLamports bandConfig - p_needyBalance pairing)
          (p_donorBalance pairing - targetWalletBalanceLamports bandConfig) = 30000000 /\
    p_sent pairing = None.
Proof. eexists _, _. split; [by vm_compute|]. by vm_compute. Qed.

(** C5, amended.  In every pairing the P2P loop makes, the donor is the
    current surplus wallet and has another public key than the needy
    wallet.  A transfer is sent only when the donor's surplus over the
    target is strictly greater than the needy wallet's deficit to the
    target, and then its amount is that deficit, which is the lesser of the
    two; otherwise nothing is sent.  So the amount never exceeds the lesser
    of deficit and surplus.  The donor's balance goes down by the amount
    when the transfer is confirmed, and the loop moves to the next donor
    exactly when the donor's surplus after the pairing is below the dust
    threshold.  In the specification's example (needy at 0.01 SOL, donor at
    0.2 SOL, target 0.05 SOL) 0.04 SOL is sent and the donor is left with
    0.16 SOL. *)
Theorem C5_pairing_sends_full_deficit (cfg : Config) (activeWallets : list string)
    (getBalance : nat -> outcome Z) (p2pSucceeds : nat -> nat -> bool)
    (percent : nat -> Z) (sinkSucceeds : nat -> bool) :
  match rebalanceWallets cfg activeWallets getBalance p2pSucceeds percent sinkSucceeds with
  | Completed pairings _ _ =>
      exists snap,
        snapshot (map getBalance (seq 0 (length activeWallets))) = Some snap /\
        Forall (pairingSound cfg activeWallets (hasSurplusOf cfg snap)) pairings
  | _ => True
  end /\
  exists consolidations,
    rebalanceWallets bandConfig twoWallets (balancesOf [10000000; 200000000])
      (fun _ _ => true) (fun _ => 95) (fun _ => true)
    = Completed
        [{| p_needy := 0; p_donor := 1;
            p_needyBalance := 10000000; p_donorBalance := 200000000;
            p_sent := Some 40000000; p_confirmed := true;
            p_indexBefore := 0; p_indexAfter := 0;
            p_donorBalanceAfter := 160000000 |}]
        consolidations [50000000; 160000000].
Proof.
  split.
  - destruct (rebalanceWallets cfg activeWallets getBalance p2pSucceeds percent
                sinkSucceeds) as [| |prs cs final] eqn:Hres; [done | done |].
    apply rebalance_completed in Hres as (snap & Hsnap & -> & _).
    exists snap. split; [done|]. apply p2pLoop_sound.
  - eexists. by vm_compute.
Qed.

(** C9, as stated: after the pairing every wallet still above 1.1 times the
    target has its excess consolidated to the sink.  This fails for a wallet
    that was not above 1.5 times the target when the balances were read:
    with a target of 0.05 SOL, a wallet at 0.06 SOL is above 0.055 SOL, its
    excess of 0.01 SOL is above the dust threshold, and nothing is sent. *)
Lemma C9_wallet_outside_surplus_set_kept :
  rebalanceWallets bandConfig twoWallets (balancesOf [60000000; 50000000])
    (fun _ _ => true) (fun _ => 95) (fun _ => true)
    = Completed [] [] [60000000; 50000000] /\
  consolidationLine bandConfig < 60000000 /\
  dustThresholdLamports bandConfig
    <= Z.quot ((60000000 - targetWalletBalanceLamports bandConfig) * 95) 100.
Proof. by vm_compute. Qed.

(** C9, amended.  When a sink is configured, the transfers to the sink are
    exactly these: for every wallet that was above 1.5 times the target when
    the balances were read and whose balance after the pairing is above 1.1
    times the target, with an excess over the target above the dust
    threshold, the amount is the excess times the drawn percentage divided
    by 100 in integers, and it is sent unless it is below the dust
    threshold.  Without a sink nothing is sent.  The percentage drawn lies
    between 90 and 98, so what the wallet keeps of its excess is not
    negative and less than a tenth of the excess plus one lamport. *)
Theorem C9_consolidation_of_surplus_set (cfg : Config) (activeWallets : list string)
    (getBalance : nat -> outcome Z) (p2pSucceeds : nat -> nat -> bool)
    (percent : nat -> Z) (sinkSucceeds : nat -> bool) :
  match rebalanceWallets cfg activeWallets getBalance p2pSucceeds percent sinkSucceeds with
  | Completed _ consolidations finalBalances =>
      exists snap,
        snapshot (map getBalance (seq 0 (length activeWallets))) = Some snap /\
        (forall c, c ∈ consolidations <->
           sinkKeypair cfg = true /\
           (c_wallet c < length snap)%nat /\
           surplusLine cfg < balanceOf snap (c_wallet c) /\
           consolidationLine cfg < balanceOf finalBalances (c_wallet c) /\
           c_balance c = balanceOf finalBalances (c_wallet c) /\
           dustThresholdLamports cfg < c_balance c - targetWalletBalanceLamports cfg /\
           c_percent c = percent (c_wallet c) /\
           c_amount c =
             Z.quot ((c_balance c - targetWalletBalanceLamports cfg) * c_percent c) 100 /\
           dustThresholdLamports cfg <= c_amount c /\
           c_confirmed c = sinkSucceeds (c_wallet c)) /\
        (forall c, c ∈ consolidations ->
           0 <= dustThresholdLamports cfg -> 90 <= c_percent c <= 98 ->
           0 <= (c_balance c - targetWalletBalanceLamports cfg) - c_amount c /\
           100 * ((c_balance c - targetWalletBalanceLamports cfg) - c_amount c)
             < 10 * (c_balance c - targetWalletBalanceLamports cfg) + 100)
  | _ => True
  end.
Proof.
  destruct (rebalanceWallets cfg activeWallets getBalance p2pSucceeds percent
              sinkSucceeds) as [| |prs cs final] eqn:Hres; [done | done |].
  apply rebalance_completed in Hres as (snap & Hsnap & _ & _ & Hcs).
  exists snap. split; [done|].
  assert (Hmem : forall c, c ∈ cs <->
            sinkKeypair cfg = true /\
            c_wallet c ∈ remainingSurplusOf cfg snap final /\
            consolidateOne cfg percent sinkSucceeds final (c_wallet c) = Some c).
  { intros c. subst cs. split.
    - destruct (negb _ && sinkKeypair cfg) eqn:Hguard.
      + apply andb_true_iff in Hguard as [_ Hsink].
        intros Hin. apply list_elem_of_omap in Hin as (i & Hi & Hone).
        pose proof Hone as Hone'. apply consolidateOne_Some in Hone' as (<- & _).
        done.
      + by intros ?%elem_of_nil.
    - intros (Hsink & Hin & Hone).
      assert (Hnonempty : negb (length (remainingSurplusOf cfg snap final) =? 0)%nat = true).
      { destruct (remainingSurplusOf cfg snap final); [by apply elem_of_nil in Hin | done]. }
      rewrite Hnonempty, Hsink. simpl. apply list_elem_of_omap. by exists (c_wallet c). }
  split.
  - intros c. rewrite Hmem. unfold remainingSurplusOf.
    rewrite list_elem_of_filter, hasSurplus_elem, consolidateOne_Some. tauto.
  - intros c Hin Hdust Hpct. apply Hmem in Hin as (_ & _ & Hone).
    apply consolidateOne_Some in Hone as (_ & _ & Hsurplus & _ & Hamt & _).
    set (surplus := c_balance c - targetWalletBalanceLamports cfg) in *.
    assert (Hpos : 0 <= surplus * c_percent c) by nia.
    rewrite Z.quot_div_nonneg in Hamt by lia.
    pose proof (Z.mul_div_le (surplus * c_percent c) 100 ltac:(lia)) as Hle.
    pose proof (Z.mul_succ_div_gt (surplus * c_percent c) 100 ltac:(lia)) as Hgt.
    rewrite <- Hamt in Hle, Hgt. nia.
Qed.

End WalletRebalancerProofs.

(** ** Circuit breaker: what the recorder keeps *)

Module CircuitBreakerFacts.
Import CircuitBreaker Measures.

Lemma recordAll_snoc cfg outcomes x s :
  recordAll cfg (outcomes ++ [x]) s = recordTradeResult cfg x (recordAll cfg outcomes s).
Proof. unfold recordAll. by rewrite foldl_app. Qed.

Lemma tail_drop {A} (l : list A) k : tail (drop k l) = drop (S k) l.
Proof.
  revert l. induction k as [|k IH]; intros [|a l]; simpl; done.
Qed.

Lemma recentTrades_recordAll cfg outcomes :
  0 <= failureRateWindow cfg -> enableCircuitBreaker cfg = true ->
  recentTrades (recordAll cfg outcomes constructor)
  = drop (length outcomes - Z.to_nat (failureRateWindow cfg)) outcomes.
Proof.
  intros Hw Hen.
  induction outcomes as [|x outcomes IH] using rev_ind; [done|].
  rewrite recordAll_snoc. unfold recordTradeResult at 1. rewrite Hen. simpl.
  rewrite IH. rewrite length_app. simpl. unfold len, shift.
  rewrite length_app, length_drop. simpl.
  destruct (Z.ltb_spec (failureRateWindow cfg)
              (Z.of_nat (length outcomes
                         - (length outcomes - Z.to_nat (failureRateWindow cfg)) + 1)))
    as [Hlt | Hge].
  - rewrite <- drop_app_le by lia. rewrite tail_drop. f_equal. lia.
  - replace (length outcomes - Z.to_nat (failureRateWindow cfg))%nat with 0%nat by lia.
    replace (length outcomes + 1 - Z.to_nat (failureRateWindow cfg))%nat with 0%nat
      by lia.
    done.
Qed.

(** The window holds the last [failureRateWindow] outcomes recorded, in
    order, and never more; a disabled breaker records nothing. *)
Theorem window_holds_last_outcomes (cfg : Config) (outcomes : list bool) :
  0 <= failureRateWindow cfg ->
  (enableCircuitBreaker cfg = true ->
   recentTrades (recordAll cfg outcomes constructor)
     = drop (length outcomes - Z.to_nat (failureRateWindow cfg)) outcomes /\
   len (recentTrades (recordAll cfg outcomes constructor)) <= failureRateWindow cfg) /\
  (enableCircuitBreaker cfg = false ->
   forall s, recordAll cfg outcomes s = s).
Proof.
  intros Hw. split.
  - intros Hen. rewrite recentTrades_recordAll by done.
    split; [done|]. unfold len. rewrite length_drop. lia.
  - intros Hdis s. unfold recordAll.
    induction outcomes as [|x outcomes IH] using rev_ind; [done|].
    rewrite foldl_app. simpl. rewrite IH. unfold recordTradeResult. by rewrite Hdis.
Qed.

Lemma window_holds_last_outcomes_witness :
  recentTrades (recordAll scenarioConfig scenarioOutcomes constructor) = scenarioOutcomes.
Proof.
  exact (proj1 (proj1 (window_holds_last_outcomes scenarioConfig scenarioOutcomes
                         ltac:(by vm_compute)) eq_refl)).
Defined.

(** The failure-rate check waits for a full window.  On an enabled breaker
    with a positive window, [checkFailureRate] does not trip while fewer
    than [failureRateWindow] outcomes have been recorded; from then on it
    trips exactly when the failures among the last [failureRateWindow]
    outcomes exceed the configured rate, whatever was recorded before
    them. *)
Theorem failure_rate_waits_for_full_window (cfg : Config) (outcomes : list bool) :
  0 < failureRateWindow cfg ->
  enableCircuitBreaker cfg = true ->
  (Z.of_nat (length outcomes) < failureRateWindow cfg ->
   checkFailureRate cfg (recordAll cfg outcomes constructor) = notTripped) /\
  (failureRateWindow cfg <= Z.of_nat (length outcomes) ->
   tripped (checkFailureRate cfg (recordAll cfg outcomes constructor))
   = failureRateAbove cfg
       (failureCount (drop (length outcomes - Z.to_nat (failureRateWindow cfg)) outcomes))
       (failureRateWindow cfg)).
Proof.
  intros Hw Hen. unfold checkFailureRate.
  rewrite recentTrades_recordAll by (done || lia).
  assert (Hlen : len (drop (length outcomes - Z.to_nat (failureRateWindow cfg)) outcomes)
                 = Z.min (Z.of_nat (length outcomes)) (failureRateWindow cfg))
    by (unfold len; rewrite length_drop; lia).
  rewrite Hlen. split; intros Hcase.
  - destruct (Z.leb_spec (failureRateWindow cfg)
                (Z.min (Z.of_nat (length outcomes)) (failureRateWindow cfg))); [lia | done].
  - rewrite Z.min_r by lia.
    destruct (Z.leb_spec (failureRateWindow cfg) (failureRateWindow cfg)); [|lia].
    by destruct (failureRateAbove cfg _ _).
Qed.

Lemma failure_rate_waits_for_full_window_witness :
  checkFailureRate scenarioConfig (recordAll scenarioConfig [false; false] constructor)
  = notTripped.
Proof.
  refine (proj1 (failure_rate_waits_for_full_window scenarioConfig [false; false] _ _) _);
    by vm_compute.
Defined.

Lemma trailingFailures_snoc outcomes x :
  trailingFailures (outcomes ++ [x])
  = if x then 0 else 1 + trailingFailures outcomes.
Proof. unfold trailingFailures. rewrite reverse_snoc. by destruct x. Qed.

(** The streak counter of an enabled breaker is the number of failures
    recorded since the last success, whatever the window does. *)
Theorem streak_counts_failures_since_success (cfg : Config) (outcomes : list bool) :
  enableCircuitBreaker cfg = true ->
  consecutiveFailures (recordAll cfg outcomes constructor) = trailingFailures outcomes.
Proof.
  intros Hen. induction outcomes as [|x outcomes IH] using rev_ind; [done|].
  rewrite recordAll_snoc, trailingFailures_snoc.
  unfold recordTradeResult. rewrite Hen. simpl. rewrite IH. destruct x; lia.
Qed.

Lemma streak_counts_failures_since_success_witness :
  consecutiveFailures (recordAll scenarioConfig scenarioOutcomes constructor) = 3.
Proof.
  exact (streak_counts_failures_since_success scenarioConfig scenarioOutcomes eq_refl).
Defined.






End CircuitBreakerFacts.

(** ** Burner wallet manager: shuffle, cleanup and creation *)

Module BurnerWalletManagerFacts.
Import BurnerWalletManager BurnerCreation.
Import BurnerWalletManagerProofs.

Lemma insert_perm {A} (l : list A) i x :
  (i < length l)%nat -> <[i:=x]> l ≡ₚ x :: delete i l.
Proof.
  intros Hlt. rewrite insert_take_drop by done. rewrite delete_take_drop.
  by rewrite Permutation_middle.
Qed.

Lemma swap_perm {A} (l : list A) i j : swap l i j ≡ₚ l.
Proof.
  unfold swap. destruct (l !! i) as [x|] eqn:Hi; [|done].
  destruct (l !! j) as [y|] eqn:Hj; [|done].
  pose proof (lookup_lt_Some _ _ _ Hi) as Hli.
  pose proof (lookup_lt_Some _ _ _ Hj) as Hlj.
  destruct (decide (i = j)) as [->|Hne].
  - simplify_eq. rewrite list_insert_insert_eq. by rewrite list_insert_id.
  - rewrite insert_perm by (by rewrite length_insert).
    assert (Hmid : <[j:=x]> l !! i = Some x) by (by rewrite list_lookup_insert_ne).
    pose proof (delete_Permutation _ _ _ Hmid) as H1.
    rewrite (insert_perm l j x Hlj) in H1 at 1.
    apply (inj (cons x)) in H1. rewrite <- H1.
    symmetry. by apply delete_Permutation.
Qed.

Lemma shuffleLoop_perm {A} draw i (l : list A) : shuffleLoop draw i l ≡ₚ l.
Proof.
  revert l. induction i as [|i IH]; intros l; [done|].
  simpl. rewrite IH. apply swap_perm.
Qed.

(** [shuffleArray] (of both managers) returns a rearrangement of its
    argument, whatever the random draws: nothing is lost, added or
    duplicated. *)
Theorem shuffleArray_rearranges {A} (draw : nat -> nat) (array : list A) :
  shuffleArray draw array ≡ₚ array /\
  length (shuffleArray draw array) = length array /\
  (forall x, x ∈ shuffleArray draw array <-> x ∈ array).
Proof.
  assert (Hp : shuffleArray draw array ≡ₚ array) by apply shuffleLoop_perm.
  split; [done|]. split; [by rewrite Hp|]. intros x. by rewrite Hp.
Qed.

(** The expired entries of a list, by key. *)
Lemma sweep_wallets now (l : list (string * WalletData)) s e :
  e ∈ burnerWallets
        (foldl (fun st entry =>
                  if EXPIRY_TIME <? now - created entry.2 then forget entry.1 st else st)
               s l)
  <-> e ∈ burnerWallets s /\
      forall e', e' ∈ l -> EXPIRY_TIME < now - created e'.2 -> e'.1 ≠ e.1.
Proof.
  revert s. induction l as [|e0 l IH]; intros s; simpl.
  - split; [intros ?; split; [done|] | by intros [? _]].
    intros e' Hin. by apply elem_of_nil in Hin.
  - destruct (Z.ltb_spec EXPIRY_TIME (now - created e0.2)) as [Hexp|Hok].
    + rewrite IH. simpl. unfold mapDelete. rewrite list_elem_of_filter. split.
      * intros [[Hne Hin] Hrest]. split; [done|].
        intros e' [->|Hin']%elem_of_cons Hexp'; [done | by apply Hrest].
      * intros [Hin Hall]. split; [split; [|done] |].
        -- intros Heq. by apply (Hall e0); [left|..].
        -- intros e' Hin' Hexp'. apply Hall; [by right | done].
    + rewrite IH. split.
      * intros [Hin Hrest]. split; [done|].
        intros e' [->|Hin']%elem_of_cons Hexp'; [lia | by apply Hrest].
      * intros [Hin Hall]. split; [done|].
        intros e' Hin' Hexp'. apply Hall; [by right | done].
Qed.

Lemma sweep_forgets now (l : list (string * WalletData)) s k :
  let s' :=
    foldl (fun st entry =>
             if EXPIRY_TIME <? now - created entry.2 then forget entry.1 st else st)
          s l in
  ((exists e', e' ∈ l /\ EXPIRY_TIME < now - created e'.2 /\ e'.1 = k) \/
   (burnerCooldowns s !! k = None /\ burnerTradeCount s !! k = None /\
    burnerSeasoningCount s !! k = None /\ k ∉ pendingDisposal s)) ->
  burnerCooldowns s' !! k = None /\ burnerTradeCount s' !! k = None /\
  burnerSeasoningCount s' !! k = None /\ k ∉ pendingDisposal s'.
Proof.
  revert s. induction l as [|e0 l IH]; intros s; simpl.
  - intros [(e' & Hin & _) | H]; [by apply elem_of_nil in Hin | done].
  - intros Hcase.
    destruct (Z.ltb_spec EXPIRY_TIME (now - created e0.2)) as [Hexp|Hok].
    + apply IH. simpl.
      destruct Hcase as [(e' & [->|Hin]%elem_of_cons & Hexp' & Hk) | (H1 & H2 & H3 & H4)].
      * right. subst k. rewrite !lookup_delete_eq. split_and!; try done. set_solver.
      * left. by exists e'.
      * right. destruct (decide (e0.1 = k)) as [->|Hne].
        -- rewrite !lookup_delete_eq. split_and!; try done. set_solver.
        -- rewrite !lookup_delete_ne by done. split_and!; try done. set_solver.
    + apply IH.
      destruct Hcase as [(e' & [->|Hin]%elem_of_cons & Hexp' & Hk) | H]; [lia | | by right].
      left. by exists e'.
Qed.

Lemma sweep_nothing now (l : list (string * WalletData)) s :
  (forall e, e ∈ l -> now - created e.2 <= EXPIRY_TIME) ->
  foldl (fun st entry =>
           if EXPIRY_TIME <? now - created entry.2 then forget entry.1 st else st)
        s l = s.
Proof.
  revert s. induction l as [|e0 l IH]; intros s Hall; simpl; [done|].
  destruct (Z.ltb_spec EXPIRY_TIME (now - created e0.2)) as [Hexp|Hok].
  - specialize (Hall e0 ltac:(by left)). lia.
  - apply IH. intros e He. apply Hall. by right.
Qed.

Lemma cleanup_wallets now s e :
  e ∈ burnerWallets (cleanupBurners now s) <->
  e ∈ burnerWallets s /\
  forall e', e' ∈ burnerWallets s -> EXPIRY_TIME < now - created e'.2 -> e'.1 ≠ e.1.
Proof. unfold cleanupBurners. simpl. apply sweep_wallets. Qed.

Lemma cleanup_wallets_fresh now s e :
  e ∈ burnerWallets (cleanupBurners now s) -> now - created e.2 <= EXPIRY_TIME.
Proof.
  intros [Hin Hall]%cleanup_wallets.
  destruct (Z.le_gt_cases (now - created e.2) EXPIRY_TIME) as [|Hexp]; [done|].
  exfalso. by apply (Hall e Hin); [lia|].
Qed.

Lemma cleanup_cooldowns_fresh now s k t :
  burnerCooldowns (cleanupBurners now s) !! k = Some t -> now - t <= 3600000.
Proof.
  intros Hk. unfold cleanupBurners in Hk. simpl in Hk.
  apply map_lookup_filter_Some in Hk as [_ Hp]. simpl in Hp. lia.
Qed.

(** After [cleanupBurners] no tracked burner is older than a day, no
    cooldown entry older than an hour, and the counters are capped at 100
    and 20.  An entry stays exactly when no entry under its key was older
    than a day, and the key of a removed burner is left in none of the
    five structures. *)
Theorem cleanupBurners_leaves_fresh_entries (now : Z) (s : State) :
  (forall e, e ∈ burnerWallets (cleanupBurners now s) <->
     e ∈ burnerWallets s /\
     forall e', e' ∈ burnerWallets s -> EXPIRY_TIME < now - created e'.2 -> e'.1 ≠ e.1) /\
  (forall e, e ∈ burnerWallets (cleanupBurners now s) ->
     now - created e.2 <= EXPIRY_TIME) /\
  (forall e, e ∈ burnerWallets s -> EXPIRY_TIME < now - created e.2 ->
     ~ tracked e.1 (cleanupBurners now s) /\
     burnerCooldowns (cleanupBurners now s) !! e.1 = None /\
     burnerTradeCount (cleanupBurners now s) !! e.1 = None /\
     burnerSeasoningCount (cleanupBurners now s) !! e.1 = None /\
     e.1 ∉ pendingDisposal (cleanupBurners now s)) /\
  (forall k t, burnerCooldowns (cleanupBurners now s) !! k = Some t ->
     now - t <= 3600000) /\
  (forall k c, burnerTradeCount (cleanupBurners now s) !! k = Some c -> c <= 100) /\
  (forall k c, burnerSeasoningCount (cleanupBurners now s) !! k = Some c -> c <= 20).
Proof.
  assert (Hcap : forall limit (m : gmap string Z) k c,
            (capAt limit <$> m) !! k = Some c -> c <= limit).
  { intros limit m k c. rewrite lookup_fmap. destruct (m !! k) as [c0|]; [|done].
    simpl. intros [= <-]. unfold capAt. destruct (Z.ltb_spec limit c0); lia. }
  split_and!.
  - intros e. apply cleanup_wallets.
  - intros e. apply cleanup_wallets_fresh.
  - intros e Hin Hexp.
    destruct (sweep_forgets now (burnerWallets s) s e.1) as (H1 & H2 & H3 & H4).
    { left. exists e. split; [done|]. split; [lia | done]. }
    unfold cleanupBurners. simpl. split_and!.
    + unfold tracked. simpl. intros Ht%list_elem_of_fmap. destruct Ht as (e1 & Hk & Hin1).
      apply sweep_wallets in Hin1 as [_ Hall]. by apply (Hall e Hin); [lia|].
    + rewrite map_lookup_filter. by rewrite H1.
    + by rewrite lookup_fmap, H2.
    + by rewrite lookup_fmap, H3.
    + done.
  - intros k t. apply cleanup_cooldowns_fresh.
  - intros k c. unfold cleanupBurners. simpl. apply Hcap.
  - intros k c. unfold cleanupBurners. simpl. apply Hcap.
Qed.

Lemma capAt_idem limit c : capAt limit (capAt limit c) = capAt limit c.
Proof.
  unfold capAt. destruct (Z.ltb_spec limit c) as [H|H].
  - by rewrite Z.ltb_irrefl.
  - destruct (Z.ltb_spec limit c); [lia | done].
Qed.

(** A second cleanup at the same instant changes nothing, so a second
    [getAvailableBurners] with the same request and draws gives the answer
    of the first and leaves its state. *)
Theorem cleanup_and_query_idempotent (cfg : BurnerWalletManager.Config)
    (getBurnerCooldown : string -> Z -> Z)
    (draw : nat -> nat) (now count : Z) (emergencyMode : bool) (s : State) :
  cleanupBurners now (cleanupBurners now s) = cleanupBurners now s /\
  getAvailableBurners cfg getBurnerCooldown draw now count emergencyMode
    (getAvailableBurners cfg getBurnerCooldown draw now count emergencyMode s).1
  = getAvailableBurners cfg getBurnerCooldown draw now count emergencyMode s.
Proof.
  assert (Hidem : cleanupBurners now (cleanupBurners now s) = cleanupBurners now s).
  { pose proof (cleanup_wallets_fresh now s) as Hfresh.
    pose proof (cleanup_cooldowns_fresh now s) as Hcd.
    set (s' := cleanupBurners now s) in *.
    unfold cleanupBurners at 1.
    rewrite (sweep_nothing now (burnerWallets s') s' Hfresh).
    assert (Hf : filter (fun kv : string * Z => ¬ (3600000 < now - kv.2))
                   (burnerCooldowns s') = burnerCooldowns s').
    { apply map_filter_id. intros k t Hk. simpl. specialize (Hcd k t Hk). lia. }
    rewrite Hf.
    assert (Hc : forall limit (m : gmap string Z),
              capAt limit <$> (capAt limit <$> m) = capAt limit <$> m).
    { intros limit m. rewrite <- map_fmap_compose. apply map_fmap_ext.
      intros k c _. apply capAt_idem. }
    assert (Ht : capAt 100 <$> burnerTradeCount s' = burnerTradeCount s')
      by (unfold s', cleanupBurners; simpl; apply Hc).
    assert (Hs : capAt 20 <$> burnerSeasoningCount s' = burnerSeasoningCount s')
      by (unfold s', cleanupBurners; simpl; apply Hc).
    rewrite Ht, Hs. by destruct s'. }
  split; [done|].
  unfold getAvailableBurners.
  destruct (negb (bwcEnabled cfg) || _); [done|].
  cbv zeta. cbn [fst]. by rewrite Hidem.
Qed.

End BurnerWalletManagerFacts.

(** ** Burner wallet manager: creation and its pacing *)

Module BurnerCreationFacts.
Import BurnerWalletManager BurnerCreation.
Import BurnerWalletManagerProofs.

Lemma mapDelete_mapSet {V} k (v : V) (m : list (string * V)) :
  mapDelete k (mapSet k v m) = mapDelete k m.
Proof.
  unfold mapDelete. induction m as [|[k' x] m IH]; simpl.
  - rewrite filter_cons. simpl. by rewrite decide_False by (intros H; by apply H).
  - destruct (String.eqb_spec k' k) as [->|Hne].
    + rewrite !filter_cons. simpl. by rewrite !decide_False by (intros H; by apply H).
    + rewrite !filter_cons. simpl. rewrite !decide_True by done. by rewrite IH.
Qed.

Lemma mapDelete_fresh {V} k (m : list (string * V)) :
  (k ∉ m.*1) -> mapDelete k m = m.
Proof.
  unfold mapDelete. induction m as [|[k' x] m IH]; csimpl; intros Hfresh; [done|].
  rewrite not_elem_of_cons in Hfresh. destruct Hfresh as [Hne Hfresh].
  rewrite filter_cons. simpl. rewrite decide_True by done. by rewrite IH.
Qed.

Lemma active_mapSet (pending : gset string) k (v : WalletData)
    (m : list (string * WalletData)) :
  (length (filter (fun entry : string * WalletData => entry.1 ∉ pending) (mapSet k v m))
   <= length (filter (fun entry : string * WalletData => entry.1 ∉ pending) m) + 1)%nat /\
  ((k ∉ m.*1) -> (k ∉ pending) ->
   length (filter (fun entry : string * WalletData => entry.1 ∉ pending) (mapSet k v m))
   = (length (filter (fun entry : string * WalletData => entry.1 ∉ pending) m) + 1)%nat).
Proof.
  induction m as [|[k' x] m [IHle IHeq]]; csimpl.
  - rewrite filter_cons. simpl. split.
    + case_decide; simpl; lia.
    + intros _ Hk. by rewrite decide_True.
  - destruct (String.eqb_spec k' k) as [->|Hne].
    + split.
      * rewrite !filter_cons. simpl. case_decide; simpl; lia.
      * intros Hfresh. exfalso. apply Hfresh. by left.
    + split.
      * rewrite !filter_cons. simpl. case_decide; simpl; lia.
      * intros Hfresh Hk. rewrite not_elem_of_cons in Hfresh.
        rewrite !filter_cons. simpl. case_decide; simpl; rewrite IHeq; tauto.
Qed.

Lemma active_mapDelete (pending : gset string) k (m : list (string * WalletData)) :
  (length (filter (fun entry : string * WalletData => entry.1 ∉ pending) (mapDelete k m))
   <= length (filter (fun entry : string * WalletData => entry.1 ∉ pending) m))%nat.
Proof.
  unfold mapDelete. induction m as [|e m IH]; [done|].
  rewrite !filter_cons. repeat case_decide; simpl; rewrite ?filter_cons;
    repeat case_decide; simpl; try lia; done.
Qed.

Lemma create_spec cfg a s :
  pendingDisposal (createBurnerWallet cfg a s).1 = pendingDisposal s /\
  getActiveBurnerCount (createBurnerWallet cfg a s).1 <= getActiveBurnerCount s + 1.
Proof.
  unfold createBurnerWallet.
  destruct (BurnerFunding.candidateBalances (connection a)); simpl; [split; [done | lia]|].
  destruct (BurnerFunding.success _); simpl.
  - split; [done|]. unfold getActiveBurnerCount. simpl.
    pose proof (proj1 (active_mapSet (pendingDisposal s) (newPubkey a)
      {| name := "Burner-" +:+ String.substring 0 8 (newPubkey a);
         created := createdAt a |} (burnerWallets s))). lia.
  - split; [done|]. unfold getActiveBurnerCount. simpl. rewrite mapDelete_mapSet.
    pose proof (active_mapDelete (pendingDisposal s) (newPubkey a) (burnerWallets s)).
    lia.
Qed.

(** A creation whose funding fails leaves no trace: for a key that is new
    to the manager, the manager is exactly as before.  A creation whose
    funding succeeds tracks the burner with a zero count and a zero
    cooldown and, unless its key is pending disposal, adds one active
    burner.  Without a relayer nothing is created. *)
Theorem failed_creation_leaves_no_trace (cfg : Config) (a : Attempt) (s : State) :
  ~ tracked (newPubkey a) s ->
  burnerCooldowns s !! newPubkey a = None ->
  burnerTradeCount s !! newPubkey a = None ->
  ((createBurnerWallet cfg a s).2 = false -> (createBurnerWallet cfg a s).1 = s) /\
  ((createBurnerWallet cfg a s).2 = true ->
   tracked (newPubkey a) (createBurnerWallet cfg a s).1 /\
   burnerTradeCount (createBurnerWallet cfg a s).1 !! newPubkey a = Some 0 /\
   burnerCooldowns (createBurnerWallet cfg a s).1 !! newPubkey a = Some 0 /\
   ((newPubkey a ∉ pendingDisposal s) ->
    getActiveBurnerCount (createBurnerWallet cfg a s).1 = getActiveBurnerCount s + 1)) /\
  (BurnerFunding.candidateBalances (connection a) = [] ->
   createBurnerWallet cfg a s = (s, false)).
Proof.
  intros Hfresh Hcd Hcount. unfold createBurnerWallet.
  destruct (BurnerFunding.candidateBalances (connection a)) as [|c cs]; simpl.
  { split_and!; done. }
  destruct (BurnerFunding.success _); simpl.
  - split_and!; [done | | done].
    intros _. split_and!.
    + unfold tracked. simpl. apply keys_mapSet. by left.
    + by rewrite lookup_insert_eq.
    + by rewrite lookup_insert_eq.
    + intros Hp. unfold getActiveBurnerCount. simpl.
      rewrite (proj2 (active_mapSet (pendingDisposal s) (newPubkey a) _ (burnerWallets s)))
        by done. lia.
  - split_and!; [| done | done].
    intros _. rewrite mapDelete_mapSet, mapDelete_fresh by done.
    rewrite !delete_insert_id by done.
    destruct s as [bw cd tc sc pd tm [n1 n2 n3 n4]]. simpl. do 2 f_equal. lia.
Qed.

Lemma failed_creation_leaves_no_trace_witness :
  tracked "BurnerC" (createBurnerWallet smallPool (fundedAttempt 0) twoBurners).1.
Proof.
  refine (proj1 (proj1 (proj2 (failed_creation_leaves_no_trace smallPool (fundedAttempt 0)
                                 twoBurners _ _ _)) _)).
  - unfold tracked. rewrite <- mapHas_true. by vm_compute.
  - by vm_compute.
  - by vm_compute.
  - by vm_compute.
Defined.

Lemma createLoop_spec cfg now attempts :
  forall b s,
    consecutiveFundingFailures b < maxFundingFailures ->
    pendingDisposal (createLoop cfg now attempts b s).2 = pendingDisposal s /\
    getActiveBurnerCount (createLoop cfg now attempts b s).2
      <= getActiveBurnerCount s + Z.of_nat (length attempts) /\
    (consecutiveFundingFailures (createLoop cfg now attempts b s).1 < maxFundingFailures \/
     creationPausedUntil (createLoop cfg now attempts b s).1 = now + 300000) /\
    lastCreationCheck (createLoop cfg now attempts b s).1 = lastCreationCheck b.
Proof.
  induction attempts as [|a rest IH]; intros b s Hb.
  - simpl. split_and!; [done | lia | by left | done].
  - cbn [createLoop].
    pose proof (create_spec cfg a s) as [Hp Hc].
    destruct (createBurnerWallet cfg a s) as [s1 ok]. cbn [fst snd] in Hp, Hc.
    destruct ok.
    + match goal with
      | |- context [createLoop cfg now rest ?b1 s1] =>
          destruct (IH b1 s1) as (IHp & IHc & IHf & IHl); [unfold maxFundingFailures; simpl; lia|]
      end.
      split_and!; [congruence | simpl length; lia | done | done].
    + destruct (Z.leb_spec maxFundingFailures (consecutiveFundingFailures b + 1)).
      * simpl. split_and!; [done | lia | by right | done].
      * match goal with
        | |- context [createLoop cfg now rest ?b1 s1] =>
            destruct (IH b1 s1) as (IHp & IHc & IHf & IHl); [simpl; lia|]
        end.
        split_and!; [congruence | simpl length; lia | done | done].
Qed.

(** The creation of burners is paced.  A call of [ensureMinimumBurners]
    never touches the burners pending disposal, adds at most two active
    burners and never takes the pool above [bwcMaxBurnerWallets]; when it
    leaves the failure counter at its limit, creation is paused beyond the
    time of the call; a paused call changes nothing; a call made within the
    creation interval, or without relayers, creates nothing; and a call
    that changed the pool has recorded its time as the last check. *)
Theorem creation_is_paced (cfg : Config) (relayerCount : nat) (attempt : nat -> Attempt)
    (now : Z) (b : Breaker) (s : State) :
  let r := ensureMinimumBurners cfg relayerCount attempt now b s in
  pendingDisposal r.2 = pendingDisposal s /\
  getActiveBurnerCount r.2 <= Z.max (getActiveBurnerCount s) (bwcMaxBurnerWallets cfg) /\
  getActiveBurnerCount r.2 <= getActiveBurnerCount s + 2 /\
  (maxFundingFailures <= consecutiveFundingFailures r.1 -> now < creationPausedUntil r.1) /\
  (maxFundingFailures <= consecutiveFundingFailures b -> now < creationPausedUntil b ->
   r = (b, s)) /\
  (now - lastCreationCheck b < bwcBurnerCreationInterval cfg -> r.2 = s) /\
  (relayerCount = 0%nat -> r.2 = s) /\
  (r.2 <> s -> lastCreationCheck r.1 = now).
Proof.
  unfold ensureMinimumBurners.
  destruct (Z.leb_spec maxFundingFailures (consecutiveFundingFailures b)) as [Hmax|Hmax];
    destruct (Z.ltb_spec now (creationPausedUntil b)) as [Hp|Hp]; cbn [andb].
  1: { cbv zeta. cbn [fst snd]. split_and!; try done; lia. }
  all: match goal with
       | |- context [_ - lastCreationCheck ?b1 <? _] => set (b1' := b1)
       end.
  all: assert (Hb1 : consecutiveFundingFailures b1' < maxFundingFailures)
         by (subst b1'; unfold maxFundingFailures in *; simpl; lia).
  all: assert (Hl1 : lastCreationCheck b1' = lastCreationCheck b) by done.
  all: clearbody b1'.
  all: cbv zeta; destruct (Z.ltb_spec (now - lastCreationCheck b1')
                             (bwcBurnerCreationInterval cfg)) as [Hi|Hi];
         [cbn [fst snd]; split_and!; try done; lia|].
  all: destruct (Z.leb_spec (bwcMaxBurnerWallets cfg) (getActiveBurnerCount s)) as [Ht|Ht];
         [cbn [fst snd]; split_and!; try done; simpl; lia|].
  all: destruct (Nat.eqb_spec relayerCount 0) as [Hr|Hr];
         [cbn [fst snd]; split_and!; try done; simpl; lia|].
  all: match goal with
       | |- context [createLoop _ _ ?l _ _] =>
           pose proof (createLoop_spec cfg now l b1' s Hb1) as (Hpd & Hc & Hf & Hl);
           assert (Hlen : Z.of_nat (length l)
                          = Z.min (bwcMaxBurnerWallets cfg - getActiveBurnerCount s) 2)
             by (rewrite length_map, length_seq; lia);
           destruct (createLoop cfg now l b1' s) as [b2 s2]
       end.
  all: cbn [fst snd] in *; split_and!; try done; simpl; lia.
Qed.

End BurnerCreationFacts.

(** ** Funding of a burner wallet: what is sent, and from whom *)

Module BurnerFundingFacts.
Import BurnerFunding.

Lemma findRelayer_spec totalRequired balances :
  forall index i bal,
    findRelayer totalRequired index balances = Some (i, bal) ->
    (index <= i)%nat /\
    balances !! (i - index)%nat = Some (Returned bal) /\
    totalRequired <= bal /\
    (forall j b, (j < i - index)%nat -> balances !! j = Some (Returned b) ->
                 b < totalRequired).
Proof.
  induction balances as [|[b0|] rest IH]; intros index i bal; simpl; [done| |].
  - destruct (Z.leb_spec totalRequired b0) as [Hle|Hlt].
    + intros [= <- <-]. rewrite Nat.sub_diag. split_and!; [lia | done | done | lia].
    + intros (Hi & Hl & Hb & Hbefore)%IH.
      replace (i - index)%nat with (S (i - S index)) by lia.
      split_and!; [lia | done | done |].
      intros [|j] b Hj; simpl; [by intros [= <-] | apply Hbefore; lia].
  - intros (Hi & Hl & Hb & Hbefore)%IH.
    replace (i - index)%nat with (S (i - S index)) by lia.
    split_and!; [lia | done | done |].
    intros [|j] b Hj; simpl; [done | apply Hbefore; lia].
Qed.

Lemma transferFrom_spec amount conn relayer bal i lamports :
  0 < amount ->
  submitted (transferFrom amount conn relayer bal) = Some (i, lamports) ->
  i = relayer /\ 0 < lamports <= amount /\ lamports + estimatedFee <= bal /\
  (lamports < amount -> lamports + estimatedFee = bal).
Proof.
  intros Hpos. unfold transferFrom.
  destruct (Z.ltb_spec bal (amount + estimatedFee)) as [Hlt|Hge]; cbn [andb].
  - destruct (Z.leb_spec (bal - estimatedFee) 0); [done|].
    destruct (_ || _); [done|].
    destruct (sendTransaction conn); [destruct (confirmation conn)|]; intros [= <- <-];
      split_and!; try done; lia.
  - destruct (_ || _); [done|].
    destruct (sendTransaction conn); [destruct (confirmation conn)|]; intros [= <- <-];
      split_and!; try done; lia.
Qed.

Lemma transferFrom_success amount conn relayer bal :
  success (transferFrom amount conn relayer bal) = true ->
  (exists lamports, submitted (transferFrom amount conn relayer bal)
                    = Some (relayer, lamports)) /\
  exists sig, sendTransaction conn = Returned sig.
Proof.
  unfold transferFrom. destruct (_ && _); [done|]. destruct (_ || _); [done|].
  destruct (sendTransaction conn) as [sig|]; [|done].
  destruct (confirmation conn); intros _; by eauto.
Qed.

(** A burner is never funded beyond the means of its relayer.  For a
    positive [bwcBurnerFundAmount], the transfer [fundBurnerWallet] submits
    is positive, at most the configured amount, and together with the
    estimated fee at most the balance the relayer showed; it is drawn from
    the first relayer that showed enough for the whole amount, else from the
    first relayer, which then sends all it has above the fee and holds at
    least 0.01 SOL.  A funding reported as successful has submitted a
    transfer that the node accepted. *)
Theorem burner_funding_within_means (amount : Z) (conn : Connection) :
  0 < amount ->
  (forall i lamports,
     submitted (fundBurnerWallet amount conn) = Some (i, lamports) ->
     0 < lamports <= amount /\
     ((exists bal, candidateBalances conn !! i = Some (Returned bal) /\
                   lamports = amount /\ amount + estimatedFee <= bal /\
                   forall j b, (j < i)%nat ->
                               candidateBalances conn !! j = Some (Returned b) ->
                               b < amount + estimatedFee) \/
      (i = 0%nat /\
       exists bal, firstRelayerBalance conn = Returned bal /\
                   lamports + estimatedFee <= bal /\
                   (lamports < amount ->
                    lamports + estimatedFee = bal /\ 10000000 <= bal)))) /\
  (success (fundBurnerWallet amount conn) = true ->
   (exists i lamports, submitted (fundBurnerWallet amount conn) = Some (i, lamports)) /\
   exists sig, sendTransaction conn = Returned sig).
Proof.
  intros Hpos. unfold fundBurnerWallet.
  destruct (candidateBalances conn) as [|c cs] eqn:Hcs; [done|].
  rewrite <- Hcs. clear Hcs c cs.
  destruct (findRelayer _ _ _) as [[relayer bal]|] eqn:Hfind.
  - apply findRelayer_spec in Hfind as (_ & Hl & Hb & Hbefore).
    rewrite Nat.sub_0_r in Hl, Hbefore. split.
    + intros i lamports (-> & Hrange & Hfee & Hshort)%transferFrom_spec; [|done].
      split; [done|]. left. exists bal. split_and!; [done | lia | done | done].
    + intros (Hsub & Hsend)%transferFrom_success. destruct Hsub as [l Hl']. by eauto.
  - destruct (firstRelayerBalance conn) as [bal|]; [|done].
    assert (Hvia : forall i lamports,
               submitted (transferFrom amount conn 0 bal) = Some (i, lamports) ->
               (bal < amount + estimatedFee -> 10000000 <= bal) ->
               0 < lamports <= amount /\
               ((exists bal, candidateBalances conn !! i = Some (Returned bal) /\
                             lamports = amount /\ amount + estimatedFee <= bal /\
                             forall j b, (j < i)%nat ->
                                         candidateBalances conn !! j = Some (Returned b) ->
                                         b < amount + estimatedFee) \/
                (i = 0%nat /\
                 exists bal', Returned bal = Returned bal' /\
                              lamports + estimatedFee <= bal' /\
                              (lamports < amount ->
                               lamports + estimatedFee = bal' /\ 10000000 <= bal')))).
    { intros i lamports (-> & Hrange & Hfee & Hshort)%transferFrom_spec Hlow; [|done].
      split; [done|]. right. split; [done|]. exists bal.
      split_and!; [done | done |]. intros Hlt. split; [by apply Hshort|].
      apply Hlow. specialize (Hshort Hlt). lia. }
    destruct (Z.ltb_spec bal (amount + estimatedFee)) as [Hlt|Hge].
    + destruct (_ || _); [done|].
      destruct (Z.leb_spec bal 0); [done|].
      destruct (Z.ltb_spec bal 10000000); [done|]. split.
      * intros i lamports Hs. by apply Hvia.
      * intros (Hsub & Hsend)%transferFrom_success. destruct Hsub as [l Hl']. by eauto.
    + split.
      * intros i lamports Hs. apply Hvia; [done | lia].
      * intros (Hsub & Hsend)%transferFrom_success. destruct Hsub as [l Hl']. by eauto.
Qed.

Lemma burner_funding_within_means_witness :
  (exists i lamports,
     submitted (fundBurnerWallet 20000000 timeoutConnection) = Some (i, lamports)) /\
  exists sig, sendTransaction timeoutConnection = Returned sig.
Proof.
  apply (burner_funding_within_means 20000000 timeoutConnection); [lia | reflexivity].
Defined.

End BurnerFundingFacts.

(** ** Wallet manager: what a funding delivers, and when a wallet counts as funded *)

Module WalletManagerFacts.
Import WalletManager Measures.
Import WalletManagerProofs.

Lemma deliveredTotal_app evs1 evs2 :
  deliveredTotal (evs1 ++ evs2) = deliveredTotal evs1 + deliveredTotal evs2.
Proof.
  induction evs1 as [|[]]; simpl; lia.
Qed.

Lemma calculateFundingPart_bounds remaining remainingParts factor :
  MIN_SOL_BUFFER_LAMPORTS < remaining ->
  MIN_SOL_BUFFER_LAMPORTS <= calculateFundingPart remaining remainingParts factor
  <= remaining.
Proof. unfold calculateFundingPart. lia. Qed.

Lemma loopHead_budget r w balance remaining parts p sh deficit :
  remaining <= deficit ->
  withinBudget w deficit (Z.max 0 remaining) (loopHead r w balance remaining parts p sh).
Proof.
  intros Hd. pose proof (eq_refl : MIN_SOL_BUFFER_LAMPORTS = 5000) as HMIN.
  unfold loopHead.
  destruct ((p <? parts)%nat && (MIN_SOL_BUFFER_LAMPORTS <? remaining)) eqn:Hc.
  - apply andb_true_iff in Hc as [_ Hrem%Z.ltb_lt].
    pose proof (calculateFundingPart_bounds remaining (Z.of_nat (parts - p)) (r_factor r)
                  Hrem) as Hb.
    unfold withinBudget. cbn. split_and!.
    + right. split_and!; [done | lia | lia | lia].
    + lia.
    + repeat constructor; simpl; lia.
  - unfold withinBudget. cbn. split_and!; [by left | lia | by repeat constructor].
Qed.

Lemma nextRetry_budget r f txSuccess sh deficit :
  0 <= f_remaining f -> f_remaining f <= deficit ->
  (txSuccess = false ->
   MIN_SOL_BUFFER_LAMPORTS <= f_cappedPart f /\ f_cappedPart f <= f_remaining f) ->
  withinBudget (f_wallet f) deficit (f_remaining f) (nextRetry r f txSuccess sh).
Proof.
  intros H0 Hd Hok. pose proof (eq_refl : MIN_SOL_BUFFER_LAMPORTS = 5000) as HMIN.
  unfold nextRetry.
  destruct ((S (f_retry f) <=? maxRetries)%nat && negb txSuccess) eqn:Hc.
  - apply andb_true_iff in Hc as [_ Hs%negb_true_iff]. specialize (Hok Hs).
    unfold withinBudget. cbn. split_and!.
    + right. split_and!; [done | lia | lia | lia].
    + lia.
    + repeat constructor; simpl; lia.
  - pose proof (loopHead_budget r (f_wallet f) (f_balance f) (f_remaining f) (f_parts f)
                  (S (f_p f)) sh deficit Hd) as Hl.
    by rewrite Z.max_r in Hl by done.
Qed.

Lemma backoffOrNext_budget r f sh deficit :
  f_remaining f <= deficit ->
  MIN_SOL_BUFFER_LAMPORTS <= f_cappedPart f /\ f_cappedPart f <= f_remaining f ->
  withinBudget (f_wallet f) deficit (f_remaining f) (backoffOrNext r f sh).
Proof.
  intros Hd Hok. pose proof (eq_refl : MIN_SOL_BUFFER_LAMPORTS = 5000) as HMIN.
  unfold backoffOrNext. destruct (f_retry f <? maxRetries)%nat.
  - unfold withinBudget. cbn. split_and!; [right; split_and!; [done | lia | lia | lia] | lia
                                           | constructor].
  - apply nextRetry_budget; [lia | done | done].
Qed.

Lemma delivered_budget f basis sh deficit :
  f_remaining f <= deficit ->
  MIN_SOL_BUFFER_LAMPORTS <= f_cappedPart f /\ f_cappedPart f <= f_remaining f ->
  withinBudget (f_wallet f) deficit (f_remaining f) (delivered f basis sh).
Proof.
  intros Hd Hok. pose proof (eq_refl : MIN_SOL_BUFFER_LAMPORTS = 5000) as HMIN.
  unfold delivered, withinBudget. cbn. split_and!.
  - right. split_and!; [done | lia | lia].
  - lia.
  - repeat constructor; simpl; lia.
Qed.

Lemma resume_budget fundAmount r t sh w deficit :
  inLoop t = Some w -> trancheInBounds t -> outstanding t <= deficit ->
  withinBudget w deficit (outstanding t) (resume fundAmount r t sh).
Proof.
  destruct t as [w0|w0|f|f sig|f sig|f|f|]; cbn [inLoop inFlight walletOf]; try done;
    intros [= <-] Hok Hd; cbn [trancheInBounds outstanding] in *; cbn [resume];
    pose proof (eq_refl : MIN_SOL_BUFFER_LAMPORTS = 5000) as HMIN.
  - destruct (r_send r).
    + unfold withinBudget. cbn.
      split_and!; [right; split_and!; [done | lia | lia | lia] | lia | constructor].
    + by apply backoffOrNext_budget.
  - destruct (r_confirm r).
    + by apply delivered_budget.
    + unfold withinBudget. cbn.
      split_and!; [right; split_and!; [done | lia | lia | lia] | lia | constructor].
    + by apply backoffOrNext_budget.
  - destruct (verifyTransaction _ _ _ _);
      [by apply delivered_budget | by apply backoffOrNext_budget
       | by apply backoffOrNext_budget].
  - by apply nextRetry_budget.
  - apply nextRetry_budget; [lia | done | done].
Qed.

Lemma drive_settled fundAmount fuel :
  forall answers sh, drive fundAmount answers fuel Settled sh = (Settled, sh, []).
Proof.
  induction fuel as [|fuel IH]; intros answers sh; [done|].
  rewrite drive_cons. cbn [resume]. cbv zeta. cbn [fst snd]. by rewrite IH.
Qed.

Lemma drive_budget fundAmount w deficit fuel :
  forall answers t sh,
    t = Settled \/ (inLoop t = Some w /\ trancheInBounds t /\ outstanding t <= deficit) ->
    deliveredTotal (drive fundAmount answers fuel t sh).2 <= outstanding t /\
    Forall (trancheEvent w deficit) (drive fundAmount answers fuel t sh).2.
Proof.
  induction fuel as [|fuel IH]; intros answers t sh Ht.
  - simpl. split; [|constructor].
    destruct Ht as [->|(Hin & Hok & _)]; [done|].
    pose proof (eq_refl : MIN_SOL_BUFFER_LAMPORTS = 5000) as HMIN.
    destruct t; simpl in *; try done; lia.
  - destruct Ht as [->|(Hin & Hok & Hd)].
    { rewrite drive_settled. simpl. split; [done | constructor]. }
    rewrite drive_cons. cbv zeta. cbn [fst snd].
    pose proof (resume_budget fundAmount (answers 0%nat) t sh w deficit Hin Hok Hd)
      as (Hnext & Hsum & Hevs).
    destruct (IH (fun n => answers (S n)) (resume fundAmount (answers 0%nat) t sh).1.1
                (resume fundAmount (answers 0%nat) t sh).1.2 Hnext) as [IHsum IHevs].
    rewrite deliveredTotal_app. split; [lia | by apply Forall_app].
Qed.

Lemma sentCount_app evs1 evs2 :
  sentCount (evs1 ++ evs2) = (sentCount evs1 + sentCount evs2)%nat.
Proof. induction evs1 as [|[]]; simpl; lia. Qed.

Lemma sentTotal_bound w deficit evs :
  Forall (trancheEvent w deficit) evs ->
  sentTotal evs <= Z.of_nat (sentCount evs) * Z.max 0 deficit.
Proof.
  pose proof (eq_refl : MIN_SOL_BUFFER_LAMPORTS = 5000) as HMIN.
  induction 1 as [|[] evs Hev _ IH]; simpl in *; lia.
Qed.

Lemma loopHead_sends r w balance remaining parts p sh :
  (sentCount (loopHead r w balance remaining parts p sh).2
   + sendsLeft (loopHead r w balance remaining parts p sh).1.1 <= 3 * (parts - p))%nat.
Proof.
  unfold loopHead. destruct (Nat.ltb_spec p parts); cbn [andb]; [|simpl; lia].
  destruct (MIN_SOL_BUFFER_LAMPORTS <? remaining); simpl; unfold maxRetries; lia.
Qed.

Lemma nextRetry_sends r f txSuccess sh :
  (sentCount (nextRetry r f txSuccess sh).2 + sendsLeft (nextRetry r f txSuccess sh).1.1
   <= (if txSuccess then 0 else maxRetries - f_retry f)
      + 3 * (f_parts f - S (f_p f)))%nat.
Proof.
  unfold nextRetry. destruct (Nat.leb_spec (S (f_retry f)) maxRetries); cbn [andb].
  - destruct txSuccess; cbn [negb].
    + pose proof (loopHead_sends r (f_wallet f) (f_balance f) (f_remaining f) (f_parts f)
                    (S (f_p f)) sh). lia.
    + simpl. unfold maxRetries in *. lia.
  - pose proof (loopHead_sends r (f_wallet f) (f_balance f) (f_remaining f) (f_parts f)
                  (S (f_p f)) sh). destruct txSuccess; lia.
Qed.

Lemma backoffOrNext_sends r f sh :
  (sentCount (backoffOrNext r f sh).2 + sendsLeft (backoffOrNext r f sh).1.1
   <= (maxRetries - f_retry f) + 3 * (f_parts f - S (f_p f)))%nat.
Proof.
  unfold backoffOrNext. destruct (f_retry f <? maxRetries)%nat; [simpl; lia|].
  apply (nextRetry_sends r f false sh).
Qed.

Lemma resume_sends fundAmount r t sh w :
  inLoop t = Some w ->
  (sentCount (resume fundAmount r t sh).2 + sendsLeft (resume fundAmount r t sh).1.1
   <= sendsLeft t)%nat.
Proof.
  destruct t as [w0|w0|f|f sig|f sig|f|f|]; cbn [inLoop inFlight walletOf]; try done;
    intros _; cbn [resume sendsLeft].
  - destruct (r_send r); [simpl; lia | apply backoffOrNext_sends].
  - destruct (r_confirm r); [simpl; lia | simpl; lia | apply backoffOrNext_sends].
  - destruct (verifyTransaction _ _ _ _);
      [simpl; lia | apply backoffOrNext_sends | apply backoffOrNext_sends].
  - apply (nextRetry_sends r f true sh).
  - apply (nextRetry_sends r f false sh).
Qed.

Lemma drive_sends fundAmount w deficit fuel :
  forall answers t sh,
    t = Settled \/ (inLoop t = Some w /\ trancheInBounds t /\ outstanding t <= deficit) ->
    (sentCount (drive fundAmount answers fuel t sh).2 <= sendsLeft t)%nat.
Proof.
  induction fuel as [|fuel IH]; intros answers t sh Ht; [simpl; lia|].
  destruct Ht as [->|(Hin & Hok & Hd)]; [by rewrite drive_settled|].
  rewrite drive_cons. cbv zeta. cbn [fst snd]. rewrite sentCount_app.
  pose proof (resume_sends fundAmount (answers 0%nat) t sh w Hin) as Hstep.
  pose proof (resume_budget fundAmount (answers 0%nat) t sh w deficit Hin Hok Hd)
    as (Hnext & _ & _).
  pose proof (IH (fun n => answers (S n)) _ (resume fundAmount (answers 0%nat) t sh).1.2
                Hnext).
  lia.
Qed.

(** What a funding books as delivered stays within the deficit it found;
    what it sends need not.  When the balance query of a call of
    [fundSingleWallet] answers [balance], the tranches the call counts as
    delivered sum to at most [fundAmount - balance] (to nothing when that
    is negative); every transfer it submits goes to the wallet of the call
    and carries at least [MIN_SOL_BUFFER_LAMPORTS] and at most that
    deficit; and it submits at most three transfers for each of its one to
    four tranches, so at most twelve, which bounds what it sends by twelve
    times the deficit.  This holds however the sends, confirmations and
    verifications turn out and however far the call has got.  The sum of
    what is sent is not bounded by the deficit: a transfer that is not
    confirmed in time and not verified is sent again, and once the retries
    are used up the wallet is marked funded with nothing booked; with a
    deficit of 0.04 SOL in one tranche, three transfers of 0.04 SOL are
    submitted and none is counted. *)
Theorem booked_tranches_stay_within_deficit (fundAmount : Z) (answers : nat -> Response)
    (fuel : nat) (w : Wallet) (sh : Shared) (balance : Z) :
  r_balance (answers 1%nat) = Returned balance ->
  let evs := (drive fundAmount answers fuel (Called w) sh).2 in
  deliveredTotal evs <= Z.max 0 (fundAmount - balance) /\
  Forall (trancheEvent w (fundAmount - balance)) evs /\
  (sentCount evs <= 3 * (r_partsDraw (answers 1%nat) mod 4 + 1) <= 12)%nat /\
  sentTotal evs <= 12 * Z.max 0 (fundAmount - balance) /\
  (let stalled :=
     (drive 50000000 (fun _ => timeoutResponse) 102 (Called walletA)
        {| funded := ∅; fundingLocks := ∅ |}) in
   sentTotal stalled.2 = 3 * (50000000 - 10000000) /\
   deliveredTotal stalled.2 = 0 /\
   stalled.1.1 = Settled /\
   funded stalled.1.2 = {["WalletA"]}).
Proof.
  intros Hbal. cbv zeta.
  assert (Hparts : (3 * (r_partsDraw (answers 1%nat) mod 4 + 1) <= 12)%nat).
  { pose proof (Nat.mod_upper_bound (r_partsDraw (answers 1%nat)) 4). lia. }
  assert (Hmain :
    deliveredTotal (drive fundAmount answers fuel (Called w) sh).2
      <= Z.max 0 (fundAmount - balance) /\
    Forall (trancheEvent w (fundAmount - balance))
      (drive fundAmount answers fuel (Called w) sh).2 /\
    (sentCount (drive fundAmount answers fuel (Called w) sh).2
     <= 3 * (r_partsDraw (answers 1%nat) mod 4 + 1))%nat).
  { destruct fuel as [|fuel]; [simpl; split_and!; [lia | constructor | lia]|].
    rewrite drive_cons. cbv zeta.
    destruct (resume_called fundAmount (answers 0%nat) w sh)
      as [[_ ->]|[(_ & _ & _ & ->)|(_ & _ & _ & ->)]]; cbn [fst snd app].
    1, 3: rewrite drive_settled; simpl; split_and!; [lia | constructor | lia].
    destruct fuel as [|fuel]; [simpl; split_and!; [lia | constructor | lia]|].
    rewrite drive_cons. cbv zeta. cbn [resume]. rewrite Hbal.
    destruct (Z.quot (fundAmount * 8) 10 <=? balance).
    { cbn [fst snd]. rewrite drive_settled. simpl.
      split_and!; [lia | by repeat constructor | lia]. }
    set (parts := (r_partsDraw (answers 1%nat) mod 4 + 1)%nat) in *.
    pose proof (loopHead_budget (answers 1%nat) w balance (fundAmount - balance)
                  parts 0%nat (addLock w sh)
                  (fundAmount - balance) ltac:(lia)) as (Hnext & Hsum & Hevs).
    pose proof (loopHead_sends (answers 1%nat) w balance (fundAmount - balance)
                  parts 0%nat (addLock w sh)) as Hsends.
    match goal with
    | |- context [drive fundAmount ?a fuel _ _] =>
        destruct (drive_budget fundAmount w (fundAmount - balance) fuel a _
                    (loopHead (answers 1%nat) w balance (fundAmount - balance)
                       parts 0%nat (addLock w sh)).1.2
                    Hnext) as [IHsum IHevs];
        pose proof (drive_sends fundAmount w (fundAmount - balance) fuel a _
                      (loopHead (answers 1%nat) w balance (fundAmount - balance)
                         parts 0%nat (addLock w sh)).1.2
                      Hnext) as IHsends
    end.
    cbn [fst snd app]. rewrite deliveredTotal_app, sentCount_app.
    split_and!; [lia | by apply Forall_app | lia]. }
  destruct Hmain as (Hdelivered & Hevents & Hcount).
  split_and!; try done; try (by vm_compute).
  pose proof (sentTotal_bound w (fundAmount - balance) _ Hevents) as Htotal. nia.
Qed.

Lemma booked_tranches_stay_within_deficit_witness :
  deliveredTotal
    (drive 50000000 (fun _ => quietResponse) 102 (Called walletA)
       {| funded := ∅; fundingLocks := ∅ |}).2 <= Z.max 0 (50000000 - 0).
Proof.
  refine (proj1 (booked_tranches_stay_within_deficit 50000000 (fun _ => quietResponse) 102
                   walletA {| funded := ∅; fundingLocks := ∅ |} 0 _)).
  reflexivity.
Defined.

Lemma resume_funded fundAmount r t sh w :
  inLoop t = Some w ->
  (inLoop (resume fundAmount r t sh).1.1 = Some w /\ (resume fundAmount r t sh).1.2 = sh) \/
  ((resume fundAmount r t sh).1.1 = Settled /\
   funded (resume fundAmount r t sh).1.2 = funded sh ∪ {[pubkey w]}).
Proof.
  destruct t as [w0|w0|f|f sig|f sig|f|f|]; cbn [inLoop inFlight walletOf]; try done;
    intros [= <-]; cbn [resume];
    repeat match goal with
           | |- context [match r_send r with _ => _ end] => destruct (r_send r)
           | |- context [match r_confirm r with _ => _ end] => destruct (r_confirm r)
           | |- context [match verifyTransaction ?a ?b ?c ?d with _ => _ end] =>
               destruct (verifyTransaction a b c d)
           end;
    unfold backoffOrNext, delivered, nextRetry, loopHead;
    repeat match goal with
           | |- context [if ?c then _ else _] => destruct c
           end;
    cbn; auto.
Qed.

Lemma drive_funded fundAmount w fuel :
  forall answers t sh,
    inLoop t = Some w -> (weight t <= fuel)%nat ->
    funded (drive fundAmount answers fuel t sh).1.2 = funded sh ∪ {[pubkey w]}.
Proof.
  induction fuel as [|fuel IH]; intros answers t sh Hin Hw.
  - destruct t; simpl in *; try done; unfold frameWeight in Hw; lia.
  - rewrite drive_cons. cbv zeta. cbn [fst snd].
    assert (Hne : t ≠ Settled) by (by destruct t).
    pose proof (resume_weight fundAmount (answers 0%nat) t sh Hne) as Hlt.
    destruct (resume_funded fundAmount (answers 0%nat) t sh w Hin) as [[Hin' Hsh]|[Hs Hf]].
    + rewrite IH by (done || lia). by rewrite Hsh.
    + rewrite Hs, drive_settled. done.
Qed.

(** A wallet counts as funded whatever was delivered.  A call of
    [fundSingleWallet] for a wallet that is neither funded nor locked adds
    the wallet to [funded] exactly when its key is valid and the balance
    query answers: no outcome of the sends, confirmations and verifications
    of the tranches prevents it, so a wallet all of whose transfers failed
    is marked funded all the same, and later calls skip it.  A wallet that
    is already funded, or locked, is left alone. *)
Theorem funded_whatever_was_delivered (fundAmount : Z) (answers : nat -> Response)
    (w : Wallet) (sh : Shared) :
  ((pubkey w ∉ funded sh) -> (lockKey w ∉ fundingLocks sh) ->
   funded (drive fundAmount answers 102 (Called w) sh).1.2 =
     if privateKeyValid w
     then match r_balance (answers 1%nat) with
          | Returned _ => funded sh ∪ {[pubkey w]}
          | Thrown => funded sh
          end
     else funded sh) /\
  ((pubkey w ∈ funded sh) \/ (lockKey w ∈ fundingLocks sh) ->
   drive fundAmount answers 102 (Called w) sh = (Settled, sh, [])).
Proof.
  split.
  - intros Hfunded Hlock. rewrite drive_cons. cbv zeta.
    destruct (resume_called fundAmount (answers 0%nat) w sh)
      as [[[?|?] _]|[(_ & _ & Hkey & ->)|(_ & _ & Hkey & ->)]]; try done;
      rewrite Hkey; cbn [fst snd]; [|by rewrite drive_settled].
    rewrite drive_cons. cbv zeta. cbn [resume].
    destruct (r_balance (answers 1%nat)) as [balance|];
      [|cbn [fst snd]; by rewrite drive_settled].
    destruct (Z.quot (fundAmount * 8) 10 <=? balance);
      [cbn [fst snd]; by rewrite drive_settled|].
    set (parts := (r_partsDraw (answers 1%nat) mod 4 + 1)%nat).
    assert (Hparts : (parts <= 4)%nat).
    { subst parts. pose proof (Nat.mod_upper_bound (r_partsDraw (answers 1%nat)) 4). lia. }
    pose proof (loopHead_weight (answers 1%nat) w balance (fundAmount - balance) parts 0%nat
                  (addLock w sh)) as [Hweight _].
    destruct (loopHead_cases (answers 1%nat) w balance (fundAmount - balance) parts 0%nat
                (addLock w sh)) as [(f & Hhead & Hw & _)|Hhead].
    + rewrite Hhead in Hweight |- *. cbn [fst snd] in *.
      rewrite (drive_funded fundAmount w) by (by rewrite <- Hw || lia). done.
    + rewrite Hhead. cbn [fst snd]. by rewrite drive_settled.
  - intros Hguard. rewrite drive_cons. cbv zeta.
    destruct (resume_called fundAmount (answers 0%nat) w sh)
      as [[_ ->]|[(? & ? & _)|(? & ? & _)]]; [|tauto|tauto].
    cbn [fst snd]. by rewrite drive_settled.
Qed.

Lemma band_bounds expected :
  0 <= expected ->
  99 * expected - 100 < 100 * Z.quot (expected * 99) 100 <= 99 * expected /\
  101 * expected - 100 < 100 * Z.quot (expected * 101) 100 <= 101 * expected.
Proof.
  intros He. rewrite !Z.quot_div_nonneg by lia.
  pose proof (Z.div_mod (expected * 99) 100 ltac:(lia)).
  pose proof (Z.mod_pos_bound (expected * 99) 100 ltac:(lia)).
  pose proof (Z.div_mod (expected * 101) 100 ltac:(lia)).
  pose proof (Z.mod_pos_bound (expected * 101) 100 ltac:(lia)).
  lia.
Qed.

(** [verifyTransaction] never takes an unchanged balance for a delivery.
    It answers [failed] exactly on a status that is confirmed or finalized
    with an error; a confirmed or finalized status decides alone, the
    balance is not consulted; and for an expected increase of at least two
    lamports (a tranche is at least 5000) it answers [success] only on such
    a status without error or when the balance rose, by more than 99 % of
    the tranche less one lamport and at most 101 % of it; an exact increase
    is accepted when the status is undecided. *)
Theorem verification_needs_an_increase (status : outcome (option SignatureStatus))
    (current : outcome Z) (expected prior : Z) :
  (verifyTransaction status current expected prior = VerifiedFailed <->
   exists v, status = Returned (Some v) /\
             (confirmationStatus v = Some Confirmed \/
              confirmationStatus v = Some Finalized) /\
             errIsNull v = false) /\
  (forall v, status = Returned (Some v) ->
             confirmationStatus v = Some Confirmed \/
             confirmationStatus v = Some Finalized ->
             verifyTransaction status current expected prior
             = if errIsNull v then VerifiedSuccess else VerifiedFailed) /\
  (2 <= expected ->
   verifyTransaction status current expected prior = VerifiedSuccess ->
   (exists v, status = Returned (Some v) /\
              (confirmationStatus v = Some Confirmed \/
               confirmationStatus v = Some Finalized) /\
              errIsNull v = true) \/
   exists balance, current = Returned balance /\ prior < balance /\
                   99 * expected - 100 < 100 * (balance - prior) <= 101 * expected) /\
  (0 <= expected ->
   verifyTransaction (Returned None) (Returned (prior + expected)) expected prior
   = VerifiedSuccess).
Proof.
  split_and!.
  - unfold verifyTransaction. split.
    + destruct status as [[v|]|]; [| |done].
      * destruct (confirmationStatus v) as [[]|] eqn:Hc; destruct (errIsNull v) eqn:He;
          try done; try (intros _; exists v; by auto);
          destruct current; try done; by destruct (_ && _).
      * destruct current; try done; by destruct (_ && _).
    + intros (v & -> & [Hc|Hc] & He); by rewrite Hc, He.
  - intros v -> [Hc|Hc]; unfold verifyTransaction; rewrite Hc; by destruct (errIsNull v).
  - intros He. pose proof (band_bounds expected ltac:(lia)) as [Hlow Hup].
    unfold verifyTransaction.
    assert (Hband : match current with
                    | Thrown => VerifiedUnknown
                    | Returned balance =>
                        if (Z.quot (expected * 99) 100 <=? balance - prior)
                           && (balance - prior <=? Z.quot (expected * 101) 100)
                        then VerifiedSuccess else VerifiedUnknown
                    end = VerifiedSuccess ->
                    exists balance, current = Returned balance /\ prior < balance /\
                      99 * expected - 100 < 100 * (balance - prior) <= 101 * expected).
    { destruct current as [balance|]; [|done].
      destruct (Z.leb_spec (Z.quot (expected * 99) 100) (balance - prior));
        destruct (Z.leb_spec (balance - prior) (Z.quot (expected * 101) 100)); try done.
      intros _. exists balance. split; [done|]. lia. }
    destruct status as [[v|]|]; [| |done]; [|by right; apply Hband].
    destruct (confirmationStatus v) as [[]|] eqn:Hc; destruct (errIsNull v) eqn:Herr;
      try done; try (intros _; left; exists v; by auto); by right; apply Hband.
  - intros He. pose proof (band_bounds expected He) as [Hlow Hup].
    unfold verifyTransaction.
    replace (prior + expected - prior) with expected by lia.
    destruct (Z.leb_spec (Z.quot (expected * 99) 100) expected);
      destruct (Z.leb_spec expected (Z.quot (expected * 101) 100)); try done; lia.
Qed.

End WalletManagerFacts.

(** ** Wallet rebalancer: what the P2P pairings do to the balances *)

Module WalletRebalancerFacts.
Import WalletRebalancer Measures.
Import WalletRebalancerProofs.

Lemma total_insert i x (bs : list Z) :
  (i < length bs)%nat -> total (<[i := x]> bs) = total bs - balanceOf bs i + x.
Proof.
  revert i. induction bs as [|b bs IH]; intros [|i] Hi; simpl in *; try lia.
  - unfold balanceOf. simpl. lia.
  - rewrite IH by lia. unfold balanceOf. simpl. lia.
Qed.

Lemma total_addTo i delta bs :
  (i < length bs)%nat -> total (addTo i delta bs) = total bs + delta.
Proof. intros Hi. unfold addTo. rewrite total_insert by done. lia. Qed.

Lemma needsFunding_elem cfg bs i :
  i ∈ needsFundingOf cfg bs <->
  (i < length bs)%nat /\ balanceOf bs i < minWalletBalanceLamports cfg.
Proof.
  unfold needsFundingOf. rewrite stableSort_elem, list_elem_of_filter, elem_of_seq.
  split; [intros [? ?] | intros [? ?]]; split; try done; lia.
Qed.

Lemma surplusLine_above cfg :
  0 <= targetWalletBalanceLamports cfg -> targetWalletBalanceLamports cfg <= surplusLine cfg.
Proof.
  intros Ht. unfold surplusLine. rewrite Z.quot_div_nonneg by lia.
  apply Z.div_le_lower_bound; lia.
Qed.

Lemma pairStep_moves cfg wallets hasSurplus ok snap st needy :
  0 <= targetWalletBalanceLamports cfg ->
  minWalletBalanceLamports cfg <= targetWalletBalanceLamports cfg ->
  (forall d, d ∈ hasSurplus ->
             (d < length snap)%nat /\ surplusLine cfg < balanceOf snap d) ->
  (needy < length snap)%nat -> balanceOf snap needy < minWalletBalanceLamports cfg ->
  movedTowardsTarget cfg snap (balances st) ->
  movedTowardsTarget cfg snap (balances (pairStep cfg wallets hasSurplus ok st needy)).
Proof.
  intros Ht Hmin Hsur Hn Hnb (Hlen & Htot & Hband).
  pose proof (surplusLine_above cfg Ht) as Hline.
  unfold pairStep. destruct (hasSurplus !! surplusIndex st) as [d|] eqn:Hd; [|done].
  destruct (String.eqb_spec (pubkeyOf wallets d) (pubkeyOf wallets needy)) as [|Hpk];
    [done|].
  cbn [balances].
  destruct (Z.ltb_spec (targetWalletBalanceLamports cfg - balanceOf (balances st) needy)
              (balanceOf (balances st) d - targetWalletBalanceLamports cfg)) as [Hatt|];
    cbn [andb]; [|done].
  destruct (ok d needy); [|done].
  assert (Hdn : d ≠ needy) by (intros ->; done).
  apply list_elem_of_lookup_2 in Hd. destruct (Hsur d Hd) as [Hdl Hdb].
  pose proof (Hband needy) as (Hneedy & _ & _).
  pose proof (Hband d) as (_ & _ & Hdonor). cbv zeta in Hneedy, Hdonor.
  specialize (Hneedy Hnb). specialize (Hdonor Hdb).
  split_and!.
  - by rewrite !length_addTo.
  - rewrite !total_addTo by (rewrite ?length_addTo; lia). lia.
  - intros i. cbv zeta.
    destruct (decide (i = needy)) as [->|Hin].
    + rewrite balanceOf_addTo_eq by (rewrite length_addTo; lia).
      rewrite balanceOf_addTo_ne by done. split_and!; intros; lia.
    + rewrite balanceOf_addTo_ne by done.
      destruct (decide (i = d)) as [->|Hid].
      * rewrite balanceOf_addTo_eq by lia. split_and!; intros; lia.
      * rewrite balanceOf_addTo_ne by done. apply Hband.
Qed.

Lemma p2p_fold_moves cfg wallets hasSurplus ok snap needies :
  0 <= targetWalletBalanceLamports cfg ->
  minWalletBalanceLamports cfg <= targetWalletBalanceLamports cfg ->
  (forall d, d ∈ hasSurplus ->
             (d < length snap)%nat /\ surplusLine cfg < balanceOf snap d) ->
  (forall n, n ∈ needies ->
             (n < length snap)%nat /\ balanceOf snap n < minWalletBalanceLamports cfg) ->
  forall st,
    movedTowardsTarget cfg snap (balances st) ->
    movedTowardsTarget cfg snap
      (balances (foldl (pairStep cfg wallets hasSurplus ok) st needies)).
Proof.
  intros Ht Hmin Hsur. induction needies as [|n needies IH]; intros Hneedy st Hst; [done|].
  simpl. apply IH.
  - intros m Hm. apply Hneedy. by right.
  - destruct (Hneedy n) as [Hn Hb]; [by left|]. by apply pairStep_moves.
Qed.

(** The P2P pairings move balances towards the target and never past it.
    For a target that is not negative and a minimum that is at most the
    target, the balances the rebalancer holds after the pairings have the
    sum of the balances it read; a wallet it read below the minimum is
    unchanged or exactly at the target; a wallet between the minimum and
    one and a half times the target is unchanged; and a wallet above that
    line has only given and stays strictly above the target.  This holds
    whichever transfers go through. *)
Theorem pairings_move_towards_target (cfg : Config) (wallets : list string)
    (snapshotBalances : list Z) (p2pSucceeds : nat -> nat -> bool) :
  0 <= targetWalletBalanceLamports cfg ->
  minWalletBalanceLamports cfg <= targetWalletBalanceLamports cfg ->
  movedTowardsTarget cfg snapshotBalances
    (balances (p2pLoop cfg wallets snapshotBalances p2pSucceeds)).
Proof.
  intros Ht Hmin.
  assert (Hstart : movedTowardsTarget cfg snapshotBalances snapshotBalances).
  { split_and!; [done | done |]. intros i. cbv zeta.
    pose proof (surplusLine_above cfg Ht). split_and!; intros; (by left) || lia. }
  unfold p2pLoop. destruct (_ && _); [|done].
  apply p2p_fold_moves; try done.
  - intros d Hd. by apply hasSurplus_elem.
  - intros n Hn. by apply needsFunding_elem.
Qed.

Lemma pairings_move_towards_target_witness :
  movedTowardsTarget bandConfig [10000000; 200000000]
    (balances (p2pLoop bandConfig twoWallets [10000000; 200000000] (fun _ _ => true))).
Proof.
  apply (pairings_move_towards_target bandConfig twoWallets [10000000; 200000000]
           (fun _ _ => true)); by vm_compute.
Defined.

End WalletRebalancerFacts.

(** ** Wallet manager: the active batch and the cooldown sweep *)

Module SelectionFacts.
Import Selection.

Lemma lookup_deleteAll keys :
  forall (m : gmap string Z) k,
    deleteAll keys m !! k = if decide (k ∈ keys) then None else m !! k.
Proof.
  unfold deleteAll. induction keys as [|key keys IH]; intros m k; simpl.
  - done.
  - rewrite IH. destruct (decide (k ∈ keys)) as [Hin|Hnin].
    + by rewrite decide_True by (by right).
    + destruct (decide (k = key)) as [->|Hne].
      * rewrite lookup_delete_eq. by rewrite decide_True by (by left).
      * rewrite lookup_delete_ne by done.
        rewrite decide_False; [done|]. rewrite elem_of_cons. tauto.
Qed.

Lemma older_keys now limit (m : gmap string Z) k :
  k ∈ (filter (fun kv : string * Z => limit < now - kv.2) (map_to_list m)).*1 <->
  exists t, m !! k = Some t /\ limit < now - t.
Proof.
  rewrite list_elem_of_fmap. split.
  - intros [[k' t] [-> [Hp Hin]%list_elem_of_filter]].
    apply elem_of_map_to_list in Hin. by eauto.
  - intros (t & Hl & Hp). exists (k, t). split; [done|].
    apply list_elem_of_filter. split; [done|]. by apply elem_of_map_to_list.
Qed.

Lemma lookup_sweep now limit (m : gmap string Z) k :
  deleteAll (filter (fun kv : string * Z => limit < now - kv.2) (map_to_list m)).*1 m !! k
  = match m !! k with
    | Some t => if decide (limit < now - t) then None else Some t
    | None => None
    end.
Proof.
  rewrite lookup_deleteAll. destruct (decide _) as [Hin|Hnin].
  - apply older_keys in Hin as (t & -> & Hp). by rewrite decide_True.
  - destruct (m !! k) as [t|] eqn:Hl; [|done].
    rewrite decide_False; [done|]. intros Hp. apply Hnin, older_keys. by eauto.
Qed.

Lemma filter_none {A} (P : A -> Prop) `{!forall x, Decision (P x)} (l : list A) :
  (forall x, x ∈ l -> ~ P x) -> filter P l = [].
Proof.
  induction l as [|x l IH]; intros Hall; [done|].
  rewrite filter_cons, decide_False by (apply Hall; by left).
  apply IH. intros y Hy. apply Hall. by right.
Qed.

Lemma no_inactive_left now (m : gmap string Z) :
  filter (fun kv : string * Z => 7 * 24 * 60 * 60 * 1000 < now - kv.2)
    (map_to_list
       (deleteAll (filter (fun kv : string * Z => MAX_COOLDOWN_AGE_MS < now - kv.2)
                     (map_to_list m)).*1 m)) = [].
Proof.
  apply filter_none. intros [k t] Hin%elem_of_map_to_list. rewrite lookup_sweep in Hin.
  destruct (m !! k) as [t'|]; [|done]. destruct (decide _) as [|Hyoung]; [done|].
  injection Hin as ->. unfold MAX_COOLDOWN_AGE_MS in Hyoung. simpl. lia.
Qed.

Lemma cleanup_spec countCleanup deepCleanup now s :
  cleanupOldCooldowns countCleanup deepCleanup now s =
    {| walletData := walletData s;
       walletCooldowns :=
         deleteAll (filter (fun kv : string * Z => MAX_COOLDOWN_AGE_MS < now - kv.2)
                      (map_to_list (walletCooldowns s))).*1 (walletCooldowns s);
       walletTradeCount :=
         if countCleanup then capAt 1000 <$> walletTradeCount s else walletTradeCount s;
       activeWallets := activeWallets s |}.
Proof.
  unfold cleanupOldCooldowns. cbv zeta. rewrite no_inactive_left.
  simpl. by rewrite andb_false_r.
Qed.

(** The sweep of [loadActiveBatch] forgets the cooldowns older than a day
    and nothing else.  After [cleanupOldCooldowns] a wallet has its cooldown
    entry exactly when it had one no older than [MAX_COOLDOWN_AGE_MS]; the
    trade counts keep their wallets and are capped at 1000 when the count
    cleanup is drawn; the wallets and the active batch are untouched.  The
    deep cleanup of wallets inactive for seven days never removes anything:
    when it looks, no entry older than a day is left, so its draw has no
    effect. *)
Theorem sweep_forgets_only_old_cooldowns (countCleanup deepCleanup : bool) (now : Z)
    (s : State) :
  let s1 := cleanupOldCooldowns countCleanup deepCleanup now s in
  (forall key,
     walletCooldowns s1 !! key
     = match walletCooldowns s !! key with
       | Some lastTrade =>
           if decide (MAX_COOLDOWN_AGE_MS < now - lastTrade) then None else Some lastTrade
       | None => None
       end) /\
  (forall key,
     walletTradeCount s1 !! key
     = (if countCleanup then capAt 1000 else id) <$> walletTradeCount s !! key) /\
  walletData s1 = walletData s /\
  activeWallets s1 = activeWallets s /\
  s1 = cleanupOldCooldowns countCleanup (negb deepCleanup) now s.
Proof.
  cbv zeta. rewrite !cleanup_spec. cbn. split_and!; try done.
  - intros key. apply lookup_sweep.
  - intros key. destruct countCleanup; [by rewrite lookup_fmap|].
    by destruct (walletTradeCount s !! key).
Qed.

Lemma readyFrom_spec cfg getWalletCooldown now s wallets :
  forall index w,
    w ∈ readyFrom cfg getWalletCooldown now s index wallets ->
    exists i, wallets !! i = Some w /\
              isReady cfg (getWalletCooldown (index + i)%nat
                             (getOr0 (walletTradeCount s) (pubkey w))) now s w = true.
Proof.
  induction wallets as [|w0 rest IH]; intros index w; simpl; [by intros ?%elem_of_nil|].
  destruct (isReady _ _ _ _ w0) eqn:Hready.
  - intros [->|Hin]%elem_of_cons.
    + exists 0%nat. by rewrite Nat.add_0_r.
    + apply IH in Hin as (i & Hi & Hr). exists (S i).
      by replace (index + S i)%nat with (S index + i)%nat by lia.
  - intros Hin. apply IH in Hin as (i & Hi & Hr). exists (S i).
    by replace (index + S i)%nat with (S index + i)%nat by lia.
Qed.

Lemma shuffleArray_elem {A} draw (l : list A) x :
  x ∈ BurnerWalletManager.shuffleArray draw l -> x ∈ l.
Proof.
  unfold BurnerWalletManager.shuffleArray.
  by rewrite (BurnerWalletManagerFacts.shuffleLoop_perm draw (length l - 1) l).
Qed.

Lemma batch_spec cfg getWalletCooldown draw countCleanup deepCleanup now s batch :
  (loadActiveBatch cfg getWalletCooldown draw countCleanup deepCleanup now s).2
    = Returned batch ->
  let s1 := cleanupOldCooldowns countCleanup deepCleanup now s in
  let s2 := (loadActiveBatch cfg getWalletCooldown draw countCleanup deepCleanup now s).1 in
  (forall a, a ∈ batch ->
     exists i w, walletData s !! i = Some w /\ a = toActive w /\
                 privateKeyValid w = true /\
                 isReady cfg (getWalletCooldown i (getOr0 (walletTradeCount s1) (pubkey w)))
                   now s1 w = true) /\
  (0 <= batchSize cfg -> Z.of_nat (length batch) <= batchSize cfg) /\
  (activeWallets s2 = batch \/ (batch = [] /\ activeWallets s2 = activeWallets s)) /\
  walletData s2 = walletData s /\
  walletCooldowns s2 = walletCooldowns s1 /\
  walletTradeCount s2 = walletTradeCount s1.
Proof.
  cbv zeta. unfold loadActiveBatch. cbv zeta.
  set (s1 := cleanupOldCooldowns countCleanup deepCleanup now s).
  assert (Hdata : walletData s1 = walletData s) by (subst s1; by rewrite cleanup_spec).
  assert (Hactive : activeWallets s1 = activeWallets s)
    by (subst s1; by rewrite cleanup_spec).
  set (ready := readyFrom cfg getWalletCooldown now s1 0 (walletData s1)).
  assert (Hready : forall w, w ∈ ready ->
            exists i, walletData s !! i = Some w /\
                      isReady cfg (getWalletCooldown i
                                     (getOr0 (walletTradeCount s1) (pubkey w)))
                        now s1 w = true).
  { intros w Hw. subst ready. apply readyFrom_spec in Hw as (i & Hi & Hr).
    exists i. by rewrite <- Hdata. }
  clearbody ready. destruct ready as [|r0 ready].
  { cbn [fst snd]. intros [= <-].
    split_and!;
      first [done | by intros a ?%elem_of_nil | by (intros; simpl; lia) | by right]. }
  set (selected := BurnerWalletManager.slice0 _ (batchSize cfg)).
  assert (Hsel : forall w, w ∈ selected -> w ∈ r0 :: ready).
  { intros w Hw. subst selected.
    apply BurnerWalletManagerProofs.slice0_subseteq in Hw.
    destruct (shuffleWallets cfg); [by apply shuffleArray_elem in Hw | done]. }
  assert (Hlen : 0 <= batchSize cfg -> Z.of_nat (length selected) <= batchSize cfg).
  { intros Hb. subst selected. by apply BurnerWalletManagerProofs.slice0_length. }
  clearbody selected.
  destruct (forallb privateKeyValid selected) eqn:Hkeys; cbn [fst snd]; [|done].
  intros [= <-]. split_and!; try done.
  - intros a (w & -> & Hw)%list_elem_of_fmap.
    destruct (Hready w (Hsel w Hw)) as (i & Hi & Hr). exists i, w.
    split_and!; try done.
    rewrite forallb_forall in Hkeys. apply Hkeys. by apply list_elem_of_In.
  - by rewrite length_map.
  - by left.
Qed.

(** The active batch holds only wallets that are ready.  When
    [loadActiveBatch] returns a batch, each of its wallets is a wallet of
    [walletData] with a valid key whose drawn cooldown has passed since its
    last trade (since time zero when it has no entry, or one older than a
    day), and which is seasoned when seasoning is required; the batch has at
    most [batchSize] wallets; it replaces [activeWallets], except that an
    empty pool of ready wallets leaves [activeWallets] as it was. *)
Theorem active_batch_is_ready (cfg : Config) (getWalletCooldown : nat -> Z -> Z)
    (draw : nat -> nat) (countCleanup deepCleanup : bool) (now : Z) (s : State)
    (batch : list ActiveWallet) :
  (loadActiveBatch cfg getWalletCooldown draw countCleanup deepCleanup now s).2
    = Returned batch ->
  let s1 := cleanupOldCooldowns countCleanup deepCleanup now s in
  let s2 := (loadActiveBatch cfg getWalletCooldown draw countCleanup deepCleanup now s).1 in
  (forall a, a ∈ batch ->
     exists i w, walletData s !! i = Some w /\ a = toActive w /\
                 privateKeyValid w = true /\
                 (enableSeasoning cfg = true -> isSeasoned w = true) /\
                 getWalletCooldown i (getOr0 (walletTradeCount s1) (pubkey w))
                 <= now - getOr0 (walletCooldowns s1) (pubkey w)) /\
  (0 <= batchSize cfg -> Z.of_nat (length batch) <= batchSize cfg) /\
  (activeWallets s2 = batch \/ (batch = [] /\ activeWallets s2 = activeWallets s)) /\
  walletData s2 = walletData s.
Proof.
  intros Hbatch. cbv zeta.
  destruct (batch_spec cfg getWalletCooldown draw countCleanup deepCleanup now s batch
              Hbatch) as (Hall & Hlen & Hact & Hdata & _).
  split_and!; try done.
  intros a Ha. destruct (Hall a Ha) as (i & w & Hi & -> & Hkey & Hr).
  exists i, w. split_and!; try done.
  - intros Hs. unfold isReady in Hr. rewrite Hs in Hr.
    apply andb_true_iff in Hr as [_ Hr]. done.
  - unfold isReady in Hr. apply andb_true_iff in Hr as [Hr _]. by apply Z.leb_le.
Qed.

Lemma active_batch_is_ready_witness :
  Z.of_nat (length [ {| a_name := "Wallet3"; a_pubkey := "WalletC" |};
                     {| a_name := "Wallet1"; a_pubkey := "WalletA" |} ]) <= 2.
Proof.
  refine (proj1 (proj2 (active_batch_is_ready seasonedBatches fiveMinutes (fun _ => 0%nat)
                          false false 1000000 roster _ _)) _).
  - by vm_compute.
  - by vm_compute.
Defined.

(** A wallet that has just traded rests.  After [markWalletUsed] at time
    [usedAt], a batch loaded at a time when less than every cooldown that
    is drawn has passed since then (and no more than a day) does not
    contain the wallet. *)
Theorem used_wallet_rests (cfg : Config) (getWalletCooldown : nat -> Z -> Z)
    (draw : nat -> nat) (countCleanup deepCleanup : bool) (usedAt now : Z)
    (wallet : ActiveWallet) (s : State) (batch : list ActiveWallet) :
  now - usedAt <= MAX_COOLDOWN_AGE_MS ->
  (forall i tradeCount, now - usedAt < getWalletCooldown i tradeCount) ->
  (loadActiveBatch cfg getWalletCooldown draw countCleanup deepCleanup now
     (markWalletUsed wallet usedAt s)).2 = Returned batch ->
  forall a, a ∈ batch -> a_pubkey a <> a_pubkey wallet.
Proof.
  intros Hday Hcool Hbatch a Ha.
  destruct (batch_spec cfg getWalletCooldown draw countCleanup deepCleanup now _ batch
              Hbatch) as (Hall & _).
  destruct (Hall a Ha) as (i & w & _ & -> & _ & Hr). simpl. intros Hpk.
  unfold isReady in Hr. apply andb_true_iff in Hr as [Hr%Z.leb_le _].
  rewrite cleanup_spec in Hr. cbn [walletCooldowns walletTradeCount] in Hr.
  unfold getOr0 at 2 in Hr. rewrite lookup_sweep in Hr.
  unfold markWalletUsed in Hr. cbn [walletCooldowns] in Hr.
  rewrite Hpk, lookup_insert_eq in Hr.
  rewrite decide_False in Hr by lia. simpl in Hr.
  match type of Hr with getWalletCooldown ?i ?c <= _ => specialize (Hcool i c) end.
  lia.
Qed.

Lemma used_wallet_rests_witness :
  a_pubkey {| a_name := "Wallet3"; a_pubkey := "WalletC" |} <> "WalletA".
Proof.
  refine (used_wallet_rests seasonedBatches fiveMinutes (fun _ => 0%nat) false false
            1000000 1100000 {| a_name := "Wallet1"; a_pubkey := "WalletA" |} roster
            [ {| a_name := "Wallet3"; a_pubkey := "WalletC" |} ] _ _ _
            {| a_name := "Wallet3"; a_pubkey := "WalletC" |} _).
  - by vm_compute.
  - intros i tradeCount. by vm_compute.
  - by vm_compute.
  - by left.
Defined.

End SelectionFacts.

(** ** Wallet manager: relayer top-ups and funding batches *)

Module RelayerFundingFacts.
Import RelayerFunding.

Lemma topUpLoop_elem masterBalance sendSucceeds balances :
  forall index t,
    t ∈ topUpLoop masterBalance sendSucceeds index balances <->
    exists i current,
      balances !! i = Some (Returned current) /\
      current < minRelayerBalance /\
      targetRelayerBalance - current <= masterBalance - 10000000 /\
      t = {| t_relayer := (index + i)%nat;
             t_amount := targetRelayerBalance - current;
             t_confirmed := sendSucceeds (index + i)%nat |}.
Proof.
  induction balances as [|[current0|] rest IH]; intros index t; cbn [topUpLoop].
  - split; [by intros ?%elem_of_nil | by intros (i & current & ? & _)].
  - assert (Hrest : (exists i current,
                        rest !! i = Some (Returned current) /\
                        current < minRelayerBalance /\
                        targetRelayerBalance - current <= masterBalance - 10000000 /\
                        t = {| t_relayer := (S index + i)%nat;
                               t_amount := targetRelayerBalance - current;
                               t_confirmed := sendSucceeds (S index + i)%nat |}) <->
                     (exists i current,
                        (Returned current0 :: rest) !! S i = Some (Returned current) /\
                        current < minRelayerBalance /\
                        targetRelayerBalance - current <= masterBalance - 10000000 /\
                        t = {| t_relayer := (index + S i)%nat;
                               t_amount := targetRelayerBalance - current;
                               t_confirmed := sendSucceeds (index + S i)%nat |})).
    { split; intros (i & current & Hl & Hlow & Hcan & ->); exists i, current;
        split_and!; try done; by replace (index + S i)%nat with (S index + i)%nat by lia. }
    destruct (Z.ltb_spec current0 minRelayerBalance) as [Hlow|Hhigh];
      [destruct (Z.leb_spec (targetRelayerBalance - current0) (masterBalance - 10000000))
         as [Hcan|Hcannot]|].
    + rewrite elem_of_cons, IH, Hrest. split.
      * intros [->|(i & current & Hl & ?)].
        -- exists 0%nat, current0. by rewrite Nat.add_0_r.
        -- by exists (S i), current.
      * intros ([|i] & current & Hl & Hlow' & Hcan' & ->).
        -- left. injection Hl as <-. by rewrite Nat.add_0_r.
        -- right. by exists i, current.
    + rewrite IH, Hrest. split.
      * intros (i & current & Hl & ?). by exists (S i), current.
      * intros ([|i] & current & Hl & Hlow' & Hcan' & ->).
        -- injection Hl as <-. lia.
        -- by exists i, current.
    + rewrite IH, Hrest. split.
      * intros (i & current & Hl & ?). by exists (S i), current.
      * intros ([|i] & current & Hl & Hlow' & Hcan' & ->).
        -- injection Hl as <-. lia.
        -- by exists i, current.
  - rewrite IH. split.
    + intros (i & current & Hl & Hlow & Hcan & ->). exists (S i), current.
      split_and!; try done. by replace (index + S i)%nat with (S index + i)%nat by lia.
    + intros ([|i] & current & Hl & Hlow & Hcan & ->); [done|]. exists i, current.
      split_and!; try done. by replace (index + S i)%nat with (S index + i)%nat by lia.
Qed.

(** Which relayers the master tops up, and by how much.  When
    [fundRelayerWallets] returns, it has sent a transfer to exactly the
    relayers whose balance query answered less than 0.025 SOL and whose
    shortfall to 0.05 SOL fits in the master balance read at the start less
    a reserve of 0.01 SOL; the transfer is that shortfall, so it brings the
    relayer to exactly 0.05 SOL; a relayer whose query fails is skipped
    without stopping the others; and nothing is sent without a master key
    or with a master balance below 0.05 SOL.  Each relayer is judged
    against the balance read at the start, not against what the earlier
    transfers left. *)
Theorem relayer_topups_reach_target (masterKeypair : bool) (masterBalance : outcome Z)
    (relayerBalances : list (outcome Z)) (sendSucceeds : nat -> bool)
    (topUps : list TopUp) :
  fundRelayerWallets masterKeypair masterBalance relayerBalances sendSucceeds
    = Returned topUps ->
  (forall t, t ∈ topUps <->
     exists i current balance,
       masterKeypair = true /\ masterBalance = Returned balance /\ 50000000 <= balance /\
       relayerBalances !! i = Some (Returned current) /\
       current < 25000000 /\
       50000000 - current <= balance - 10000000 /\
       t = {| t_relayer := i; t_amount := 50000000 - current;
              t_confirmed := sendSucceeds i |}) /\
  (forall t, t ∈ topUps ->
     25000000 < t_amount t /\
     exists current, relayerBalances !! t_relayer t = Some (Returned current) /\
                     current + t_amount t = 50000000).
Proof.
  intros Hrun.
  assert (Hiff : forall t, t ∈ topUps <->
            exists i current balance,
              masterKeypair = true /\ masterBalance = Returned balance /\
              50000000 <= balance /\
              relayerBalances !! i = Some (Returned current) /\
              current < 25000000 /\
              50000000 - current <= balance - 10000000 /\
              t = {| t_relayer := i; t_amount := 50000000 - current;
                     t_confirmed := sendSucceeds i |}).
  { unfold fundRelayerWallets in Hrun.
    destruct masterKeypair; cbn [negb] in Hrun.
    2: { injection Hrun as <-. intros t. split; [by intros ?%elem_of_nil|].
         by intros (? & ? & ? & ? & _). }
    destruct (Nat.eqb_spec (length relayerBalances) 0) as [Hnone|_].
    { injection Hrun as <-. intros t. split; [by intros ?%elem_of_nil|].
      destruct relayerBalances; [|done]. by intros (? & ? & ? & _ & _ & _ & ? & _). }
    destruct masterBalance as [balance|]; [|done].
    destruct (Z.ltb_spec balance 50000000) as [Hpoor|Hrich].
    { injection Hrun as <-. intros t. split; [by intros ?%elem_of_nil|].
      intros (? & ? & ? & _ & [= <-] & ? & _). lia. }
    injection Hrun as <-. intros t. rewrite topUpLoop_elem. split.
    - intros (i & current & Hl & Hlow & Hcan & ->). exists i, current, balance.
      by split_and!.
    - intros (i & current & ? & _ & [= <-] & _ & Hl & Hlow & Hcan & ->).
      by exists i, current. }
  split; [done|].
  intros t (i & current & balance & _ & _ & _ & Hl & Hlow & _ & ->)%Hiff. simpl.
  split; [lia|]. exists current. split; [done | lia].
Qed.

Lemma relayer_topups_reach_target_witness :
  25000000 < t_amount {| t_relayer := 1; t_amount := 40000000; t_confirmed := true |}.
Proof.
  refine (proj1 (proj2 (relayer_topups_reach_target true (Returned 100000000)
                          [Thrown; Returned 10000000; Returned 30000000]
                          (fun _ => true)
                          [{| t_relayer := 1; t_amount := 40000000; t_confirmed := true |}]
                          _) _ _)).
  - by vm_compute.
  - by left.
Defined.

Lemma batchesFrom_lookup {A} (fundBatchSize : nat) (toCheck : list A) turns :
  forall i k batch,
    batchesFrom turns fundBatchSize i toCheck !! k = Some batch ->
    batch = take fundBatchSize (drop (i + k * fundBatchSize) toCheck) /\
    (i + k * fundBatchSize < length toCheck)%nat.
Proof.
  induction turns as [|turns IH]; intros i k batch; simpl; [done|].
  destruct (Nat.ltb_spec i (length toCheck)) as [Hlt|]; [|done].
  destruct k as [|k]; simpl.
  - intros [= <-]. rewrite Nat.add_0_r. done.
  - intros [-> Hk]%IH.
    by replace (i + fundBatchSize + k * fundBatchSize)%nat
      with (i + (fundBatchSize + k * fundBatchSize))%nat in * by lia.
Qed.

Lemma batchesFrom_concat {A} (fundBatchSize : nat) (toCheck : list A) turns :
  (0 < fundBatchSize)%nat ->
  forall i, (length toCheck - i <= turns * fundBatchSize)%nat ->
            concat (batchesFrom turns fundBatchSize i toCheck) = drop i toCheck.
Proof.
  intros Hpos. induction turns as [|turns IH]; intros i Hturns; simpl.
  - by rewrite drop_ge by lia.
  - destruct (Nat.ltb_spec i (length toCheck)) as [Hlt|Hge]; [|by rewrite drop_ge].
    simpl. rewrite IH by lia.
    rewrite <- (take_drop fundBatchSize (drop i toCheck)) at 2.
    by rewrite drop_drop.
Qed.

(** The funding batches are the wallets not yet funded, fifty at a time.
    When [fundWalletsInParallel] returns, the batches it funded, put end to
    end, are the wallets of [walletData] that are not in [funded], in their
    order and each once (none without relayers); no batch is empty or has
    more than fifty wallets, and every batch but the last has exactly
    fifty. *)
Theorem funding_batches_cover_unfunded (relayerCount : nat)
    (relayerFunding : outcome (list TopUp)) (funded : gset string)
    (walletData : list WalletManager.Wallet)
    (batches : list (list WalletManager.Wallet)) :
  fundWalletsInParallel relayerCount relayerFunding funded walletData = Returned batches ->
  concat batches
    = (if (relayerCount =? 0)%nat then []
       else filter (fun w => WalletManager.pubkey w ∉ funded) walletData) /\
  (forall k batch, batches !! k = Some batch ->
     (0 < length batch <= 50)%nat /\
     ((S k < length batches)%nat -> length batch = 50%nat)).
Proof.
  unfold fundWalletsInParallel. destruct (relayerCount =? 0)%nat; [by intros [= <-]|].
  destruct relayerFunding as [topUps|]; [|done]. cbv zeta.
  set (toCheck := filter _ walletData). intros [= <-]. split.
  - rewrite batchesFrom_concat by lia. done.
  - intros k batch Hk. pose proof Hk as [-> Hin]%batchesFrom_lookup.
    rewrite length_take, length_drop. split; [lia|].
    intros Hnext. destruct (lookup_lt_is_Some_2 _ _ Hnext) as [next Hn].
    apply batchesFrom_lookup in Hn as [_ Hn]. lia.
Qed.

Lemma funding_batches_cover_unfunded_witness :
  concat [[WalletManager.walletA]]
  = filter (fun w => WalletManager.pubkey w ∉ (∅ : gset string)) [WalletManager.walletA].
Proof.
  refine (proj1 (funding_batches_cover_unfunded 1 (Returned []) ∅ [WalletManager.walletA]
                   [[WalletManager.walletA]] _)).
  by vm_compute.
Defined.

End RelayerFundingFacts.

(** ** Orchestrator: who trades in a batch *)

Module VolumeBoosterBotFacts.
Import BurnerWalletManager VolumeBoosterBot.
Import BurnerWalletManagerProofs.

(** In hybrid mode burners only ever accompany regular wallets.  The
    batch [runLoop] hands to [processBatch] holds regular wallets of the
    active batch only, and burners that the manager tracks, that are not
    pending disposal and are below the lifetime cap; in burner-only mode it
    holds no regular wallet; and in hybrid mode the burners are at most as
    many as the regular wallets, so when no regular wallet is ready the
    batch is empty and nothing trades, whatever burners are available. *)
Theorem burners_only_accompany_regular_wallets (cfg : BurnerWalletManager.Config)
    (batchSize : Z) (getBurnerCooldown : string -> Z -> Z) (draw : nat -> nat) (now : Z)
    (walletBatch : list Selection.ActiveWallet) (s : State) :
  0 <= burnerRatioCeil cfg (Z.of_nat (length walletBatch)) ->
  let r := combinedBatch cfg batchSize getBurnerCooldown draw now walletBatch s in
  (forall w, Regular w ∈ r.2 ->
     w ∈ walletBatch /\ ~ (bwcEnabled cfg = true /\ bwcMode cfg = ModeBurnerOnly)) /\
  (forall b, BurnerTrader b ∈ r.2 ->
     bwcEnabled cfg = true /\ bwcMode cfg <> ModeDisabled /\
     tracked (b_pubkey b) r.1 /\ (b_pubkey b ∉ pendingDisposal r.1) /\
     b_txCount b < bwcBurnerLifetimeTxs cfg) /\
  (bwcMode cfg = ModeHybrid ->
   (length r.2 <= 2 * length walletBatch)%nat /\
   (walletBatch = [] -> r.2 = [])).
Proof.
  intros Hratio. cbv zeta. unfold combinedBatch.
  assert (Hreg : forall w (l : list Selection.ActiveWallet), Regular w ∈ map Regular l -> w ∈ l).
  { intros w l (w' & [= ->] & Hin)%list_elem_of_fmap. done. }
  assert (Hburner : forall w (l : list Burner), Regular w ∈ map BurnerTrader l -> False).
  { intros w l (b & Heq & _)%list_elem_of_fmap. done. }
  assert (Hb1 : forall b (l : list Burner), BurnerTrader b ∈ map BurnerTrader l -> b ∈ l).
  { intros b l (b' & [= ->] & Hin)%list_elem_of_fmap. done. }
  assert (Hb2 : forall b (l : list Selection.ActiveWallet),
             BurnerTrader b ∈ map Regular l -> False).
  { intros b l (w & Heq & _)%list_elem_of_fmap. done. }
  destruct (bwcEnabled cfg) eqn:Hen; cbn [andb].
  2: { cbn [fst snd]. split_and!.
       - intros w Hw%Hreg. split; [done | by intros [? _]].
       - intros b Hb. by apply Hb2 in Hb.
       - intros _. rewrite length_map. split; [lia | by intros ->]. }
  destruct (bwcMode cfg) eqn:Hmode.
  - cbn [fst snd]. split_and!.
    + intros w Hw%Hreg. split; [done | by intros [_ ?]].
    + intros b Hb. by apply Hb2 in Hb.
    + done.
  - pose proof (query_length cfg getBurnerCooldown draw now (Z.of_nat (length walletBatch))
                  false s ltac:(lia) Hratio) as Hlen.
    pose proof (fun b => query_eligible cfg getBurnerCooldown draw now
                           (Z.of_nat (length walletBatch)) false s b) as Hel.
    destruct (getAvailableBurners cfg getBurnerCooldown draw now
                (Z.of_nat (length walletBatch)) false s) as [s1 burners].
    cbn [fst snd] in *. split_and!.
    + intros w [Hw%Hreg|Hw%Hburner]%elem_of_app; [|done].
      split; [done | by intros [_ ?]].
    + intros b [Hb%Hb2|Hb%Hb1]%elem_of_app; [done|].
      destruct (Hel b Hb) as (Ht & Hp & _ & Hlt & _). by split_and!.
    + intros _. rewrite length_app, !length_map. split; [lia|].
      intros ->. simpl in *. destruct burners; [done | simpl in Hlen; lia].
  - pose proof (fun b => query_eligible cfg getBurnerCooldown draw now batchSize false s b)
      as Hel.
    destruct (getAvailableBurners cfg getBurnerCooldown draw now batchSize false s)
      as [s1 burners].
    cbn [fst snd] in *. split_and!.
    + intros w Hw%Hburner. done.
    + intros b Hb%Hb1. destruct (Hel b Hb) as (Ht & Hp & _ & Hlt & _). by split_and!.
    + done.
Qed.

Lemma burners_only_accompany_regular_wallets_witness :
  (combinedBatch hybridConfig 2 fortySeconds drawZero 100000 [] twoBurners).2 = [].
Proof.
  refine (proj2 (proj2 (proj2 (burners_only_accompany_regular_wallets hybridConfig 2
                                 fortySeconds drawZero 100000 [] twoBurners _)) _) _).
  - by vm_compute.
  - reflexivity.
  - reflexivity.
Defined.

End VolumeBoosterBotFacts.
